(** * A reactive signal engine: leaf signals, derived signals, effects

    Shallow embedding of [signal.ts]: the three node classes ([RefState],
    [ComputedState], [EffectState]), the capture mechanism ([runCapture]),
    the scheduler ([enqueueUpdate], [updateStates]) and the scoped
    collection API ([ref], [computed], [effect], [collect]).

    The module-level [let] variables of the source are the fields of one
    record, [World], that every operation threads through a state-and-
    exception monad [M].  Objects live in stores keyed by their address;
    a [Set] is a duplicate-free list in insertion order, an array is a
    list in index order.  The closures that clients hand to the engine are
    terms of [prog], a tree of calls to the public API. *)

From Stdlib Require Import ZArith.
From stdpp Require Import gmap list strings.

Set Warnings "-clear-no-such-hyp".
Open Scope string_scope.
Open Scope list_scope.
Open Scope nat_scope.

(** ** Values and exceptions *)

(** The type parameter [T] of the source, instantiated by first-order
    data: [null], booleans, integers, [NaN] and strings.  On these [===]
    is [strict_eq] below. *)
Inductive value :=
| VNull
| VBool (b : bool)
| VNum (z : Z)
| VNaN                 (* the number [NaN] *)
| VStr (s : string).

#[global] Instance value_eq_dec : EqDecision value.
Proof. solve_decision. Defined.

(** [a === b]: the same value, except that [NaN] is not equal to
    itself. *)
Definition strict_eq (a b : value) : bool :=
  match a with
  | VNaN => false
  | _ => bool_decide (a = b)
  end.

Inductive exn :=
| TypeError (msg : string)   (* thrown by [assertRecursive] *)
| UserError (v : value)      (* [throw v] in a client closure *)
| NoSuchObject.              (* a handle that no constructor returned *)

#[global] Instance exn_eq_dec : EqDecision exn.
Proof. solve_decision. Defined.

(** ** Object references *)

(** [RefState | ComputedState]: what a capture records as read, and what
    carries a [_listeners] set. *)
Inductive source :=
| SRef (r : nat)
| SComputed (c : nat).

(** [ComputedState | EffectState]: the members of a [_listeners] set and
    of the scheduler's queue. *)
Inductive listener :=
| LComputed (c : nat)
| LEffect (e : nat).

#[global] Instance source_eq_dec : EqDecision source.
Proof. solve_decision. Defined.
#[global] Instance listener_eq_dec : EqDecision listener.
Proof. solve_decision. Defined.

(** ** The JavaScript [Set] and array operations the engine uses *)

Section JsSet.
Context {A : Type} `{EqDecision A}.

(** [s.add(x)]: insertion order is kept, a member is not added again. *)
Definition set_add (x : A) (s : list A) : list A :=
  if decide (x ∈ s) then s else s ++ [x].

(** [s.delete(x)] *)
Definition set_delete (x : A) (s : list A) : list A :=
  filter (λ y, y ≠ x) s.

(** [a.pop()] on a non-empty array: the last element and the rest. *)
Definition array_pop (a : list A) : option (A * list A) :=
  match reverse a with
  | [] => None
  | x :: r => Some (x, reverse r)
  end.
End JsSet.

(** ** Client closures *)

(** What a closure returns: a derived signal's function returns a value,
    an effect's function returns [void | (() => void)]. *)
Inductive kind := KVal | KEff.

(** A closure body as the tree of its calls into the engine.  Handles are
    the addresses the constructors return. *)
Inductive prog : kind → Type :=
| Ret (v : value) : prog KVal
| RetVoid : prog KEff                       (* no cleanup returned *)
| RetClear (clear : prog KEff) : prog KEff  (* [return () => { clear }] *)
| Throw {k} (e : exn) : prog k
| GetRef {k} (r : nat) (cont : value → prog k) : prog k        (* [r.value] *)
| SetRef {k} (r : nat) (v : value) (cont : prog k) : prog k    (* [r.value = v] *)
| GetComputed {k} (c : nat) (cont : value → prog k) : prog k   (* [c.value] *)
| NewRef {k} (init : value) (cont : nat → prog k) : prog k     (* [ref(init)] *)
| NewComputed {k} (fn : prog KVal) (cont : nat → prog k) : prog k
| NewEffect {k} (fn : prog KEff) (cont : prog k) : prog k
| Collect {k} (fn : prog KVal)
    (cont : value → option (list nat) → option (list nat) →
            option (list nat) → prog k) : prog k.

Definition ret (k : kind) : Type :=
  match k with
  | KVal => value
  | KEff => option (prog KEff)
  end.

(** ** Objects *)

(** [class Capture] *)
Record Capture := mkCapture {
  _getters : list source;
  _setters : list nat
}.

(** [class RefState] *)
Record RefState := mkRefState {
  r_old : value;
  r_state : value;
  r_pending : value;
  r_id : nat;
  r_listeners : list listener
}.

(** [class ComputedState]; [c_capture] is the address of the [Capture]. *)
Record ComputedState := mkComputedState {
  c_fn : prog KVal;
  c_old : value;
  c_state : value;
  c_capture : nat;
  c_id : nat;
  c_listeners : list listener
}.

(** [class EffectState] *)
Record EffectState := mkEffectState {
  e_fn : prog KEff;
  e_capture : nat;
  e_clear : option (prog KEff);
  e_id : nat;
  e_deleted : bool
}.

(** [false | "computed" | "effect"], with [None] for [false]. *)
Inductive mode := MComputed | MEffect.

#[global] Instance mode_eq_dec : EqDecision mode.
Proof. solve_decision. Defined.

Definition mode_name (m : mode) : string :=
  match m with
  | MComputed => "computed"
  | MEffect => "effect"
  end.

(** Observation log: which callbacks the engine entered and which
    mutations it made, in order.  No operation reads it. *)
Inductive event :=
| EvGet (node : source) (v : value)     (* [node.value] was read and gave [v] *)
| EvCommit (r : nat) (old new : value)  (* [RefState._update] stored [new] *)
| EvUpdate (l : listener)               (* the scheduler calls [l._update()] *)
| EvCall (l : listener)                 (* [runCapture] enters [l._fn] *)
| EvClear (e : nat)                     (* [e._clear()] is entered *)
| EvUnlink (l : listener)               (* [l] left its sources' listeners *)
| EvLink (l : listener).                (* [l] joined its getters' listeners *)

#[global] Instance event_eq_dec : EqDecision event.
Proof. solve_decision. Defined.

(** ** The module state *)

Record World := mkWorld {
  currentCapture : option nat;
  dirtyStates : list nat;
  currentUpdate : bool;
  recursive : option mode;
  refId : nat;
  computedId : nat;
  effectId : nat;
  currentRefs : option (list nat);
  currentComputes : option (list nat);
  currentEffects : option (list nat);
  (* the heap *)
  captures : gmap nat Capture;
  captureId : nat;
  refs : gmap nat RefState;
  computeds : gmap nat ComputedState;
  effects : gmap nat EffectState;
  (* the host: pending [setTimeout(updateStates)] callbacks *)
  timers : nat;
  trace : list event
}.

Definition initial : World :=
  mkWorld None [] false None 0 0 0 None None None ∅ 0 ∅ ∅ ∅ 0 [].

Definition set_currentCapture (x : option nat) (w : World) : World :=
  mkWorld x (dirtyStates w) (currentUpdate w) (recursive w) (refId w)
    (computedId w) (effectId w) (currentRefs w) (currentComputes w)
    (currentEffects w) (captures w) (captureId w) (refs w) (computeds w)
    (effects w) (timers w) (trace w).
Definition set_dirtyStates (x : list nat) (w : World) : World :=
  mkWorld (currentCapture w) x (currentUpdate w) (recursive w) (refId w)
    (computedId w) (effectId w) (currentRefs w) (currentComputes w)
    (currentEffects w) (captures w) (captureId w) (refs w) (computeds w)
    (effects w) (timers w) (trace w).
Definition set_currentUpdate (x : bool) (w : World) : World :=
  mkWorld (currentCapture w) (dirtyStates w) x (recursive w) (refId w)
    (computedId w) (effectId w) (currentRefs w) (currentComputes w)
    (currentEffects w) (captures w) (captureId w) (refs w) (computeds w)
    (effects w) (timers w) (trace w).
Definition set_recursive (x : option mode) (w : World) : World :=
  mkWorld (currentCapture w) (dirtyStates w) (currentUpdate w) x (refId w)
    (computedId w) (effectId w) (currentRefs w) (currentComputes w)
    (currentEffects w) (captures w) (captureId w) (refs w) (computeds w)
    (effects w) (timers w) (trace w).
Definition set_refId (x : nat) (w : World) : World :=
  mkWorld (currentCapture w) (dirtyStates w) (currentUpdate w) (recursive w) x
    (computedId w) (effectId w) (currentRefs w) (currentComputes w)
    (currentEffects w) (captures w) (captureId w) (refs w) (computeds w)
    (effects w) (timers w) (trace w).
Definition set_computedId (x : nat) (w : World) : World :=
  mkWorld (currentCapture w) (dirtyStates w) (currentUpdate w) (recursive w)
    (refId w) x (effectId w) (currentRefs w) (currentComputes w)
    (currentEffects w) (captures w) (captureId w) (refs w) (computeds w)
    (effects w) (timers w) (trace w).
Definition set_effectId (x : nat) (w : World) : World :=
  mkWorld (currentCapture w) (dirtyStates w) (currentUpdate w) (recursive w)
    (refId w) (computedId w) x (currentRefs w) (currentComputes w)
    (currentEffects w) (captures w) (captureId w) (refs w) (computeds w)
    (effects w) (timers w) (trace w).
Definition set_currentRefs (x : option (list nat)) (w : World) : World :=
  mkWorld (currentCapture w) (dirtyStates w) (currentUpdate w) (recursive w)
    (refId w) (computedId w) (effectId w) x (currentComputes w)
    (currentEffects w) (captures w) (captureId w) (refs w) (computeds w)
    (effects w) (timers w) (trace w).
Definition set_currentComputes (x : option (list nat)) (w : World) : World :=
  mkWorld (currentCapture w) (dirtyStates w) (currentUpdate w) (recursive w)
    (refId w) (computedId w) (effectId w) (currentRefs w) x
    (currentEffects w) (captures w) (captureId w) (refs w) (computeds w)
    (effects w) (timers w) (trace w).
Definition set_currentEffects (x : option (list nat)) (w : World) : World :=
  mkWorld (currentCapture w) (dirtyStates w) (currentUpdate w) (recursive w)
    (refId w) (computedId w) (effectId w) (currentRefs w) (currentComputes w)
    x (captures w) (captureId w) (refs w) (computeds w)
    (effects w) (timers w) (trace w).
Definition set_captures (x : gmap nat Capture) (w : World) : World :=
  mkWorld (currentCapture w) (dirtyStates w) (currentUpdate w) (recursive w)
    (refId w) (computedId w) (effectId w) (currentRefs w) (currentComputes w)
    (currentEffects w) x (captureId w) (refs w) (computeds w)
    (effects w) (timers w) (trace w).
Definition set_captureId (x : nat) (w : World) : World :=
  mkWorld (currentCapture w) (dirtyStates w) (currentUpdate w) (recursive w)
    (refId w) (computedId w) (effectId w) (currentRefs w) (currentComputes w)
    (currentEffects w) (captures w) x (refs w) (computeds w)
    (effects w) (timers w) (trace w).
Definition set_refs (x : gmap nat RefState) (w : World) : World :=
  mkWorld (currentCapture w) (dirtyStates w) (currentUpdate w) (recursive w)
    (refId w) (computedId w) (effectId w) (currentRefs w) (currentComputes w)
    (currentEffects w) (captures w) (captureId w) x (computeds w)
    (effects w) (timers w) (trace w).
Definition set_computeds (x : gmap nat ComputedState) (w : World) : World :=
  mkWorld (currentCapture w) (dirtyStates w) (currentUpdate w) (recursive w)
    (refId w) (computedId w) (effectId w) (currentRefs w) (currentComputes w)
    (currentEffects w) (captures w) (captureId w) (refs w) x
    (effects w) (timers w) (trace w).
Definition set_effects (x : gmap nat EffectState) (w : World) : World :=
  mkWorld (currentCapture w) (dirtyStates w) (currentUpdate w) (recursive w)
    (refId w) (computedId w) (effectId w) (currentRefs w) (currentComputes w)
    (currentEffects w) (captures w) (captureId w) (refs w) (computeds w)
    x (timers w) (trace w).
Definition set_timers (x : nat) (w : World) : World :=
  mkWorld (currentCapture w) (dirtyStates w) (currentUpdate w) (recursive w)
    (refId w) (computedId w) (effectId w) (currentRefs w) (currentComputes w)
    (currentEffects w) (captures w) (captureId w) (refs w) (computeds w)
    (effects w) x (trace w).
Definition set_trace (x : list event) (w : World) : World :=
  mkWorld (currentCapture w) (dirtyStates w) (currentUpdate w) (recursive w)
    (refId w) (computedId w) (effectId w) (currentRefs w) (currentComputes w)
    (currentEffects w) (captures w) (captureId w) (refs w) (computeds w)
    (effects w) (timers w) x.

(** ** The monad: state, and an exception that unwinds to the caller *)

Inductive Result (A : Type) :=
| Ok (a : A)
| Err (e : exn).
Arguments Ok {A} a.
Arguments Err {A} e.

Definition M (A : Type) : Type := World → Result A * World.

Definition mret {A} (a : A) : M A := λ w, (Ok a, w).
Definition throw {A} (e : exn) : M A := λ w, (Err e, w).
Definition bind {A B} (m : M A) (f : A → M B) : M B :=
  λ w, match m w with
       | (Ok a, w') => f a w'
       | (Err e, w') => (Err e, w')
       end.
Definition gets {A} (f : World → A) : M A := λ w, (Ok (f w), w).
Definition modify (f : World → World) : M unit := λ w, (Ok tt, f w).
(** [try { m } finally { f }] where [f] cannot throw. *)
Definition finally {A} (m : M A) (f : World → World) : M A :=
  λ w, let '(r, w') := m w in (r, f w').

Notation "'let*' x := m 'in' f" := (bind m (λ x, f))
  (at level 10, x name, m at level 100, f at level 200,
   format "'[v' 'let*'  x  :=  m  'in' '/' f ']'").

(** Appending an event to the log. *)
Definition log (ev : event) (w : World) : World :=
  set_trace (trace w ++ [ev]) w.

Definition emit (ev : event) : M unit := modify (log ev).

(** ** Scheduler: marking a leaf dirty *)

(** [enqueueUpdate]; [setTimeout(updateStates)] adds a pending timer. *)
Definition enqueueUpdate (node : nat) : M unit :=
  let* _ := modify (λ w, set_dirtyStates (set_add node (dirtyStates w)) w) in
  let* cu := gets currentUpdate in
  if negb cu then
    let* _ := modify (set_currentUpdate true) in
    modify (λ w, set_timers (S (timers w)) w)
  else mret tt.

(** ** The construction guard *)

Definition assertRecursive (name : string) : M unit :=
  let* rec := gets recursive in
  match rec with
  | None => mret tt
  | Some m =>
      if bool_decide (name = "effect") && bool_decide (m = MEffect)
      then mret tt
      else throw (TypeError
                    ("Cannot construct " +:+ name +:+ " inside " +:+ mode_name m))
  end.

(** ** Heap access *)

(** Dereferencing a handle.  Every handle a constructor returned is
    allocated; any other number raises [NoSuchObject]. *)
Definition the_ref (r : nat) : M RefState :=
  λ w, match refs w !! r with
       | Some this => (Ok this, w)
       | None => (Err NoSuchObject, w)
       end.
Definition the_computed (c : nat) : M ComputedState :=
  λ w, match computeds w !! c with
       | Some this => (Ok this, w)
       | None => (Err NoSuchObject, w)
       end.
Definition the_effect (e : nat) : M EffectState :=
  λ w, match effects w !! e with
       | Some this => (Ok this, w)
       | None => (Err NoSuchObject, w)
       end.
Definition the_capture (cap : nat) : M Capture :=
  λ w, match captures w !! cap with
       | Some this => (Ok this, w)
       | None => (Err NoSuchObject, w)
       end.

Definition alter_ref (f : RefState → RefState) (r : nat) : M unit :=
  modify (λ w, set_refs (alter f r (refs w)) w).
Definition alter_computed (f : ComputedState → ComputedState) (c : nat) : M unit :=
  modify (λ w, set_computeds (alter f c (computeds w)) w).
Definition alter_effect (f : EffectState → EffectState) (e : nat) : M unit :=
  modify (λ w, set_effects (alter f e (effects w)) w).

(** Field assignments. *)
Definition r_set_pending (v : value) (o : RefState) : RefState :=
  mkRefState (r_old o) (r_state o) v (r_id o) (r_listeners o).
Definition r_commit (o : RefState) : RefState :=
  mkRefState (r_state o) (r_pending o) (r_pending o) (r_id o) (r_listeners o).
Definition r_set_listeners (ls : list listener) (o : RefState) : RefState :=
  mkRefState (r_old o) (r_state o) (r_pending o) (r_id o) ls.
Definition c_set_listeners (ls : list listener) (o : ComputedState) : ComputedState :=
  mkComputedState (c_fn o) (c_old o) (c_state o) (c_capture o) (c_id o) ls.
Definition c_set_capture (cap : nat) (o : ComputedState) : ComputedState :=
  mkComputedState (c_fn o) (c_old o) (c_state o) cap (c_id o) (c_listeners o).
Definition c_set_state (v : value) (o : ComputedState) : ComputedState :=
  mkComputedState (c_fn o) (c_state o) v (c_capture o) (c_id o) (c_listeners o).
Definition e_set_capture (cap : nat) (o : EffectState) : EffectState :=
  mkEffectState (e_fn o) cap (e_clear o) (e_id o) (e_deleted o).
Definition e_set_clear (cl : option (prog KEff)) (o : EffectState) : EffectState :=
  mkEffectState (e_fn o) (e_capture o) cl (e_id o) (e_deleted o).
Definition e_set_deleted (b : bool) (o : EffectState) : EffectState :=
  mkEffectState (e_fn o) (e_capture o) (e_clear o) (e_id o) b.

(** [new Capture()]: the object is stored at the next free address. *)
Definition alloc_capture (w : World) : World :=
  set_captures (<[captureId w := mkCapture [] []]> (captures w))
    (set_captureId (S (captureId w)) w).

Definition new_Capture : M nat :=
  let* cap := gets captureId in
  let* _ := modify alloc_capture in
  mret cap.

(** [currentCapture?._getters.add(node)] *)
Definition capture_get (node : source) : M unit :=
  modify (λ w,
    match currentCapture w with
    | None => w
    | Some cap =>
        set_captures
          (alter (λ c, mkCapture (set_add node (_getters c)) (_setters c))
                 cap (captures w)) w
    end).

(** [currentCapture?._setters.add(node)] *)
Definition capture_set (node : nat) : M unit :=
  modify (λ w,
    match currentCapture w with
    | None => w
    | Some cap =>
        set_captures
          (alter (λ c, mkCapture (_getters c) (set_add node (_setters c)))
                 cap (captures w)) w
    end).

(** [node._listeners.add(l)] and [node._listeners.delete(l)] *)
Definition listeners_add (l : listener) (node : source) (w : World) : World :=
  match node with
  | SRef r =>
      set_refs (alter (λ o, r_set_listeners (set_add l (r_listeners o)) o)
                      r (refs w)) w
  | SComputed c =>
      set_computeds (alter (λ o, c_set_listeners (set_add l (c_listeners o)) o)
                           c (computeds w)) w
  end.
Definition listeners_delete (l : listener) (node : source) (w : World) : World :=
  match node with
  | SRef r =>
      set_refs (alter (λ o, r_set_listeners (set_delete l (r_listeners o)) o)
                      r (refs w)) w
  | SComputed c =>
      set_computeds (alter (λ o, c_set_listeners (set_delete l (c_listeners o)) o)
                           c (computeds w)) w
  end.

(** [for (const node of getters) node._listeners.add(this)] *)
Definition link_all (this : listener) (getters : list source) (w : World) : World :=
  foldl (λ w node, listeners_add this node w) w getters.

(** [for (const node of getters) node._listeners.delete(this)] *)
Definition unlink_all (this : listener) (getters : list source) (w : World) : World :=
  foldl (λ w node, listeners_delete this node w) w getters.

Definition link (this : listener) (cap : nat) : M unit :=
  let* capture := the_capture cap in
  let* _ := modify (link_all this (_getters capture)) in
  emit (EvLink this).

Definition unlink (this : listener) (cap : nat) : M unit :=
  let* capture := the_capture cap in
  let* _ := modify (unlink_all this (_getters capture)) in
  emit (EvUnlink this).

(** ** [runCapture] *)

Definition runCapture {A} (fn : M A) (capture : nat) : M A :=
  let* previousCapture := gets currentCapture in
  let* _ := modify (set_currentCapture (Some capture)) in
  finally fn (set_currentCapture previousCapture).

(** ** [RefState] *)

Definition RefState_constructor (init : value) : M nat :=
  let* _ := assertRecursive "ref" in
  let* id := gets refId in
  let* _ := modify (set_refId (S id)) in
  let* _ := modify (λ w, set_refs (<[id := mkRefState init init init id []]> (refs w)) w) in
  mret id.

Definition RefState_get_value (r : nat) : M value :=
  let* _ := the_ref r in
  let* _ := capture_get (SRef r) in
  let* this := the_ref r in
  let* _ := emit (EvGet (SRef r) (r_state this)) in
  mret (r_state this).

Definition RefState_set_value (r : nat) (state : value) : M unit :=
  let* this := the_ref r in
  let* _ := capture_set r in
  if negb (strict_eq state (r_state this)) then
    let* _ := alter_ref (r_set_pending state) r in
    enqueueUpdate r
  else mret tt.

Definition RefState_update (r : nat) : M bool :=
  let* this := the_ref r in
  if strict_eq (r_state this) (r_pending this) then mret false
  else
    let* _ := alter_ref r_commit r in
    let* _ := emit (EvCommit r (r_state this) (r_pending this)) in
    mret true.

Definition ComputedState_get_value (c : nat) : M value :=
  let* _ := the_computed c in
  let* _ := capture_get (SComputed c) in
  let* this := the_computed c in
  let* _ := emit (EvGet (SComputed c) (c_state this)) in
  mret (c_state this).

(** ** Constructors of [ComputedState] and [EffectState]

    [call] is the invocation [fn()] of the closure being stored. *)

Definition ComputedState_constructor (fn : prog KVal) (call : M value) : M nat :=
  let* _ := assertRecursive "computed" in
  let* id := gets computedId in
  let* _ := modify (set_computedId (S id)) in
  let* capture := new_Capture in
  let* _ := modify (set_recursive (Some MComputed)) in
  let* _ := emit (EvCall (LComputed id)) in
  let* state := runCapture call capture in
  let* _ := modify (set_recursive None) in
  let* _ := link (LComputed id) capture in
  let* _ := modify (λ w, set_computeds
              (<[id := mkComputedState fn state state capture id []]> (computeds w)) w) in
  mret id.

Definition EffectState_constructor (fn : prog KEff)
    (call : M (option (prog KEff))) : M nat :=
  let* _ := assertRecursive "effect" in
  let* id := gets effectId in
  let* _ := modify (set_effectId (S id)) in
  let* capture := new_Capture in
  let* _ := modify (set_recursive (Some MEffect)) in
  let* _ := emit (EvCall (LEffect id)) in
  let* clear := runCapture call capture in
  let* _ := modify (set_recursive None) in
  let* _ := link (LEffect id) capture in
  let* _ := modify (λ w, set_effects
              (<[id := mkEffectState fn capture clear id false]> (effects w)) w) in
  mret id.

(** ** The public constructors and [collect] *)

(** [a?.push(x)] on one of the three registration arrays. *)
Definition push_opt (x : nat) (a : option (list nat)) : option (list nat) :=
  match a with
  | Some l => Some (l ++ [x])
  | None => None
  end.

Definition ref (init : value) : M nat :=
  let* state := RefState_constructor init in
  let* _ := modify (λ w, set_currentRefs (push_opt state (currentRefs w)) w) in
  mret state.

Definition computed (fn : prog KVal) (call : M value) : M nat :=
  let* state := ComputedState_constructor fn call in
  let* _ := modify (λ w, set_currentComputes (push_opt state (currentComputes w)) w) in
  mret state.

Definition effect (fn : prog KEff) (call : M (option (prog KEff))) : M unit :=
  let* state := EffectState_constructor fn call in
  modify (λ w, set_currentEffects (push_opt state (currentEffects w)) w).

(** The tuple [collect] returns; an entry is [None] where the source
    returns the [null] it finds in the variable. *)
Record Collected (A : Type) := mkCollected {
  col_ret : A;
  col_refs : option (list nat);
  col_computes : option (list nat);
  col_effects : option (list nat)
}.
Arguments mkCollected {A}.
Arguments col_ret {A}.
Arguments col_refs {A}.
Arguments col_computes {A}.
Arguments col_effects {A}.

Definition collect {A} (fn : M A) : M (Collected A) :=
  let* _ := modify (set_currentRefs (Some [])) in
  let* _ := modify (set_currentComputes (Some [])) in
  let* _ := modify (set_currentEffects (Some [])) in
  finally
    (let* ret := fn in
     let* rs := gets currentRefs in
     let* cs := gets currentComputes in
     let* es := gets currentEffects in
     mret (mkCollected ret rs cs es))
    (λ w, set_currentEffects None (set_currentComputes None (set_currentRefs None w))).

(** ** Running a client closure *)

Fixpoint run {k} (p : prog k) : M (ret k) :=
  match p in prog k return M (ret k) with
  | Ret v => mret v
  | RetVoid => mret None
  | RetClear clear => mret (Some clear)
  | Throw e => throw e
  | GetRef r cont => let* v := RefState_get_value r in run (cont v)
  | SetRef r v cont => let* _ := RefState_set_value r v in run cont
  | GetComputed c cont => let* v := ComputedState_get_value c in run (cont v)
  | NewRef init cont => let* r := ref init in run (cont r)
  | NewComputed fn cont => let* c := computed fn (run fn) in run (cont c)
  | NewEffect fn cont => let* _ := effect fn (run fn) in run cont
  | Collect fn cont =>
      let* t := collect (run fn) in
      run (cont (col_ret t) (col_refs t) (col_computes t) (col_effects t))
  end.

(** ** Recompute and removal *)

Definition ComputedState_update (c : nat) : M bool :=
  let* this := the_computed c in
  (* remove old links *)
  let* _ := unlink (LComputed c) (c_capture this) in
  (* capture new deps *)
  let* capture := new_Capture in
  let* _ := alter_computed (c_set_capture capture) c in
  let* _ := emit (EvCall (LComputed c)) in
  let* state := runCapture (run (c_fn this)) capture in
  (* link to current getters *)
  let* this := the_computed c in
  let* _ := link (LComputed c) (c_capture this) in
  (* skip graph update if nothing changes *)
  let* this := the_computed c in
  if strict_eq state (c_state this) then mret false
  else
    (* update current states *)
    let* _ := alter_computed (c_set_state state) c in
    mret true.

Definition ComputedState_remove (c : nat) : M unit :=
  let* this := the_computed c in
  unlink (LComputed c) (c_capture this).

(** [if (typeof this._clear === "function") this._clear()] *)
Definition call_clear (e : nat) : M unit :=
  let* this := the_effect e in
  match e_clear this with
  | Some clear =>
      let* _ := emit (EvClear e) in
      let* _ := run clear in
      mret tt
  | None => mret tt
  end.

Definition EffectState_update (e : nat) : M unit :=
  let* this := the_effect e in
  if e_deleted this then mret tt
  else
    let* _ := call_clear e in
    let* this := the_effect e in
    let* _ := unlink (LEffect e) (e_capture this) in
    let* capture := new_Capture in
    let* _ := alter_effect (e_set_capture capture) e in
    let* _ := emit (EvCall (LEffect e)) in
    let* clear := runCapture (run (e_fn this)) capture in
    let* _ := alter_effect (e_set_clear clear) e in
    let* this := the_effect e in
    link (LEffect e) (e_capture this).

Definition EffectState_remove (e : nat) : M unit :=
  let* _ := call_clear e in
  let* this := the_effect e in
  let* _ := unlink (LEffect e) (e_capture this) in
  alter_effect (e_set_deleted true) e.

(** ** [updateStates] *)

(** [node._update()] as the scheduler's [if] sees it: the [void] of
    [EffectState._update] is falsy. *)
Definition listener_update (node : listener) : M bool :=
  match node with
  | LComputed c => ComputedState_update c
  | LEffect e => let* _ := EffectState_update e in mret false
  end.

(** [node instanceof ComputedState], and the listeners pushed if so. *)
Definition pushed_listeners (node : listener) (w : World) : list listener :=
  match node with
  | LComputed c =>
      match computeds w !! c with
      | Some this => c_listeners this
      | None => []
      end
  | LEffect _ => []
  end.

(** The [for] loop over the snapshot: commit each leaf, queue the
    listeners of those that changed. *)
Fixpoint commitDirty (dirty : list nat) (queue : list listener)
    : M (list listener) :=
  match dirty with
  | [] => mret queue
  | refState :: rest =>
      let* changed := RefState_update refState in
      if changed then
        let* this := the_ref refState in
        commitDirty rest (queue ++ r_listeners this)
      else commitDirty rest queue
  end.

(** The two [while] loops may not terminate; [fuel] bounds the number of
    iterations and [None] means it ran out. *)
Fixpoint drainQueue (fuel : nat) (queue : list listener) (w : World)
    : option (Result unit * World) :=
  match array_pop queue with
  | None => Some (Ok tt, w)
  | Some (node, queue) =>
      match fuel with
      | 0 => None
      | S fuel =>
          match (let* _ := emit (EvUpdate node) in listener_update node) w with
          | (Err e, w) => Some (Err e, w)
          | (Ok changed, w) =>
              if changed then drainQueue fuel (queue ++ pushed_listeners node w) w
              else drainQueue fuel queue w
          end
      end
  end.

(** One pass of the outer loop's body: snapshot and clear the dirty set,
    commit the snapshot, drain the queue. *)
Definition updateRound (fuel : nat) (w : World) : option (Result unit * World) :=
  let dirty := dirtyStates w in
  match commitDirty dirty [] (set_dirtyStates [] w) with
  | (Err e, w) => Some (Err e, w)
  | (Ok queue, w) => drainQueue fuel queue w
  end.

Fixpoint updateLoop (fuel : nat) (w : World) : option (Result unit * World) :=
  match dirtyStates w with
  | [] => Some (Ok tt, w)
  | _ =>
      match fuel with
      | 0 => None
      | S fuel =>
          match updateRound fuel w with
          | None => None
          | Some (Err e, w) => Some (Err e, w)
          | Some (Ok _, w) => updateLoop fuel w
          end
      end
  end.

Definition updateStates (fuel : nat) (w : World) : option (Result unit * World) :=
  updateLoop fuel (set_currentUpdate false w).

(** The host fires one pending timer. *)
Definition fire_timer (fuel : nat) (w : World) : option (Result unit * World) :=
  match timers w with
  | 0 => Some (Ok tt, w)
  | S n => updateStates fuel (set_timers n w)
  end.

(** ** Scenarios *)

Module Scenario.

(** [a = ref(1); b = computed(() => a.value * 2); effect(() => b.value)],
    then [a.value = 5]. *)
Definition double (v : value) : value :=
  match v with
  | VNum z => VNum (2 * z)
  | VNaN => VNaN
  | _ => VNull
  end.

Definition setup : prog KVal :=
  NewRef (VNum 1) (λ a,
  NewComputed (GetRef a (λ v, Ret (double v))) (λ b,
  NewEffect (GetComputed b (λ _, RetVoid))
  (SetRef a (VNum 5) (Ret VNull)))).

Definition after_setup : World := snd (run setup initial).

(** [effect(() => { ref(1) })] *)
Definition leaf_in_effect : prog KVal :=
  NewEffect (NewRef (VNum 1) (λ _, RetVoid)) (Ret VNull).

(** [effect(() => { computed(() => 1) })] *)
Definition derived_in_effect : prog KVal :=
  NewEffect (NewComputed (Ret (VNum 1)) (λ _, RetVoid)) (Ret VNull).

(** [computed(() => { throw null })] *)
Definition throwing_computed : prog KVal :=
  NewComputed (Throw (UserError VNull)) (λ _, Ret VNull).

(** [effect(() => { throw null })] *)
Definition throwing_effect : prog KVal :=
  NewEffect (Throw (UserError VNull)) (Ret VNull).

(** [a = ref(0); computed(() => { if (a.value !== 0) ref(1); return a.value });
    a.value = 1] *)
Definition leaf_on_recompute : prog KVal :=
  NewRef (VNum 0) (λ a,
  NewComputed
    (GetRef a (λ v,
       if negb (strict_eq v (VNum 0)) then NewRef (VNum 1) (λ _, Ret v) else Ret v))
    (λ _, SetRef a (VNum 1) (Ret VNull))).

(** The same closure constructed when [a] already holds [1]. *)
Definition leaf_on_construct : prog KVal :=
  NewRef (VNum 1) (λ a,
  NewComputed
    (GetRef a (λ v,
       if negb (strict_eq v (VNum 0)) then NewRef (VNum 1) (λ _, Ret v) else Ret v))
    (λ _, Ret VNull)).

(** The callback of
    [collect(() => { ref(1); collect(() => null); ref(2); return null })] *)
Definition nested_collect : prog KVal :=
  NewRef (VNum 1) (λ _,
  Collect (Ret VNull) (λ _ _ _ _,
  NewRef (VNum 2) (λ _, Ret VNull))).

(** The callback of
    [collect(() => { const x = ref(1); computed(() => x.value); return null })] *)
Definition flat_collect : prog KVal :=
  NewRef (VNum 1) (λ x,
  NewComputed (GetRef x (λ v, Ret v)) (λ _, Ret VNull)).

(** [effect(() => { effect(() => {}); ref(1) })] *)
Definition leaf_after_nested_effect : prog KVal :=
  NewEffect (NewEffect RetVoid (NewRef (VNum 1) (λ _, RetVoid))) (Ret VNull).

(** The world after [ref(1)]. *)
Definition one_leaf : World := snd (ref (VNum 1) initial).

(** [a = ref(1); effect(() => { a.value })] *)
Definition watched_leaf : World :=
  snd (run (NewRef (VNum 1) (λ a,
            NewEffect (GetRef a (λ _, RetVoid)) (Ret VNull))) initial).



(** [computed(() => NaN)] *)
Definition nan_computed : World :=
  snd (run (NewComputed (Ret VNaN) (λ _, Ret VNull)) initial).

(** [effect(() => {}); effect(() => () => { throw null }); effect(() => {})] *)
Definition three_effects : World :=
  snd (run (NewEffect RetVoid
           (NewEffect (RetClear (Throw (UserError VNull)))
           (NewEffect RetVoid (Ret VNull)))) initial).

End Scenario.

(** ** Relations that every engine operation respects *)

(** [respects R m]: running [m] takes a world to an [R]-related one,
    whether it returns or throws. *)
Definition respects {A} (R : relation World) (m : M A) : Prop :=
  ∀ w, R w (snd (m w)).

(** What a relation must satisfy to be respected by every client
    closure: it is a preorder and each entry point of the public API
    respects it, the constructors and [collect] provided the closure they
    call does. *)
Class Frame (R : relation World) : Prop := {
  frame_preorder :: PreOrder R;
  frame_get_ref r : respects R (RefState_get_value r);
  frame_set_ref r v : respects R (RefState_set_value r v);
  frame_get_computed c : respects R (ComputedState_get_value c);
  frame_ref init : respects R (ref init);
  frame_computed fn call : respects R call → respects R (computed fn call);
  frame_effect fn call : respects R call → respects R (effect fn call);
  frame_collect {A} (fn : M A) : respects R fn → respects R (collect fn)
}.

(** The current capture is the one it was. *)
Definition same_capture : relation World :=
  λ w w', currentCapture w' = currentCapture w.

(** The log grew by events that satisfy [P]. *)
Definition trace_ext (P : event → Prop) : relation World :=
  λ w w', ∃ t, trace w' = trace w ++ t ∧ Forall P t.

(** What running a client closure logs: its reads, and the calls and
    the linking of the nodes it constructs. *)
Definition construction_event (ev : event) : Prop :=
  match ev with
  | EvGet _ _ | EvCall _ | EvLink _ => True
  | _ => False
  end.

(** The leaves that exist keep their committed and previous values. *)
Definition keeps_refs : relation World :=
  λ w w', refId w ≤ refId w' ∧
    ∀ r this, r < refId w → refs w !! r = Some this →
      ∃ this', refs w' !! r = Some this' ∧
               r_state this' = r_state this ∧ r_old this' = r_old this.

(** ** Observations on the log *)

Definition is_commit (ev : event) : Prop :=
  match ev with
  | EvCommit _ _ _ => True
  | _ => False
  end.

Definition is_commit_of (r : nat) (ev : event) : Prop :=
  match ev with
  | EvCommit r' _ _ => r' = r
  | _ => False
  end.

#[global] Instance is_commit_of_dec r ev : Decision (is_commit_of r ev).
Proof. destruct ev; simpl; apply _. Defined.

(** The commits of leaf [r] in a stretch of the log, in order. *)
Definition commits_of (r : nat) (t : list event) : list event :=
  filter (is_commit_of r) t.

(** Every leaf in the dirty set exists. *)
Definition dirty_allocated (w : World) : Prop :=
  Forall (λ r, is_Some (refs w !! r)) (dirtyStates w).


(** Leaf [r] is not committed and every read of it gives [b]. *)
Definition reads_give (r : nat) (b : value) (ev : event) : Prop :=
  match ev with
  | EvGet (SRef r') v => r' = r → v = b
  | EvCommit r' _ _ => r' ≠ r
  | _ => True
  end.

Definition state_of (w : World) (r : nat) : option value :=
  r_state <$> refs w !! r.

(** While leaf [r] holds [b]: it goes on holding [b], and the log grows
    by events in which [r] is read as [b] and not committed. *)
Definition holds_value (r : nat) (b : value) : relation World :=
  λ w w', r < refId w ∧ state_of w r = Some b →
    r < refId w' ∧ state_of w' r = Some b ∧
    ∃ t, trace w' = trace w ++ t ∧ Forall (reads_give r b) t.


(** The log only grows. *)
Definition trace_grows : relation World := trace_ext (λ _, True).

(** ** The dependency graph *)

Definition allocated (w : World) (node : source) : Prop :=
  match node with
  | SRef r => is_Some (refs w !! r)
  | SComputed c => is_Some (computeds w !! c)
  end.

(** [node._listeners] *)
Definition listeners_of (w : World) (node : source) : list listener :=
  match node with
  | SRef r => from_option r_listeners [] (refs w !! r)
  | SComputed c => from_option c_listeners [] (computeds w !! c)
  end.

(** The address in [l._capture]. *)
Definition capture_of (w : World) (l : listener) : option nat :=
  match l with
  | LComputed c => c_capture <$> computeds w !! c
  | LEffect e => e_capture <$> effects w !! e
  end.

(** [l._capture._getters]: what the most recent evaluation of [l] read. *)
Definition getters_of (w : World) (l : listener) : list source :=
  match capture_of w l with
  | Some cap => from_option _getters [] (captures w !! cap)
  | None => []
  end.

(** The edge mirror is exact at [l]. *)
Definition mirror_exact (w : World) (l : listener) : Prop :=
  ∀ node, l ∈ listeners_of w node ↔ node ∈ getters_of w l.

(** What holds of the heap between any two operations: objects sit
    below the allocation counters, captures of nodes and leaves in the
    dirty set exist, what a capture recorded as read exists, and a
    listener edge is backed by the listener's capture. *)
Record consistent (w : World) : Prop := mkConsistent {
  cs_refs : ∀ r, is_Some (refs w !! r) → r < refId w;
  cs_computeds : ∀ c, is_Some (computeds w !! c) → c < computedId w;
  cs_effects : ∀ e, is_Some (effects w !! e) → e < effectId w;
  cs_captures : ∀ cap, is_Some (captures w !! cap) → cap < captureId w;
  cs_node_capture : ∀ l cap, capture_of w l = Some cap → is_Some (captures w !! cap);
  cs_getters : ∀ cap capture node,
    captures w !! cap = Some capture → node ∈ _getters capture → allocated w node;
  cs_edges : ∀ node l, l ∈ listeners_of w node → node ∈ getters_of w l;
  cs_dirty : dirty_allocated w
}.

(** A derived signal without its listeners; a leaf without its listeners
    and its pending value. *)
Definition c_core (o : ComputedState) : ComputedState := c_set_listeners [] o.
Definition r_core (o : RefState) : RefState :=
  r_set_listeners [] (r_set_pending VNull o).

(** What a client closure can do to the heap: allocate above the
    counters, add listeners and pending values, add to what captures
    record.  Below the counters, effects stay as they are, derived signals
    and leaves keep all but their listeners (and pending values), and an
    absent object stays absent. *)
Record extends (w w' : World) : Prop := mkExtends {
  ex_refId : refId w ≤ refId w';
  ex_computedId : computedId w ≤ computedId w';
  ex_effectId : effectId w ≤ effectId w';
  ex_captureId : captureId w ≤ captureId w';
  ex_refs : ∀ r, r < refId w → r_core <$> refs w' !! r = r_core <$> refs w !! r;
  ex_computeds : ∀ c, c < computedId w →
    c_core <$> computeds w' !! c = c_core <$> computeds w !! c;
  ex_effects : ∀ e, e < effectId w → effects w' !! e = effects w !! e;
  ex_captures : ∀ cap capture, cap < captureId w →
    captures w !! cap = Some capture →
    ∃ capture', captures w' !! cap = Some capture' ∧
                _getters capture ⊆ _getters capture'
}.

(** ** The constructors and recomputations in two halves

    Each runs the client's function once; [_entry] is the world in which
    the function is called, [_exit] is what is done with the world the
    function leaves when it returns. *)

Definition computed_entry (w : World) : World :=
  set_currentCapture (Some (captureId w))
    (log (EvCall (LComputed (computedId w)))
       (set_recursive (Some MComputed)
          (alloc_capture (set_computedId (S (computedId w)) w)))).

Definition computed_exit (fn : prog KVal) (id cap : nat) (prev : option nat)
    (state : value) (w : World) : Result nat * World :=
  let w := set_recursive None (set_currentCapture prev w) in
  match captures w !! cap with
  | None => (Err NoSuchObject, w)
  | Some capture =>
      let w := log (EvLink (LComputed id))
                 (link_all (LComputed id) (_getters capture) w) in
      (Ok id,
       set_computeds
         (<[id := mkComputedState fn state state cap id []]> (computeds w)) w)
  end.

Definition effect_entry (w : World) : World :=
  set_currentCapture (Some (captureId w))
    (log (EvCall (LEffect (effectId w)))
       (set_recursive (Some MEffect)
          (alloc_capture (set_effectId (S (effectId w)) w)))).

Definition effect_exit (fn : prog KEff) (id cap : nat) (prev : option nat)
    (clear : option (prog KEff)) (w : World) : Result nat * World :=
  let w := set_recursive None (set_currentCapture prev w) in
  match captures w !! cap with
  | None => (Err NoSuchObject, w)
  | Some capture =>
      let w := log (EvLink (LEffect id))
                 (link_all (LEffect id) (_getters capture) w) in
      (Ok id,
       set_effects
         (<[id := mkEffectState fn cap clear id false]> (effects w)) w)
  end.

(** What a client closure does to a world: it extends the heap and keeps
    it consistent. *)
Definition evolves : relation World :=
  λ w w', extends w w' ∧ (consistent w → consistent w').

(** [X._capture = cap] *)
Definition set_node_capture (X : listener) (cap : nat) (w : World) : World :=
  match X with
  | LComputed c => set_computeds (alter (c_set_capture cap) c (computeds w)) w
  | LEffect e => set_effects (alter (e_set_capture cap) e (effects w)) w
  end.

(** The world in which [_update] calls the function again: the node has
    left the listeners of [getters], the old capture's reads, and has a
    new, empty capture, which is the current one. *)
Definition update_entry (X : listener) (getters : list source) (w : World) : World :=
  set_currentCapture (Some (captureId w))
    (log (EvCall X)
       (set_node_capture X (captureId w)
          (alloc_capture (log (EvUnlink X) (unlink_all X getters w))))).

(** What [ComputedState._update] does once the function has returned
    [state]. *)
Definition computed_update_exit (c : nat) (prev : option nat) (state : value)
    (w : World) : Result bool * World :=
  let w := set_currentCapture prev w in
  match computeds w !! c with
  | None => (Err NoSuchObject, w)
  | Some this =>
      match captures w !! c_capture this with
      | None => (Err NoSuchObject, w)
      | Some capture =>
          let w := log (EvLink (LComputed c))
                     (link_all (LComputed c) (_getters capture) w) in
          match computeds w !! c with
          | None => (Err NoSuchObject, w)
          | Some this =>
              if strict_eq state (c_state this) then (Ok false, w)
              else (Ok true,
                    set_computeds (alter (c_set_state state) c (computeds w)) w)
          end
      end
  end.

(** [EffectState._update] from the unlinking on, that is after the guard
    and the cleanup. *)
Definition effect_rerun (e : nat) : M unit :=
  let* this := the_effect e in
  let* _ := unlink (LEffect e) (e_capture this) in
  let* capture := new_Capture in
  let* _ := alter_effect (e_set_capture capture) e in
  let* _ := emit (EvCall (LEffect e)) in
  let* clear := runCapture (run (e_fn this)) capture in
  let* _ := alter_effect (e_set_clear clear) e in
  let* this := the_effect e in
  link (LEffect e) (e_capture this).

(** What [EffectState._update] does once the function has returned
    [clear]. *)
Definition effect_update_exit (e : nat) (prev : option nat)
    (clear : option (prog KEff)) (w : World) : Result unit * World :=
  let w := set_currentCapture prev w in
  let w := set_effects (alter (e_set_clear clear) e (effects w)) w in
  match effects w !! e with
  | None => (Err NoSuchObject, w)
  | Some this =>
      match captures w !! e_capture this with
      | None => (Err NoSuchObject, w)
      | Some capture =>
          (Ok tt, log (EvLink (LEffect e))
                    (link_all (LEffect e) (_getters capture) w))
      end
  end.

(** Consistency is kept. *)
Definition keeps_consistent : relation World :=
  λ w w', consistent w → consistent w'.

(** ** What the host and the rendering layer do with the engine

    A client script runs at top level, a pending timer fires and the
    flush runs to its end, or a node is detached. *)
Inductive host_step : World → World → Prop :=
| host_script {k} (p : prog k) w :
    host_step w (snd (run p w))
| host_timer fuel w res w' :
    fire_timer fuel w = Some (res, w') → host_step w w'
| host_remove_computed c w :
    host_step w (snd (ComputedState_remove c w))
| host_remove_effect e w :
    host_step w (snd (EffectState_remove e w)).

(** The worlds the host can reach from the initial one. *)
Definition reachable (w : World) : Prop := rtc host_step initial w.

(** ** The scheduler's bookkeeping *)

(** A timer is pending exactly when [currentUpdate] is set, and then
    there is one; a non-empty dirty set has a flush scheduled; a leaf that
    is not dirty has nothing pending. *)
Record scheduled (w : World) : Prop := mkScheduled {
  sc_timer : timers w = if currentUpdate w then 1 else 0;
  sc_dirty : dirtyStates w ≠ [] → currentUpdate w = true;
  sc_clean : ∀ r this, refs w !! r = Some this → r ∉ dirtyStates w →
             r_pending this = r_state this
}.

Definition keeps_scheduled : relation World :=
  λ w w', scheduled w → scheduled w'.

(** ** What [collect] registers *)

(** The registration arrays and the allocation counters. *)
Definition registry (w : World) :
    option (list nat) * option (list nat) * option (list nat) * nat * nat * nat :=
  (currentRefs w, currentComputes w, currentEffects w,
   refId w, computedId w, effectId w).

Definition same_registry : relation World :=
  λ w w', registry w' = registry w.

(** A closure body that never calls [collect], neither itself nor in the
    closures it hands to [computed] and [effect]. *)
Fixpoint collect_free {k} (p : prog k) : Prop :=
  match p with
  | Ret _ | RetVoid | RetClear _ | Throw _ => True
  | GetRef _ cont => ∀ v, collect_free (cont v)
  | SetRef _ _ cont => collect_free cont
  | GetComputed _ cont => ∀ v, collect_free (cont v)
  | NewRef _ cont => ∀ r, collect_free (cont r)
  | NewComputed fn cont => collect_free fn ∧ ∀ c, collect_free (cont c)
  | NewEffect fn cont => collect_free fn ∧ collect_free cont
  | Collect _ _ => False
  end.

(** Since the counters stood at [br], [bc], [be], every leaf allocated
    has been pushed in order, and every derived signal and effect allocated
    has been pushed or is still inside its constructor ([pc], [pe]). *)
Record registered (br bc be : nat) (pc pe : list nat) (w : World) : Prop := {
  rg_refId : br ≤ refId w;
  rg_computedId : bc ≤ computedId w;
  rg_effectId : be ≤ effectId w;
  rg_refs : currentRefs w = Some (seq br (refId w - br));
  rg_computes : ∃ lc, currentComputes w = Some lc ∧
                      lc ++ pc ≡ₚ seq bc (computedId w - bc);
  rg_effects : ∃ le, currentEffects w = Some le ∧
                     le ++ pe ≡ₚ seq be (effectId w - be)
}.

(** ** Between two host steps *)

(** An array that is null stays null. *)
Definition stays_null {A} (f : World → option A) : relation World :=
  λ w w', f w = None → f w' = None.

(** Nothing is being collected that was not before. *)
Definition keeps_unregistered : relation World :=
  λ w w', stays_null currentRefs w w' ∧ stays_null currentComputes w w' ∧
          stays_null currentEffects w w'.

(** No capture is current and nothing is being collected. *)
Definition idle (w : World) : Prop :=
  currentCapture w = None ∧ currentRefs w = None ∧
  currentComputes w = None ∧ currentEffects w = None.

(** ** The order of recomputation *)

Definition is_effect (l : listener) : Prop :=
  match l with
  | LEffect _ => True
  | LComputed _ => False
  end.

(** The nodes the scheduler recomputed in a stretch of the log, in order. *)
Definition updates_of (t : list event) : list listener :=
  omap (λ ev, match ev with EvUpdate l => Some l | _ => None end) t.

(** ** What a capture records *)

(** A read of [node] is logged in [t]. *)
Definition was_read (node : source) (t : list event) : Prop :=
  ∃ v, EvGet node v ∈ t.

(** From [w] to [w'] the log grew, and whatever a capture lists in [w']
    as read it listed in [w] already, or the read is in the new stretch of
    the log. *)
Definition tracked : relation World :=
  λ w w', ∃ t, trace w' = trace w ++ t ∧
    ∀ cap c' node, captures w' !! cap = Some c' → node ∈ _getters c' →
      was_read node t ∨ ∃ c, captures w !! cap = Some c ∧ node ∈ _getters c.

(** ** The round that follows a write *)

(** [l._update()] gets as far as calling [l]'s function unless a cleanup
    throws: [l] is a derived signal, or an effect that is not deleted. *)
Definition callable (w : World) (l : listener) : Prop :=
  match l with
  | LComputed c => is_Some (computeds w !! c)
  | LEffect e => ∃ this, effects w !! e = Some this ∧ e_deleted this = false
  end.

Definition keeps_callable : relation World :=
  λ w w', ∀ l, callable w l → callable w' l.


(** The dirty set lists no leaf twice. *)
Definition keeps_nodup : relation World :=
  λ w w', NoDup (dirtyStates w) → NoDup (dirtyStates w').
(** * Properties *)

(** ** The construction guard *)

Lemma strict_eq_true a b : strict_eq a b = true → a = b.
Proof. destruct a; simpl; try done; by intros ?%bool_decide_eq_true. Qed.

Lemma strict_eq_ne a b : a ≠ b → strict_eq a b = false.
Proof. intros H. destruct a; simpl; try done; by apply bool_decide_eq_false_2. Qed.


Lemma assertRecursive_none name w :
  recursive w = None → assertRecursive name w = (Ok tt, w).
Proof. intros H. unfold assertRecursive, bind, gets. simpl. by rewrite H. Qed.

Lemma assertRecursive_effect_in_effect w :
  recursive w = Some MEffect → assertRecursive "effect" w = (Ok tt, w).
Proof. intros H. unfold assertRecursive, bind, gets. simpl. by rewrite H. Qed.

Lemma assertRecursive_throws name m w :
  recursive w = Some m →
  ¬ (name = "effect" ∧ m = MEffect) →
  assertRecursive name w =
    (Err (TypeError ("Cannot construct " +:+ name +:+ " inside " +:+ mode_name m)), w).
Proof.
  intros H Hne. unfold assertRecursive, bind, gets. simpl. rewrite H.
  destruct (bool_decide (name = "effect")) eqn:E1;
    destruct (bool_decide (m = MEffect)) eqn:E2; simpl; try done.
  apply bool_decide_eq_true in E1, E2. tauto.
Qed.

(** The guard lets an effect through unless a derived signal is being
    constructed. *)
Lemma assertRecursive_effect_ok w :
  recursive w ≠ Some MComputed → assertRecursive "effect" w = (Ok tt, w).
Proof.
  intros H. destruct (recursive w) as [[]|] eqn:E; try done.
  - by apply assertRecursive_effect_in_effect.
  - by apply assertRecursive_none.
Qed.

(** A derived signal or a leaf constructed first thing in an effect's
    function: the constructor of the effect has set the mode to "effect",
    and the guard of the inner constructor throws. *)
Lemma leaf_in_effect_throws :
  fst (run Scenario.leaf_in_effect initial)
  = Err (TypeError "Cannot construct ref inside effect").
Proof. reflexivity. Qed.

Lemma derived_in_effect_throws :
  fst (run Scenario.derived_in_effect initial)
  = Err (TypeError "Cannot construct computed inside effect").
Proof. reflexivity. Qed.

(** ** Reasoning in the monad *)

Lemma bind_mret {A B} (a : A) (f : A → M B) w : bind (mret a) f w = f a w.
Proof. reflexivity. Qed.
Lemma bind_throw {A B} e (f : A → M B) w : bind (throw e) f w = (Err e, w).
Proof. reflexivity. Qed.
Lemma bind_gets {A B} (g : World → A) (f : A → M B) w :
  bind (gets g) f w = f (g w) w.
Proof. reflexivity. Qed.
Lemma bind_modify {B} (g : World → World) (f : unit → M B) w :
  bind (modify g) f w = f tt (g w).
Proof. reflexivity. Qed.
Lemma bind_assoc {A B C} (m : M A) (f : A → M B) (g : B → M C) w :
  bind (bind m f) g w = bind m (λ a, bind (f a) g) w.
Proof. unfold bind. by destruct (m w) as [[a|e] w']. Qed.
Lemma bind_ok {A B} (m : M A) (f : A → M B) w a w' :
  m w = (Ok a, w') → bind m f w = f a w'.
Proof. unfold bind. by intros ->. Qed.
Lemma bind_err {A B} (m : M A) (f : A → M B) w e w' :
  m w = (Err e, w') → bind m f w = (Err e, w').
Proof. unfold bind. by intros ->. Qed.

(** ** Composing steps that respect a relation *)

Section Respects.
Context (R : relation World) `{!PreOrder R}.

Lemma respects_pure {A} (m : M A) : (∀ w, snd (m w) = w) → respects R m.
Proof. intros H w. by rewrite H. Qed.

Lemma respects_mret {A} (a : A) : respects R (mret a).
Proof. by apply respects_pure. Qed.

Lemma respects_throw {A} e : respects R (@throw A e).
Proof. by apply respects_pure. Qed.

Lemma respects_gets {A} (g : World → A) : respects R (gets g).
Proof. by apply respects_pure. Qed.

Lemma respects_modify g : (∀ w, R w (g w)) → respects R (modify g).
Proof. intros H w. apply H. Qed.

Lemma respects_bind {A B} (m : M A) (f : A → M B) :
  respects R m → (∀ a, respects R (f a)) → respects R (bind m f).
Proof.
  intros Hm Hf w. unfold bind. specialize (Hm w).
  destruct (m w) as [[a|e] w']; simpl in *; [|done].
  by etrans; [|apply Hf].
Qed.

Lemma respects_finally {A} (m : M A) g :
  respects R m → (∀ w, R w (g w)) → respects R (finally m g).
Proof.
  intros Hm Hg w. unfold finally. specialize (Hm w).
  destruct (m w) as [r w']; simpl in *. by etrans.
Qed.

Lemma respects_the_ref r : respects R (the_ref r).
Proof. apply respects_pure. intros w. unfold the_ref. by destruct (refs w !! r). Qed.
Lemma respects_the_computed c : respects R (the_computed c).
Proof.
  apply respects_pure. intros w. unfold the_computed. by destruct (computeds w !! c).
Qed.
Lemma respects_the_effect e : respects R (the_effect e).
Proof.
  apply respects_pure. intros w. unfold the_effect. by destruct (effects w !! e).
Qed.
Lemma respects_the_capture c : respects R (the_capture c).
Proof.
  apply respects_pure. intros w. unfold the_capture. by destruct (captures w !! c).
Qed.
Lemma respects_assertRecursive name : respects R (assertRecursive name).
Proof.
  apply respects_pure. intros w. unfold assertRecursive, bind, gets. simpl.
  destruct (recursive w); [|done]. by case_match.
Qed.

End Respects.

(** Splitting an operation into its steps. *)
Ltac respects_step :=
  lazymatch goal with
  | |- respects _ (bind _ _) => apply respects_bind; [try apply _| | intros ?]
  | |- respects _ (mret _) => apply respects_mret; try apply _
  | |- respects _ (throw _) => apply respects_throw; try apply _
  | |- respects _ (gets _) => apply respects_gets; try apply _
  | |- respects _ (the_ref _) => apply respects_the_ref; try apply _
  | |- respects _ (the_computed _) => apply respects_the_computed; try apply _
  | |- respects _ (the_effect _) => apply respects_the_effect; try apply _
  | |- respects _ (the_capture _) => apply respects_the_capture; try apply _
  | |- respects _ (assertRecursive _) => apply respects_assertRecursive; try apply _
  | |- respects _ (finally _ _) => apply respects_finally; [try apply _| | intros ?]
  | |- respects _ (modify _) => apply respects_modify; intros ?
  | |- respects _ (if ?b then _ else _) => destruct b
  | |- respects _ (match ?o with Some _ => _ | None => _ end) => destruct o
  end.

Lemma run_respects R `{!Frame R} {k} (p : prog k) : respects R (run p).
Proof.
  induction p; simpl.
  - apply respects_mret, _.
  - apply respects_mret, _.
  - apply respects_mret, _.
  - apply respects_throw, _.
  - apply respects_bind; [apply _|apply frame_get_ref|done].
  - apply respects_bind; [apply _|apply frame_set_ref|done].
  - apply respects_bind; [apply _|apply frame_get_computed|done].
  - apply respects_bind; [apply _|apply frame_ref|done].
  - apply respects_bind; [apply _|by apply frame_computed|done].
  - apply respects_bind; [apply _|by apply frame_effect|done].
  - apply respects_bind; [apply _|by apply frame_collect|done].
Qed.

Lemma respects_runCapture R `{!PreOrder R} {A} (fn : M A) cap :
  (∀ w c, R w (set_currentCapture c w)) →
  respects R fn → respects R (runCapture fn cap).
Proof.
  intros Hc Hfn. unfold runCapture.
  repeat (respects_step; try done).
Qed.

Lemma foldl_rel R `{!PreOrder R} {B} (f : World → B → World) (l : list B) :
  (∀ w b, R w (f w b)) → ∀ w, R w (foldl f w l).
Proof.
  intros Hf. induction l as [|b l IH]; intros w; simpl; [done|].
  etrans; [apply (Hf w b)|apply IH].
Qed.

Lemma respects_link R `{!PreOrder R} this cap :
  (∀ w node, R w (listeners_add this node w)) →
  (∀ w, R w (log (EvLink this) w)) →
  respects R (link this cap).
Proof.
  intros H1 H2. unfold link, emit. repeat (respects_step; try done).
  by apply (foldl_rel R).
Qed.

Lemma respects_unlink R `{!PreOrder R} this cap :
  (∀ w node, R w (listeners_delete this node w)) →
  (∀ w, R w (log (EvUnlink this) w)) →
  respects R (unlink this cap).
Proof.
  intros H1 H2. unfold unlink, emit. repeat (respects_step; try done).
  by apply (foldl_rel R).
Qed.

Ltac respects_with tac :=
  repeat first
    [ assumption
    | tac
    | respects_step
    | apply respects_runCapture; [apply _ | intros ? ? | ]
    | apply respects_link; [apply _ | intros ? ? | intros ? ]
    | apply respects_unlink; [apply _ | intros ? ? | intros ? ] ].

Ltac respects_auto := respects_with fail.

Ltac run_frame R :=
  first [ apply (run_respects R (k:=KEff)) | apply (run_respects R (k:=KVal)) ].

Ltac destruct_source :=
  match goal with n : source |- _ => destruct n end.

(** ** The current capture is restored on every exit *)

#[local] Instance same_capture_preorder : PreOrder same_capture.
Proof.
  split; [done|]. intros x y z H1 H2. unfold same_capture in *. congruence.
Qed.

(** [runCapture] puts back the capture it found, whatever [fn] does and
    whether [fn] returns or throws. *)
Lemma runCapture_restores {A} (fn : M A) cap :
  respects same_capture (runCapture fn cap).
Proof.
  intros w. unfold runCapture, bind, gets, modify, finally. simpl.
  by destruct (fn _).
Qed.

#[local] Instance same_capture_frame : Frame same_capture.
Proof.
  split; [apply _|..]; intros.
  - unfold RefState_get_value, capture_get, emit. respects_auto; [|done].
    unfold same_capture. by case_match.
  - unfold RefState_set_value, capture_set, alter_ref, enqueueUpdate.
    respects_auto; try done. unfold same_capture. by case_match.
  - unfold ComputedState_get_value, capture_get, emit. respects_auto; [|done].
    unfold same_capture. by case_match.
  - unfold ref, RefState_constructor. respects_auto; done.
  - unfold computed, ComputedState_constructor, new_Capture, emit.
    respects_with ltac:(apply runCapture_restores); try done.
    by destruct_source.
  - unfold effect, EffectState_constructor, new_Capture, emit.
    respects_with ltac:(apply runCapture_restores); try done.
    by destruct_source.
  - unfold collect. respects_auto; done.
Qed.

(** Every client closure leaves the current capture as it found it. *)
Lemma run_restores_capture {k} (p : prog k) w :
  currentCapture (snd (run p w)) = currentCapture w.
Proof. apply (run_respects same_capture). Qed.

(** ** What a client closure logs *)

#[local] Instance trace_ext_preorder P : PreOrder (trace_ext P).
Proof.
  split.
  - intros w. exists []. by rewrite app_nil_r.
  - intros x y z (t1 & H1 & F1) (t2 & H2 & F2). exists (t1 ++ t2).
    rewrite H2, H1, app_assoc. split; [done|]. by apply Forall_app.
Qed.

Lemma trace_ext_same P w w' : trace w' = trace w → trace_ext P w w'.
Proof. intros H. exists []. by rewrite app_nil_r. Qed.

Lemma trace_ext_emit P w ev : P ev → trace_ext P w (log ev w).
Proof. intros H. exists [ev]. split; [done|]. by constructor. Qed.

Lemma trace_ext_weaken (P Q : event → Prop) w w' :
  (∀ ev, P ev → Q ev) → trace_ext P w w' → trace_ext Q w w'.
Proof.
  intros H (t & Ht & F). exists t. split; [done|].
  eapply Forall_impl; [exact F|done].
Qed.

Ltac trace_atom :=
  first
    [ by apply trace_ext_emit
    | apply trace_ext_same; try destruct_source; simpl; repeat case_match; done ].

#[local] Instance trace_ext_frame (P : event → Prop) :
  (∀ ev, construction_event ev → P ev) → Frame (trace_ext P).
Proof.
  intros HP.
  split; [apply _|..]; intros.
  - unfold RefState_get_value, capture_get, emit.
    respects_auto; try trace_atom; apply trace_ext_emit, HP; done.
  - unfold RefState_set_value, capture_set, alter_ref, enqueueUpdate.
    respects_auto; trace_atom.
  - unfold ComputedState_get_value, capture_get, emit.
    respects_auto; try trace_atom; apply trace_ext_emit, HP; done.
  - unfold ref, RefState_constructor. respects_auto; trace_atom.
  - unfold computed, ComputedState_constructor, new_Capture, emit.
    respects_auto; try trace_atom; apply trace_ext_emit, HP; done.
  - unfold effect, EffectState_constructor, new_Capture, emit.
    respects_auto; try trace_atom; apply trace_ext_emit, HP; done.
  - unfold collect. respects_auto; trace_atom.
Qed.

(** A client closure logs construction events only: it never enters a
    cleanup, commits a leaf or recomputes a node. *)
Lemma run_trace {k} (p : prog k) w :
  ∃ t, trace (snd (run p w)) = trace w ++ t ∧ Forall construction_event t.
Proof.
  pose proof (trace_ext_frame construction_event (λ _ H, H)).
  apply (run_respects (trace_ext construction_event) p w).
Qed.

(** ** Committed values are out of a client closure's reach *)

#[local] Instance keeps_refs_preorder : PreOrder keeps_refs.
Proof.
  split.
  - intros w. split; [done|]. intros r this _ H. by exists this.
  - intros x y z [L1 H1] [L2 H2]. split; [lia|].
    intros r this Hr Hx. destruct (H1 r this Hr Hx) as (this1 & Hy & E1 & E2).
    destruct (H2 r this1 ltac:(lia) Hy) as (this2 & Hz & E3 & E4).
    exists this2. split; [done|]. split; congruence.
Qed.

Lemma keeps_refs_same w w' :
  refId w' = refId w → refs w' = refs w → keeps_refs w w'.
Proof.
  intros H1 H2. split; [lia|]. intros r this _ H. exists this. by rewrite H2.
Qed.

Lemma keeps_refs_alter (f : RefState → RefState) r w :
  (∀ o, r_state (f o) = r_state o ∧ r_old (f o) = r_old o) →
  keeps_refs w (set_refs (alter f r (refs w)) w).
Proof.
  intros Hf. split; [done|]. intros r' this _ H. simpl.
  destruct (decide (r = r')) as [->|Hne].
  - exists (f this). rewrite lookup_alter_eq, H. split; [done|]. apply Hf.
  - exists this. by rewrite lookup_alter_ne.
Qed.

Lemma keeps_refs_listeners_add l node w : keeps_refs w (listeners_add l node w).
Proof.
  destruct node; simpl; [by apply keeps_refs_alter|by apply keeps_refs_same].
Qed.

Lemma keeps_refs_listeners_delete l node w :
  keeps_refs w (listeners_delete l node w).
Proof.
  destruct node; simpl; [by apply keeps_refs_alter|by apply keeps_refs_same].
Qed.

Lemma keeps_refs_constructor init : respects keeps_refs (RefState_constructor init).
Proof.
  intros w. unfold RefState_constructor, assertRecursive, bind, gets. simpl.
  assert (keeps_refs w
    (set_refs (<[refId w:=mkRefState init init init (refId w) []]> (refs w))
       (set_refId (S (refId w)) w))).
  { split; [simpl; lia|]. intros r this Hr H. exists this. simpl.
    rewrite lookup_insert_ne; [done|lia]. }
  destruct (recursive w); simpl; [reflexivity|done].
Qed.

Ltac refs_atom :=
  first
    [ apply keeps_refs_listeners_add
    | apply keeps_refs_listeners_delete
    | by apply keeps_refs_alter
    | apply keeps_refs_same; simpl; repeat case_match; done ].

#[local] Instance keeps_refs_frame : Frame keeps_refs.
Proof.
  split; [apply _|..]; intros.
  - unfold RefState_get_value, capture_get, emit. respects_auto; refs_atom.
  - unfold RefState_set_value, capture_set, alter_ref, enqueueUpdate.
    respects_auto; refs_atom.
  - unfold ComputedState_get_value, capture_get, emit. respects_auto; refs_atom.
  - unfold ref. respects_with ltac:(apply keeps_refs_constructor); refs_atom.
  - unfold computed, ComputedState_constructor, new_Capture, emit.
    respects_auto; refs_atom.
  - unfold effect, EffectState_constructor, new_Capture, emit.
    respects_auto; refs_atom.
  - unfold collect. respects_auto; refs_atom.
Qed.

(** ** Writing a leaf *)



(** ** Committing the dirty leaves *)

Lemma RefState_update_unchanged r w this :
  refs w !! r = Some this → strict_eq (r_state this) (r_pending this) = true →
  RefState_update r w = (Ok false, w).
Proof.
  intros Hr He. unfold RefState_update, the_ref, bind. rewrite Hr.
  by rewrite He.
Qed.

Lemma RefState_update_changed r w this :
  refs w !! r = Some this → strict_eq (r_state this) (r_pending this) = false →
  RefState_update r w
  = (Ok true,
     set_trace (trace w ++ [EvCommit r (r_state this) (r_pending this)])
       (set_refs (alter r_commit r (refs w)) w)).
Proof.
  intros Hr He. unfold RefState_update, the_ref, bind. rewrite Hr.
  by rewrite He.
Qed.


(** The commit loop cannot throw when the dirty leaves exist and it logs
    commits only.  A dirty leaf ends with its pending value committed, any
    other leaf as it was.  When the dirty set lists no leaf twice, leaf [r]
    is committed exactly when it is dirty and its pending value is not
    strictly equal to the committed one, and then once. *)
Lemma commitDirty_ref r dirty : ∀ queue w this,
  Forall (λ r', is_Some (refs w !! r')) dirty →
  refs w !! r = Some this →
  ∃ queue' w' t, commitDirty dirty queue w = (Ok queue', w') ∧
    trace w' = trace w ++ t ∧ Forall is_commit t ∧ refId w' = refId w ∧
    dirtyStates w' = dirtyStates w ∧
    (∃ this', refs w' !! r = Some this' ∧
       r_pending this' = r_pending this ∧
       r_listeners this' = r_listeners this ∧
       r_state this' = if decide (r ∈ dirty) then r_pending this
                       else r_state this) ∧
    (NoDup dirty →
     if decide (r ∈ dirty ∧ strict_eq (r_state this) (r_pending this) = false)
     then refs w' !! r = Some (r_commit this) ∧
          commits_of r t = [EvCommit r (r_state this) (r_pending this)]
     else refs w' !! r = Some this ∧ commits_of r t = []).
Proof.
  induction dirty as [|r0 rest IH]; intros queue w this Hall Hr.
  - exists queue, w, []. simpl. rewrite app_nil_r.
    split_and!; try done. by exists this.
  - apply Forall_cons in Hall as [[this0 H0] Hall]. simpl.
    destruct (strict_eq (r_state this0) (r_pending this0)) eqn:He.
    + unfold bind at 1. rewrite (RefState_update_unchanged _ _ _ H0 He).
      destruct (IH queue w this Hall Hr)
        as (q' & w' & t & Hc & Ht & Hf & Hid & Hd & Hgen & Hres).
      exists q', w', t. split_and!; try done.
      * destruct Hgen as (this' & G1 & G2 & G3 & G4).
        exists this'. split_and!; try done. rewrite G4.
        destruct (decide (r ∈ rest)) as [Hin|Hn].
        -- rewrite decide_True; [done|by right].
        -- destruct (decide (r = r0)) as [->|Hrr].
           ++ rewrite decide_True by by left.
              assert (this0 = this) as -> by congruence.
              by apply strict_eq_true.
           ++ rewrite decide_False; [done|].
              intros [?|?]%elem_of_cons; done.
      * intros [Hr0 Hnd]%NoDup_cons. specialize (Hres Hnd).
        destruct (decide (r ∈ rest ∧ strict_eq (r_state this) (r_pending this) = false))
          as [[Hin Hp]|Hn].
        -- rewrite decide_True; [done|]. split; [by right|done].
        -- rewrite decide_False; [done|]. intros [Hin Hp].
           apply elem_of_cons in Hin as [->|Hin]; [|tauto]. congruence.
    + unfold bind at 1. rewrite (RefState_update_changed _ _ _ H0 He).
      set (w1 := set_trace _ _).
      assert (H01 : refs w1 !! r0 = Some (r_commit this0)).
      { subst w1. simpl. by rewrite lookup_alter_eq, H0. }
      unfold bind at 1. unfold the_ref at 1. rewrite H01.
      assert (Hall1 : Forall (λ r', is_Some (refs w1 !! r')) rest).
      { eapply Forall_impl; [exact Hall|]. intros r' [o Ho]. subst w1. simpl.
        destruct (decide (r0 = r')) as [->|]; [by rewrite lookup_alter_eq, Ho|].
        by rewrite lookup_alter_ne, Ho. }
      destruct (decide (r = r0)) as [->|Hrr].
      * assert (this0 = this) as -> by congruence.
        destruct (IH (queue ++ r_listeners (r_commit this)) w1 _ Hall1 H01)
          as (q' & w' & t & Hc & Ht & Hf & Hid & Hd & Hgen & Hres).
        exists q', w', (EvCommit r0 (r_state this) (r_pending this) :: t).
        split_and!; try done.
        -- rewrite Ht. subst w1. simpl. by rewrite <- app_assoc.
        -- by constructor.
        -- destruct Hgen as (this' & G1 & G2 & G3 & G4).
           exists this'. split_and!; try done.
           rewrite decide_True by by left.
           rewrite G4. by destruct (decide (r0 ∈ rest)).
        -- intros [Hr0 Hnd]%NoDup_cons. specialize (Hres Hnd).
           rewrite decide_False in Hres by tauto.
           destruct Hres as [Hres1 Hres2].
           rewrite decide_True by (split; [by left|done]).
           split; [done|]. unfold commits_of in *. rewrite filter_cons_True by done.
           by rewrite Hres2.
      * assert (Hr1 : refs w1 !! r = Some this).
        { subst w1. simpl. by rewrite lookup_alter_ne. }
        destruct (IH (queue ++ r_listeners (r_commit this0)) w1 _ Hall1 Hr1)
          as (q' & w' & t & Hc & Ht & Hf & Hid & Hd & Hgen & Hres).
        exists q', w', (EvCommit r0 (r_state this0) (r_pending this0) :: t).
        split_and!; try done.
        -- rewrite Ht. subst w1. simpl. by rewrite <- app_assoc.
        -- by constructor.
        -- destruct Hgen as (this' & G1 & G2 & G3 & G4).
           exists this'. split_and!; try done. rewrite G4.
           destruct (decide (r ∈ rest)) as [Hin|Hn].
           ++ rewrite decide_True; [done|by right].
           ++ rewrite decide_False; [done|]. intros [?|?]%elem_of_cons; done.
        -- intros [Hr0 Hnd]%NoDup_cons. specialize (Hres Hnd).
           unfold commits_of in *. rewrite filter_cons_False by (simpl; congruence).
           destruct (decide (r ∈ rest ∧ strict_eq (r_state this) (r_pending this) = false))
             as [[Hin Hp]|Hn].
           ++ rewrite decide_True; [done|]. split; [by right|done].
           ++ rewrite decide_False; [done|]. intros [Hin Hp].
              apply elem_of_cons in Hin as [->|Hin]; [done|tauto].
Qed.

(** ** Relations respected by recomputation and by the scheduler *)

Lemma keeps_refs_listener_update l : respects keeps_refs (listener_update l).
Proof.
  destruct l as [c|e]; simpl.
  - unfold ComputedState_update, new_Capture, alter_computed, emit.
    respects_with ltac:(apply (run_respects keeps_refs)); refs_atom.
  - unfold EffectState_update, call_clear, new_Capture, alter_effect, emit.
    respects_with ltac:(apply (run_respects keeps_refs)); refs_atom.
Qed.

Lemma drainQueue_rel R `{!PreOrder R} :
  (∀ l, respects R (listener_update l)) →
  (∀ w l, R w (log (EvUpdate l) w)) →
  ∀ fuel queue w res w',
    drainQueue fuel queue w = Some (res, w') → R w w'.
Proof.
  intros Hu He. induction fuel as [|fuel IH]; intros queue w res w'; simpl.
  - destruct (array_pop queue) as [[node q]|]; [done|]. by intros [= _ <-].
  - destruct (array_pop queue) as [[node q]|]; [|by intros [= _ <-]].
    unfold bind, emit, modify. simpl.
    pose proof (Hu node (log (EvUpdate node) w)) as H1.
    pose proof (He w node) as H0.
    destruct (listener_update node _) as [[changed|e] w1]; simpl in *.
    + destruct changed; intros H%IH; by repeat (etrans; [eassumption|]).
    + intros [= _ <-]. by etrans.
Qed.

(** ** What is read of a leaf between two commits *)

Section HoldsValue.
Context (r : nat) (b : value).

#[local] Instance holds_value_preorder : PreOrder (holds_value r b).
Proof.
  split.
  - intros w [H1 H2]. split_and!; [done..|]. exists []. by rewrite app_nil_r.
  - intros x y z Hxy Hyz Hx.
    destruct (Hxy Hx) as (L1 & S1 & t1 & T1 & F1).
    destruct (Hyz (conj L1 S1)) as (L2 & S2 & t2 & T2 & F2).
    split_and!; [done..|]. exists (t1 ++ t2).
    rewrite T2, T1, app_assoc. split; [done|]. by apply Forall_app.
Qed.

Lemma holds_value_same w w' :
  refId w' = refId w → refs w' = refs w → trace w' = trace w →
  holds_value r b w w'.
Proof.
  intros H1 H2 H3 [L S]. unfold state_of in *. rewrite H1, H2, H3.
  split_and!; [done..|]. exists []. by rewrite app_nil_r.
Qed.

Lemma holds_value_emit w ev :
  reads_give r b ev → holds_value r b w (log ev w).
Proof.
  intros H [L S]. split_and!; [done..|]. exists [ev]. split; [done|].
  by constructor.
Qed.

Lemma holds_value_alter (f : RefState → RefState) r' w :
  (∀ o, r_state (f o) = r_state o) →
  holds_value r b w (set_refs (alter f r' (refs w)) w).
Proof.
  intros Hf [L S]. unfold state_of in *. simpl. split_and!; [done| |].
  - destruct (decide (r' = r)) as [->|Hne].
    + rewrite lookup_alter_eq. destruct (refs w !! r); [|done]. simpl in *.
      by rewrite Hf.
    + by rewrite lookup_alter_ne.
  - exists []. by rewrite app_nil_r.
Qed.

Lemma holds_value_listeners_add l node w :
  holds_value r b w (listeners_add l node w).
Proof.
  destruct node; simpl; [by apply holds_value_alter|by apply holds_value_same].
Qed.

Lemma holds_value_listeners_delete l node w :
  holds_value r b w (listeners_delete l node w).
Proof.
  destruct node; simpl; [by apply holds_value_alter|by apply holds_value_same].
Qed.

Lemma holds_value_constructor init :
  respects (holds_value r b) (RefState_constructor init).
Proof.
  intros w. unfold RefState_constructor, assertRecursive, bind, gets. simpl.
  assert (holds_value r b w
    (set_refs (<[refId w:=mkRefState init init init (refId w) []]> (refs w))
       (set_refId (S (refId w)) w))).
  { intros [L S]. unfold state_of in *. simpl. split_and!; [lia| |].
    - rewrite lookup_insert_ne; [done|lia].
    - exists []. by rewrite app_nil_r. }
  destruct (recursive w); simpl; [reflexivity|done].
Qed.

Lemma holds_value_get r' : respects (holds_value r b) (RefState_get_value r').
Proof.
  intros w. unfold RefState_get_value, the_ref, capture_get, emit, bind, modify.
  destruct (refs w !! r') as [this|] eqn:Hr'; simpl; [|reflexivity].
  set (w1 := match currentCapture w with Some _ => _ | None => _ end).
  assert (Hw1 : refs w1 = refs w ∧ refId w1 = refId w ∧ trace w1 = trace w).
  { subst w1. by destruct (currentCapture w). }
  destruct Hw1 as (E1 & E2 & E3). rewrite E1, Hr'. simpl.
  intros [L S]. unfold state_of in *. simpl. rewrite E1, E2, E3.
  split_and!; [done..|]. exists [EvGet (SRef r') (r_state this)].
  split; [done|]. constructor; [|done]. simpl. intros ->.
  rewrite Hr' in S. simpl in S. congruence.
Qed.

Ltac hv_atom :=
  first
    [ apply holds_value_listeners_add
    | apply holds_value_listeners_delete
    | by apply holds_value_alter
    | by apply holds_value_emit
    | apply holds_value_same; simpl; repeat case_match; done ].

#[local] Instance holds_value_frame : Frame (holds_value r b).
Proof.
  split; [apply _|..]; intros.
  - apply holds_value_get.
  - unfold RefState_set_value, capture_set, alter_ref, enqueueUpdate.
    respects_auto; hv_atom.
  - unfold ComputedState_get_value, capture_get, emit. respects_auto; hv_atom.
  - unfold ref. respects_with ltac:(apply holds_value_constructor); hv_atom.
  - unfold computed, ComputedState_constructor, new_Capture, emit.
    respects_auto; hv_atom.
  - unfold effect, EffectState_constructor, new_Capture, emit.
    respects_auto; hv_atom.
  - unfold collect. respects_auto; hv_atom.
Qed.

Lemma holds_value_listener_update l :
  respects (holds_value r b) (listener_update l).
Proof.
  destruct l as [c|e]; simpl.
  - unfold ComputedState_update, new_Capture, alter_computed, emit.
    respects_with ltac:(apply (run_respects (holds_value r b))); hv_atom.
  - unfold EffectState_update, call_clear, new_Capture, alter_effect, emit.
    respects_with ltac:(apply (run_respects (holds_value r b))); hv_atom.
Qed.

(** Draining the queue: whatever is recomputed reads [b] from [r], and
    nothing commits [r]. *)
Lemma drainQueue_holds_value fuel queue w res w' :
  drainQueue fuel queue w = Some (res, w') → holds_value r b w w'.
Proof.
  apply drainQueue_rel; [apply _|apply holds_value_listener_update|].
  intros w0 l. by apply holds_value_emit.
Qed.

Lemma run_holds_value {k} (p : prog k) : respects (holds_value r b) (run p).
Proof. apply (run_respects (holds_value r b)). Qed.

End HoldsValue.





Lemma elem_of_set_add {A} `{EqDecision A} (x y : A) s :
  x ∈ set_add y s ↔ x = y ∨ x ∈ s.
Proof.
  unfold set_add. case_decide.
  - split; [tauto|]. by intros [->|].
  - rewrite elem_of_app, list_elem_of_singleton. tauto.
Qed.

Lemma dirty_allocated_write r v w w' this :
  dirty_allocated w → refs w !! r = Some this →
  refs w' = <[r := r_set_pending v this]> (refs w) →
  dirtyStates w' = set_add r (dirtyStates w) →
  dirty_allocated w'.
Proof.
  unfold dirty_allocated. intros Hd Hr E1 E2. rewrite E1, E2.
  apply Forall_forall. intros x [->|Hx]%elem_of_set_add.
  - by rewrite lookup_insert_eq.
  - rewrite Forall_forall in Hd. destruct (decide (r = x)) as [->|].
    + by rewrite lookup_insert_eq.
    + rewrite lookup_insert_ne by done. by apply Hd.
Qed.

(** ** C8: what the guard does in mode "effect" *)

#[local] Instance trace_grows_preorder : PreOrder trace_grows.
Proof. apply _. Qed.

#[local] Instance trace_grows_frame : Frame trace_grows.
Proof. by apply trace_ext_frame. Qed.

(** What is in the log stays in the log. *)
Lemma trace_grows_elem w w' ev : trace_grows w w' → ev ∈ trace w → ev ∈ trace w'.
Proof. intros (t & -> & _) H. apply elem_of_app. by left. Qed.

Lemma trace_grows_bind {A B} (m : M A) (f : A → M B) w ev :
  ev ∈ trace (snd (m w)) → (∀ a, respects trace_grows (f a)) →
  ev ∈ trace (snd (bind m f w)).
Proof.
  intros H Hf. unfold bind. destruct (m w) as [[a|e] w']; [|done].
  by eapply trace_grows_elem; [apply Hf|].
Qed.

(** C8, as stated, fails: an effect whose function constructs a leaf
    signal does not construct successfully; the leaf's constructor throws
    the reentrancy error and the effect's constructor passes it on. *)
Lemma leaf_in_effect_not_permitted :
  ¬ (∃ r, fst (run Scenario.leaf_in_effect initial) = Ok r).
Proof. intros [r Hr]. vm_compute in Hr. discriminate. Qed.

(** C8 (amended): while the evaluation mode is set, constructing a leaf
    or a derived signal throws a [TypeError] in either mode; constructing
    an effect passes the guard in mode "effect" and throws in mode
    "computed".  The constructor of an effect runs its function in mode
    "effect": a function that starts by constructing a leaf or a derived
    signal makes the constructor throw, one that starts by constructing
    an effect is run to its end. *)
Theorem construction_guard_by_mode (w : World) (m : mode) (w0 : World) :
  recursive w = Some m →
  recursive w0 ≠ Some MComputed →
  (∀ init, ref init w
     = (Err (TypeError ("Cannot construct ref inside " +:+ mode_name m)), w)) ∧
  (∀ fn call, computed fn call w
     = (Err (TypeError ("Cannot construct computed inside " +:+ mode_name m)), w)) ∧
  match m with
  | MEffect => assertRecursive "effect" w = (Ok tt, w)
  | MComputed =>
      ∀ fn call, effect fn call w
        = (Err (TypeError "Cannot construct effect inside computed"), w)
  end ∧
  (∀ init cont,
     fst (effect (NewRef init cont) (run (NewRef init cont)) w0)
     = Err (TypeError "Cannot construct ref inside effect")) ∧
  (∀ fn cont,
     fst (effect (NewComputed fn cont) (run (NewComputed fn cont)) w0)
     = Err (TypeError "Cannot construct computed inside effect")) ∧
  (∀ inner cont,
     EvCall (LEffect (S (effectId w0)))
     ∈ trace (snd (effect (NewEffect inner cont) (run (NewEffect inner cont)) w0))).
Proof.
  intros Hm H0.
  assert (G0 : assertRecursive "effect" w0 = (Ok tt, w0))
    by by apply assertRecursive_effect_ok.
  split_and!.
  - intros init. unfold ref, RefState_constructor, assertRecursive, bind, gets.
    simpl. rewrite Hm. by destruct m.
  - intros fn call.
    unfold computed, ComputedState_constructor, assertRecursive, bind, gets.
    simpl. rewrite Hm. by destruct m.
  - destruct m.
    + intros fn call.
      unfold effect, EffectState_constructor, assertRecursive, bind, gets.
      simpl. by rewrite Hm.
    + by apply assertRecursive_effect_in_effect.
  - intros init cont. unfold effect, EffectState_constructor.
    rewrite bind_assoc, (bind_ok _ _ _ _ _ G0). reflexivity.
  - intros fn cont. unfold effect, EffectState_constructor.
    rewrite bind_assoc, (bind_ok _ _ _ _ _ G0). reflexivity.
  - intros inner cont. unfold effect.
    apply trace_grows_bind; [|intros; respects_auto; trace_atom].
    unfold EffectState_constructor.
    rewrite (bind_ok _ _ _ _ _ G0). rewrite bind_gets, bind_modify.
    unfold new_Capture. rewrite bind_assoc, bind_gets, bind_assoc, bind_modify,
      bind_mret, bind_modify.
    unfold emit at 1. rewrite bind_modify.
    apply trace_grows_bind; [|intros; respects_auto; trace_atom].
    unfold runCapture. rewrite bind_gets, bind_modify. unfold finally.
    match goal with |- context [run ?p ?w] => set (w1 := w) end.
    assert (Em : recursive w1 = Some MEffect) by done.
    assert (Ei : effectId w1 = S (effectId w0)) by done.
    clearbody w1.
    destruct (run (NewEffect inner cont) w1) as [res w2] eqn:Hrun. simpl.
    replace w2 with (snd (run (NewEffect inner cont) w1)) by by rewrite Hrun.
    clear Hrun. simpl.
    apply trace_grows_bind; [|intros; apply (run_respects trace_grows (k:=KEff))].
    unfold effect.
    apply trace_grows_bind; [|intros; respects_auto; trace_atom].
    unfold EffectState_constructor.
    rewrite (bind_ok _ _ _ _ _ (assertRecursive_effect_in_effect _ Em)).
    rewrite bind_gets, bind_modify.
    unfold new_Capture. rewrite bind_assoc, bind_gets, bind_assoc, bind_modify,
      bind_mret, bind_modify.
    apply trace_grows_bind.
    + unfold emit, modify. simpl. rewrite Ei. apply elem_of_app. right. by left.
    + intros.
      respects_with ltac:(run_frame trace_grows); trace_atom.
Qed.

Lemma construction_guard_by_mode_witness :
  recursive (set_recursive (Some MEffect) initial) = Some MEffect ∧
  recursive initial ≠ Some MComputed ∧
  EvCall (LEffect 1)
  ∈ trace (snd (effect (NewEffect RetVoid RetVoid)
                  (run (NewEffect RetVoid RetVoid)) initial)).
Proof.
  split; [reflexivity|]. split; [discriminate|].
  apply (construction_guard_by_mode
           (set_recursive (Some MEffect) initial) MEffect initial);
    [reflexivity | discriminate].
Defined.

(** ** C6: the globals after a function that throws *)

(** C6 at [computed(() => { throw null })], called at top level: the
    exception reaches the caller with the current capture restored, and
    with the evaluation mode still "computed": the assignment
    [recursive = false] that follows [runCapture] in the constructor is not
    reached.  The next construction of a leaf then throws. *)
Theorem mode_survives_throw :
  let w := snd (run Scenario.throwing_computed initial) in
  fst (run Scenario.throwing_computed initial) = Err (UserError VNull) ∧
  currentCapture w = currentCapture initial ∧
  recursive initial = None ∧
  recursive w = Some MComputed ∧
  recursive (snd (run Scenario.throwing_effect initial)) = Some MEffect ∧
  fst (ref (VNum 1) w) = Err (TypeError "Cannot construct ref inside computed").
Proof. vm_compute. done. Qed.

(** ** C7: [collect] inside [collect] *)

(** C7 at a callback that calls [collect] between two [ref] calls: when
    the inner [collect] exits the three variables are [null], not the
    arrays of the enclosing [collect]; the second leaf is recorded nowhere
    and the enclosing [collect] returns [null] in place of its lists. *)
Theorem nested_collect_loses_target :
  let r := collect (run Scenario.nested_collect) initial in
  fst r = Ok (mkCollected VNull None None None) ∧
  refId (snd r) = 2 ∧
  fst (collect (run Scenario.flat_collect) initial)
  = Ok (mkCollected VNull (Some [0]) (Some [0]) (Some [])).
Proof. vm_compute. done. Qed.

(** ** C9: the guard when a derived signal is recomputed *)

(** C9 at a derived signal whose function constructs a leaf when its
    source is not [0]: constructed while the source holds [0], recomputed
    by the flush after [1] was written.  The recomputation constructs the
    leaf and returns; no error is thrown, since [_update] does not set the
    mode.  The same function run by the constructor throws. *)
Theorem leaf_constructed_on_recompute :
  let r := run Scenario.leaf_on_recompute initial in
  fst r = Ok VNull ∧ refId (snd r) = 1 ∧
  (∃ w, updateStates 3 (snd r) = Some (Ok tt, w) ∧ refId w = 2 ∧
        EvUpdate (LComputed 0) ∈ trace w) ∧
  fst (run Scenario.leaf_on_construct initial)
  = Err (TypeError "Cannot construct ref inside computed").
Proof.
  split_and!; [reflexivity..| |reflexivity].
  eexists. split_and!; [vm_compute; reflexivity|reflexivity|].
  vm_compute. apply list_elem_of_In. simpl. tauto.
Qed.

(** ** The constructors in two halves *)

Lemma ComputedState_constructor_halves fn call w :
  recursive w = None →
  ComputedState_constructor fn call w
  = match call (computed_entry w) with
    | (Ok state, w') =>
        computed_exit fn (computedId w) (captureId w) (currentCapture w) state w'
    | (Err e, w') => (Err e, set_currentCapture (currentCapture w) w')
    end.
Proof.
  intros Hrec. unfold ComputedState_constructor.
  rewrite (bind_ok _ _ _ _ _ (assertRecursive_none _ _ Hrec)).
  unfold computed_entry, computed_exit, new_Capture, runCapture, link, emit,
    the_capture, bind, gets, modify, finally, mret. simpl.
  destruct (call _) as [[state|e] w']; simpl; [|done].
  by destruct (captures w' !! captureId w).
Qed.

Lemma EffectState_constructor_halves fn call w :
  recursive w ≠ Some MComputed →
  EffectState_constructor fn call w
  = match call (effect_entry w) with
    | (Ok clear, w') =>
        effect_exit fn (effectId w) (captureId w) (currentCapture w) clear w'
    | (Err e, w') => (Err e, set_currentCapture (currentCapture w) w')
    end.
Proof.
  intros Hrec. unfold EffectState_constructor.
  rewrite (bind_ok _ _ _ _ _ (assertRecursive_effect_ok _ Hrec)).
  unfold effect_entry, effect_exit, new_Capture, runCapture, link, emit,
    the_capture, bind, gets, modify, finally, mret. simpl.
  destruct (call _) as [[state|e] w']; simpl; [|done].
  by destruct (captures w' !! captureId w).
Qed.

(** ** What a client closure can do to the heap *)

#[local] Instance extends_preorder : PreOrder extends.
Proof.
  split.
  - intros w. split; try done. intros cap capture _ H. by exists capture.
  - intros x y z [] []. split; try lia.
    + intros r Hr. rewrite ex_refs1 by lia. by apply ex_refs0.
    + intros c Hc. rewrite ex_computeds1 by lia. by apply ex_computeds0.
    + intros e He. rewrite ex_effects1 by lia. by apply ex_effects0.
    + intros cap capture Hc H.
      destruct (ex_captures0 _ _ Hc H) as (capture1 & H1 & S1).
      destruct (ex_captures1 cap capture1 ltac:(lia) H1) as (capture2 & H2 & S2).
      exists capture2. split; [done|]. by etrans.
Qed.

Lemma extends_same w w' :
  refId w' = refId w → computedId w' = computedId w →
  effectId w' = effectId w → captureId w' = captureId w →
  refs w' = refs w → computeds w' = computeds w →
  effects w' = effects w → captures w' = captures w →
  extends w w'.
Proof.
  intros E1 E2 E3 E4 E5 E6 E7 E8.
  split; rewrite ?E1, ?E2, ?E3, ?E4, ?E5, ?E6, ?E7, ?E8; try done.
  intros cap capture _ H. by exists capture.
Qed.

Lemma extends_alter_ref (f : RefState → RefState) r w :
  (∀ o, r_core (f o) = r_core o) →
  extends w (set_refs (alter f r (refs w)) w).
Proof.
  intros Hf. split; simpl; try done.
  - intros r' _. destruct (decide (r = r')) as [->|Hne].
    + rewrite lookup_alter_eq. destruct (refs w !! r'); simpl; [|done].
      by rewrite Hf.
    + by rewrite lookup_alter_ne.
  - intros cap capture _ H. by exists capture.
Qed.

Lemma extends_alter_computed (f : ComputedState → ComputedState) c w :
  (∀ o, c_core (f o) = c_core o) →
  extends w (set_computeds (alter f c (computeds w)) w).
Proof.
  intros Hf. split; simpl; try done.
  - intros c' _. destruct (decide (c = c')) as [->|Hne].
    + rewrite lookup_alter_eq. destruct (computeds w !! c'); simpl; [|done].
      by rewrite Hf.
    + by rewrite lookup_alter_ne.
  - intros cap capture _ H. by exists capture.
Qed.

Lemma extends_listeners_add l node w : extends w (listeners_add l node w).
Proof.
  destruct node; simpl; [by apply extends_alter_ref|by apply extends_alter_computed].
Qed.

Lemma extends_link_all l getters w : extends w (link_all l getters w).
Proof. apply (foldl_rel extends). intros. apply extends_listeners_add. Qed.

Lemma extends_alloc_capture w : extends w (alloc_capture w).
Proof.
  split; simpl; try done; [lia|].
  intros cap capture Hc H. exists capture. split; [|done].
  rewrite lookup_insert_ne; [done|lia].
Qed.

Lemma extends_alter_capture (f : Capture → Capture) cap w :
  (∀ o, _getters o ⊆ _getters (f o)) →
  extends w (set_captures (alter f cap (captures w)) w).
Proof.
  intros Hf. split; simpl; try done.
  intros cap' capture _ H. destruct (decide (cap = cap')) as [->|Hne].
  - exists (f capture). rewrite lookup_alter_eq, H. split; [done|]. apply Hf.
  - exists capture. by rewrite lookup_alter_ne.
Qed.

Lemma subseteq_set_add {A} `{EqDecision A} (x : A) s : s ⊆ set_add x s.
Proof. intros y Hy. apply elem_of_set_add. by right. Qed.

Lemma extends_capture_get node : respects extends (capture_get node).
Proof.
  intros w. unfold capture_get, modify. simpl.
  destruct (currentCapture w); [|done].
  apply extends_alter_capture. intros o. simpl. apply subseteq_set_add.
Qed.

Lemma extends_capture_set r : respects extends (capture_set r).
Proof.
  intros w. unfold capture_set, modify. simpl.
  destruct (currentCapture w); [|done].
  by apply extends_alter_capture.
Qed.

Lemma extends_RefState_constructor init :
  respects extends (RefState_constructor init).
Proof.
  intros w. unfold RefState_constructor, assertRecursive, bind, gets. simpl.
  assert (extends w
    (set_refs (<[refId w:=mkRefState init init init (refId w) []]> (refs w))
       (set_refId (S (refId w)) w))).
  { split; simpl; try done; [lia| |].
    - intros r Hr. rewrite lookup_insert_ne; [done|lia].
    - intros cap capture _ Hc. by exists capture. }
  destruct (recursive w); simpl; [reflexivity|done].
Qed.

Lemma extends_insert_computed w0 w id o :
  extends w0 w → computedId w0 ≤ id →
  extends w0 (set_computeds (<[id := o]> (computeds w)) w).
Proof.
  intros [] Hid. split; simpl; try done.
  intros c Hc. rewrite lookup_insert_ne by lia. by apply ex_computeds0.
Qed.

Lemma extends_insert_effect w0 w id o :
  extends w0 w → effectId w0 ≤ id →
  extends w0 (set_effects (<[id := o]> (effects w)) w).
Proof.
  intros [] Hid. split; simpl; try done.
  intros e He. rewrite lookup_insert_ne by lia. by apply ex_effects0.
Qed.

Ltac ext_atom :=
  first
    [ apply extends_listeners_add
    | apply extends_link_all
    | apply extends_alloc_capture
    | by apply extends_alter_ref
    | by apply extends_alter_computed
    | apply extends_same; simpl; repeat case_match; done ].

Lemma extends_computed_entry w : extends w (computed_entry w).
Proof.
  unfold computed_entry, log.
  trans (set_computedId (S (computedId w)) w).
  { split; simpl; try done; try lia. intros cap capture _ H. by exists capture. }
  etrans; [apply extends_alloc_capture|]. by apply extends_same.
Qed.

Lemma extends_effect_entry w : extends w (effect_entry w).
Proof.
  unfold effect_entry, log.
  trans (set_effectId (S (effectId w)) w).
  { split; simpl; try done; try lia. intros cap capture _ H. by exists capture. }
  etrans; [apply extends_alloc_capture|]. by apply extends_same.
Qed.

Lemma extends_computed_exit w0 fn id cap prev state w :
  extends w0 w → computedId w0 ≤ id →
  extends w0 (snd (computed_exit fn id cap prev state w)).
Proof.
  intros He Hid. unfold computed_exit. cbv zeta.
  destruct (captures _ !! cap) as [capture|]; cbn [snd].
  - apply extends_insert_computed; [|done].
    etrans; [exact He|].
    trans (set_recursive None (set_currentCapture prev w)); [by apply extends_same|].
    etrans; [apply extends_link_all|]. by apply extends_same.
  - etrans; [exact He|]. by apply extends_same.
Qed.

Lemma extends_effect_exit w0 fn id cap prev clear w :
  extends w0 w → effectId w0 ≤ id →
  extends w0 (snd (effect_exit fn id cap prev clear w)).
Proof.
  intros He Hid. unfold effect_exit. cbv zeta.
  destruct (captures _ !! cap) as [capture|]; cbn [snd].
  - apply extends_insert_effect; [|done].
    etrans; [exact He|].
    trans (set_recursive None (set_currentCapture prev w)); [by apply extends_same|].
    etrans; [apply extends_link_all|]. by apply extends_same.
  - etrans; [exact He|]. by apply extends_same.
Qed.

Lemma assertRecursive_cases name w :
  assertRecursive name w = (Ok tt, w) ∨ ∃ e, assertRecursive name w = (Err e, w).
Proof.
  unfold assertRecursive, bind, gets. simpl.
  destruct (recursive w); [|by left]. case_match; [by left|right; by eexists].
Qed.

Lemma extends_ComputedState_constructor fn call :
  respects extends call → respects extends (ComputedState_constructor fn call).
Proof.
  intros Hcall w.
  destruct (recursive w) as [m|] eqn:Hrec.
  - unfold ComputedState_constructor.
    rewrite (bind_err _ _ _ _ _ (assertRecursive_throws "computed" m w Hrec 
               ltac:(intros [? _]; discriminate))). done.
  - rewrite ComputedState_constructor_halves by done.
    pose proof (Hcall (computed_entry w)) as H.
    pose proof (extends_computed_entry w) as H0.
    destruct (call _) as [[state|e] w']; simpl in *.
    + apply extends_computed_exit; [by etrans|done].
    + etrans; [exact H0|]. etrans; [exact H|]. by apply extends_same.
Qed.

Lemma extends_EffectState_constructor fn call :
  respects extends call → respects extends (EffectState_constructor fn call).
Proof.
  intros Hcall w.
  destruct (decide (recursive w = Some MComputed)) as [Hrec|Hrec].
  - unfold EffectState_constructor.
    rewrite (bind_err _ _ _ _ _ (assertRecursive_throws "effect" _ w Hrec 
               ltac:(intros [_ ?]; discriminate))). done.
  - rewrite EffectState_constructor_halves by done.
    pose proof (Hcall (effect_entry w)) as H.
    pose proof (extends_effect_entry w) as H0.
    destruct (call _) as [[state|e] w']; simpl in *.
    + apply extends_effect_exit; [by etrans|done].
    + etrans; [exact H0|]. etrans; [exact H|]. by apply extends_same.
Qed.

#[local] Instance extends_frame : Frame extends.
Proof.
  split; [apply _|..]; intros.
  - unfold RefState_get_value, emit.
    respects_with ltac:(apply extends_capture_get); ext_atom.
  - unfold RefState_set_value, alter_ref, enqueueUpdate.
    respects_with ltac:(apply extends_capture_set); ext_atom.
  - unfold ComputedState_get_value, emit.
    respects_with ltac:(apply extends_capture_get); ext_atom.
  - unfold ref. respects_with ltac:(apply extends_RefState_constructor); ext_atom.
  - unfold computed.
    respects_with ltac:(by apply extends_ComputedState_constructor); ext_atom.
  - unfold effect.
    respects_with ltac:(by apply extends_EffectState_constructor); ext_atom.
  - unfold collect. respects_auto; ext_atom.
Qed.

(** ** Linking and unlinking, seen through the graph *)

Lemma elem_of_set_delete {A} `{EqDecision A} (x y : A) s :
  x ∈ set_delete y s ↔ x ∈ s ∧ x ≠ y.
Proof. unfold set_delete. rewrite list_elem_of_filter. tauto. Qed.

Lemma allocated_listeners_add X g w node :
  allocated (listeners_add X g w) node ↔ allocated w node.
Proof.
  destruct g, node; simpl; try done;
    match goal with |- context [alter ?f ?i ?m !! ?j] =>
      destruct (decide (i = j)) as [->|];
        [rewrite lookup_alter_eq|by rewrite lookup_alter_ne]
    end; by rewrite <- !not_eq_None_Some, fmap_None.
Qed.

Lemma allocated_listeners_delete X g w node :
  allocated (listeners_delete X g w) node ↔ allocated w node.
Proof.
  destruct g, node; simpl; try done;
    match goal with |- context [alter ?f ?i ?m !! ?j] =>
      destruct (decide (i = j)) as [->|];
        [rewrite lookup_alter_eq|by rewrite lookup_alter_ne]
    end; by rewrite <- !not_eq_None_Some, fmap_None.
Qed.

Lemma elem_of_listeners_add l X g w node :
  l ∈ listeners_of (listeners_add X g w) node ↔
  l ∈ listeners_of w node ∨ (l = X ∧ node = g ∧ allocated w node).
Proof.
  destruct g as [r|c], node as [r'|c']; simpl.
  - destruct (decide (r = r')) as [->|Hne].
    + rewrite lookup_alter_eq. destruct (refs w !! r') as [o|]; simpl.
      * rewrite elem_of_set_add. split; [intros [->|]|intros [|[-> _]]]; eauto.
      * split; [by intros ?%not_elem_of_nil|].
        intros [?%not_elem_of_nil|(_ & _ & [? [=]])]; done.
    + rewrite lookup_alter_ne by done. split; [by left|].
      intros [|(_ & [=] & _)]; done.
  - split; [by left|]. intros [|(_ & [=] & _)]; done.
  - split; [by left|]. intros [|(_ & [=] & _)]; done.
  - destruct (decide (c = c')) as [->|Hne].
    + rewrite lookup_alter_eq. destruct (computeds w !! c') as [o|]; simpl.
      * rewrite elem_of_set_add. split; [intros [->|]|intros [|[-> _]]]; eauto.
      * split; [by intros ?%not_elem_of_nil|].
        intros [?%not_elem_of_nil|(_ & _ & [? [=]])]; done.
    + rewrite lookup_alter_ne by done. split; [by left|].
      intros [|(_ & [=] & _)]; done.
Qed.

Lemma elem_of_listeners_delete l X g w node :
  l ∈ listeners_of (listeners_delete X g w) node ↔
  l ∈ listeners_of w node ∧ ¬ (l = X ∧ node = g).
Proof.
  destruct g as [r|c], node as [r'|c']; simpl.
  - destruct (decide (r = r')) as [->|Hne].
    + rewrite lookup_alter_eq. destruct (refs w !! r') as [o|]; simpl.
      * rewrite elem_of_set_delete. split; [intros [? ?]; split; [done|tauto]|].
        intros [? Hn]. split; [done|]. intros ->. by apply Hn.
      * split; [by intros ?%not_elem_of_nil|by intros [?%not_elem_of_nil _]].
    + rewrite lookup_alter_ne by done. split; [|tauto].
      intros H. split; [done|]. intros [_ [=]]. done.
  - split; [|tauto]. intros H. split; [done|]. intros [_ [=]].
  - split; [|tauto]. intros H. split; [done|]. intros [_ [=]].
  - destruct (decide (c = c')) as [->|Hne].
    + rewrite lookup_alter_eq. destruct (computeds w !! c') as [o|]; simpl.
      * rewrite elem_of_set_delete. split; [intros [? ?]; split; [done|tauto]|].
        intros [? Hn]. split; [done|]. intros ->. by apply Hn.
      * split; [by intros ?%not_elem_of_nil|by intros [?%not_elem_of_nil _]].
    + rewrite lookup_alter_ne by done. split; [|tauto].
      intros H. split; [done|]. intros [_ [=]]. done.
Qed.

Lemma allocated_link_all X G w node :
  allocated (link_all X G w) node ↔ allocated w node.
Proof.
  unfold link_all. induction G as [|g G IH] in w |- *; simpl; [done|].
  by rewrite IH, allocated_listeners_add.
Qed.

Lemma allocated_unlink_all X G w node :
  allocated (unlink_all X G w) node ↔ allocated w node.
Proof.
  unfold unlink_all. induction G as [|g G IH] in w |- *; simpl; [done|].
  by rewrite IH, allocated_listeners_delete.
Qed.

Lemma elem_of_listeners_link_all l X G w node :
  l ∈ listeners_of (link_all X G w) node ↔
  l ∈ listeners_of w node ∨ (l = X ∧ node ∈ G ∧ allocated w node).
Proof.
  unfold link_all. induction G as [|g G IH] in w |- *; simpl.
  - split; [by left|]. intros [|(_ & ?%not_elem_of_nil & _)]; done.
  - rewrite IH, elem_of_listeners_add, allocated_listeners_add, elem_of_cons.
    naive_solver.
Qed.

Lemma elem_of_listeners_unlink_all l X G w node :
  l ∈ listeners_of (unlink_all X G w) node ↔
  l ∈ listeners_of w node ∧ ¬ (l = X ∧ node ∈ G).
Proof.
  unfold unlink_all. induction G as [|g G IH] in w |- *; simpl.
  - split; [|tauto]. intros H. split; [done|].
    by intros [_ ?%not_elem_of_nil].
  - rewrite IH, elem_of_listeners_delete, elem_of_cons. naive_solver.
Qed.

(** ** Steps that keep the heap consistent *)

Lemma consistent_same w w' :
  refId w' = refId w → computedId w' = computedId w →
  effectId w' = effectId w → captureId w' = captureId w →
  refs w' = refs w → computeds w' = computeds w →
  effects w' = effects w → captures w' = captures w →
  dirtyStates w' = dirtyStates w →
  consistent w → consistent w'.
Proof.
  intros E1 E2 E3 E4 E5 E6 E7 E8 E9 [].
  split; unfold allocated, listeners_of, getters_of, capture_of, dirty_allocated in *;
    rewrite ?E1, ?E2, ?E3, ?E4, ?E5, ?E6, ?E7, ?E8, ?E9; done.
Qed.

Lemma consistent_initial : consistent initial.
Proof.
  split; simpl; try (by intros ? [? ?]); try done.
  - intros [|] ?; simpl; by rewrite lookup_empty.
  - intros [|] ?; simpl; rewrite lookup_empty; simpl; by intros ?%not_elem_of_nil.
  - constructor.
Qed.

(** Changing the dirty set to leaves that exist. *)
Lemma consistent_set_dirty d w :
  Forall (λ r, is_Some (refs w !! r)) d →
  consistent w → consistent (set_dirtyStates d w).
Proof. intros Hd []. by split. Qed.

(** Changing fields of a leaf other than its listeners. *)
Lemma consistent_alter_ref (f : RefState → RefState) r w :
  (∀ o, r_listeners (f o) = r_listeners o) →
  consistent w → consistent (set_refs (alter f r (refs w)) w).
Proof.
  intros Hf [].
  assert (Hdom : ∀ r', is_Some (alter f r (refs w) !! r') ↔ is_Some (refs w !! r')).
  { intros r'. destruct (decide (r = r')) as [->|];
      [rewrite lookup_alter_eq|by rewrite lookup_alter_ne].
    by rewrite <- !not_eq_None_Some, fmap_None. }
  assert (Hal : ∀ node, allocated (set_refs (alter f r (refs w)) w) node
                        ↔ allocated w node).
  { intros [r'|c]; simpl; [apply Hdom|done]. }
  assert (Hls : ∀ node, listeners_of (set_refs (alter f r (refs w)) w) node
                        = listeners_of w node).
  { intros [r'|c]; simpl; [|done].
    destruct (decide (r = r')) as [->|];
      [rewrite lookup_alter_eq|by rewrite lookup_alter_ne].
    destruct (refs w !! r'); simpl; [apply Hf|done]. }
  split; try done.
  - intros r' H. apply cs_refs0. by apply Hdom.
  - intros cap capture node H1 H2. apply Hal. by eapply cs_getters0.
  - intros node l. rewrite Hls. apply cs_edges0.
  - unfold dirty_allocated in *. simpl. eapply Forall_impl; [done|].
    intros r' H. by apply Hdom.
Qed.

(** A step that allocates nothing, leaves the captures alone and adds no
    listener. *)
Lemma consistent_transfer w w' :
  refId w ≤ refId w' → computedId w ≤ computedId w' →
  effectId w ≤ effectId w' → captureId w ≤ captureId w' →
  (∀ r, is_Some (refs w' !! r) ↔ is_Some (refs w !! r)) →
  (∀ c, is_Some (computeds w' !! c) ↔ is_Some (computeds w !! c)) →
  (∀ e, is_Some (effects w' !! e) ↔ is_Some (effects w !! e)) →
  captures w' = captures w →
  (∀ l, capture_of w' l = capture_of w l) →
  (∀ node l, l ∈ listeners_of w' node → l ∈ listeners_of w node) →
  dirtyStates w' = dirtyStates w →
  consistent w → consistent w'.
Proof.
  intros L1 L2 L3 L4 D1 D2 D3 Ec Eco Hls Ed [].
  assert (Hal : ∀ node, allocated w' node ↔ allocated w node).
  { intros [r|c]; simpl; [apply D1|apply D2]. }
  assert (Hg : ∀ l, getters_of w' l = getters_of w l).
  { intros l. unfold getters_of. by rewrite Eco, Ec. }
  split.
  - intros r H%D1. apply cs_refs0 in H. lia.
  - intros c H%D2. apply cs_computeds0 in H. lia.
  - intros e H%D3. apply cs_effects0 in H. lia.
  - intros cap H. rewrite Ec in H. apply cs_captures0 in H. lia.
  - intros l cap H. rewrite Eco in H. rewrite Ec. by eapply cs_node_capture0.
  - intros cap capture node H1 H2. rewrite Ec in H1. apply Hal.
    by eapply cs_getters0.
  - intros node l H%Hls. rewrite Hg. by apply cs_edges0.
  - unfold dirty_allocated in *. rewrite Ed. eapply Forall_impl; [done|].
    intros r H. by apply D1.
Qed.

Lemma is_Some_alter {K A} `{Countable K} (f : A → A) (m : gmap K A) i j :
  is_Some (alter f i m !! j) ↔ is_Some (m !! j).
Proof.
  destruct (decide (i = j)) as [->|];
    [rewrite lookup_alter_eq|by rewrite lookup_alter_ne].
  by rewrite <- !not_eq_None_Some, fmap_None.
Qed.

Lemma consistent_alter_computed (f : ComputedState → ComputedState) c w :
  (∀ o, c_listeners (f o) = c_listeners o ∧ c_capture (f o) = c_capture o) →
  consistent w → consistent (set_computeds (alter f c (computeds w)) w).
Proof.
  intros Hf. apply consistent_transfer; simpl; try done.
  - intros c'. apply is_Some_alter.
  - intros [c'|e]; simpl; [|done].
    destruct (decide (c = c')) as [->|];
      [rewrite lookup_alter_eq|by rewrite lookup_alter_ne].
    destruct (computeds w !! c'); simpl; [|done]. f_equal. apply Hf.
  - intros [r|c'] l; simpl; [done|].
    destruct (decide (c = c')) as [->|];
      [rewrite lookup_alter_eq|by rewrite lookup_alter_ne].
    destruct (computeds w !! c'); simpl; [|done]. by rewrite (proj1 (Hf _)).
Qed.

Lemma consistent_alter_effect (f : EffectState → EffectState) e w :
  (∀ o, e_capture (f o) = e_capture o) →
  consistent w → consistent (set_effects (alter f e (effects w)) w).
Proof.
  intros Hf. apply consistent_transfer; simpl; try done.
  - intros e'. apply is_Some_alter.
  - intros [c'|e']; simpl; [done|].
    destruct (decide (e = e')) as [->|];
      [rewrite lookup_alter_eq|by rewrite lookup_alter_ne].
    destruct (effects w !! e'); simpl; [|done]. f_equal. apply Hf.
Qed.

Lemma foldl_preserved {B C} (g : World → C) (f : World → B → World) (l : list B) :
  (∀ w b, g (f w b) = g w) → ∀ w, g (foldl f w l) = g w.
Proof.
  intros Hf. induction l as [|b l IH]; intros w; simpl; [done|].
  by rewrite IH, Hf.
Qed.

Lemma unlink_all_fields X G w :
  refId (unlink_all X G w) = refId w ∧
  computedId (unlink_all X G w) = computedId w ∧
  effectId (unlink_all X G w) = effectId w ∧
  captureId (unlink_all X G w) = captureId w ∧
  effects (unlink_all X G w) = effects w ∧
  captures (unlink_all X G w) = captures w ∧
  dirtyStates (unlink_all X G w) = dirtyStates w ∧
  trace (unlink_all X G w) = trace w ∧
  (∀ l, capture_of (unlink_all X G w) l = capture_of w l).
Proof.
  unfold unlink_all.
  split_and!; try (apply (foldl_preserved _ _ G); by intros ? []).
  intros l. apply (foldl_preserved (λ w, capture_of w l)).
  intros w' [r|c]; destruct l as [c'|e]; simpl; try done.
  destruct (decide (c = c')) as [->|];
    [rewrite lookup_alter_eq|by rewrite lookup_alter_ne].
  by destruct (computeds w' !! c').
Qed.

Lemma link_all_fields X G w :
  refId (link_all X G w) = refId w ∧
  computedId (link_all X G w) = computedId w ∧
  effectId (link_all X G w) = effectId w ∧
  captureId (link_all X G w) = captureId w ∧
  effects (link_all X G w) = effects w ∧
  captures (link_all X G w) = captures w ∧
  dirtyStates (link_all X G w) = dirtyStates w ∧
  trace (link_all X G w) = trace w ∧
  (∀ l, capture_of (link_all X G w) l = capture_of w l).
Proof.
  unfold link_all.
  split_and!; try (apply (foldl_preserved _ _ G); by intros ? []).
  intros l. apply (foldl_preserved (λ w, capture_of w l)).
  intros w' [r|c]; destruct l as [c'|e]; simpl; try done.
  destruct (decide (c = c')) as [->|];
    [rewrite lookup_alter_eq|by rewrite lookup_alter_ne].
  by destruct (computeds w' !! c').
Qed.

Lemma consistent_unlink_all X G w :
  consistent w → consistent (unlink_all X G w).
Proof.
  destruct (unlink_all_fields X G w) as (E1 & E2 & E3 & E4 & E5 & E6 & E7 & E8 & E9).
  apply consistent_transfer; try done; try lia.
  - intros r. apply (allocated_unlink_all X G w (SRef r)).
  - intros c. apply (allocated_unlink_all X G w (SComputed c)).
  - by rewrite E5.
  - intros node l. rewrite elem_of_listeners_unlink_all. tauto.
Qed.

Lemma consistent_alloc_ref init w :
  consistent w →
  consistent
    (set_refs (<[refId w := mkRefState init init init (refId w) []]> (refs w))
       (set_refId (S (refId w)) w)).
Proof.
  intros [].
  assert (Hfresh : refs w !! refId w = None).
  { apply eq_None_not_Some. intros H%cs_refs0. lia. }
  split; simpl.
  - intros r. rewrite lookup_insert_is_Some. intros [->|[_ H%cs_refs0]]; lia.
  - done.
  - done.
  - done.
  - done.
  - intros cap capture node H1 H2. specialize (cs_getters0 _ _ _ H1 H2).
    destruct node as [r|c]; simpl in *; [|done].
    rewrite lookup_insert_is_Some. destruct (decide (refId w = r)); eauto.
  - intros [r|c] l; simpl; [|apply (cs_edges0 (SComputed c))].
    destruct (decide (refId w = r)) as [<-|].
    + rewrite lookup_insert_eq. simpl. by intros ?%not_elem_of_nil.
    + rewrite lookup_insert_ne by done. apply (cs_edges0 (SRef r)).
  - unfold dirty_allocated in *. simpl. eapply Forall_impl; [done|].
    intros r H. rewrite lookup_insert_is_Some.
    destruct (decide (refId w = r)); eauto.
Qed.

Lemma consistent_alloc_capture w : consistent w → consistent (alloc_capture w).
Proof.
  intros [].
  assert (Hfresh : captures w !! captureId w = None).
  { apply eq_None_not_Some. intros H%cs_captures0. lia. }
  split; simpl; try done.
  - intros cap. rewrite lookup_insert_is_Some.
    intros [->|[_ H%cs_captures0]]; lia.
  - intros l cap H. rewrite lookup_insert_is_Some.
    destruct (decide (captureId w = cap)); [by left|right].
    split; [done|]. by eapply cs_node_capture0.
  - intros cap capture node. destruct (decide (captureId w = cap)) as [<-|].
    + rewrite lookup_insert_eq. intros [= <-]. simpl. by intros ?%not_elem_of_nil.
    + rewrite lookup_insert_ne by done. apply cs_getters0.
  - intros node l H. apply cs_edges0 in H. unfold getters_of in *. simpl.
    change (capture_of (alloc_capture w) l) with (capture_of w l).
    destruct (capture_of w l) as [cap|] eqn:Hc; [|done].
    rewrite lookup_insert_ne; [done|]. intros <-.
    apply cs_node_capture0 in Hc. rewrite Hfresh in Hc. by destruct Hc.
Qed.

Lemma consistent_capture_get node w :
  consistent w → allocated w node → consistent (snd (capture_get node w)).
Proof.
  intros [] Hnode. unfold capture_get, modify. simpl.
  destruct (currentCapture w) as [cur|]; [|done].
  set (f := λ c, mkCapture (set_add node (_getters c)) (_setters c)).
  split; simpl; try done.
  - intros cap. rewrite is_Some_alter. apply cs_captures0.
  - intros l cap H. rewrite is_Some_alter. by eapply cs_node_capture0.
  - intros cap capture node'. destruct (decide (cur = cap)) as [->|].
    + rewrite lookup_alter_eq. destruct (captures w !! cap) as [o|] eqn:Ho; [|done].
      simpl. intros [= <-]. simpl. rewrite elem_of_set_add.
      intros [->|H]; [done|]. by eapply cs_getters0.
    + rewrite lookup_alter_ne by done. apply cs_getters0.
  - intros node' l H. apply cs_edges0 in H. unfold getters_of in *. simpl.
    change (capture_of (set_captures _ w) l) with (capture_of w l).
    destruct (capture_of w l) as [cap|]; [|done].
    destruct (decide (cur = cap)) as [->|]; [|by rewrite lookup_alter_ne].
    rewrite lookup_alter_eq. destruct (captures w !! cap); [|done].
    simpl in *. apply elem_of_set_add. by right.
Qed.

Lemma consistent_capture_set r w :
  consistent w → consistent (snd (capture_set r w)).
Proof.
  intros []. unfold capture_set, modify. simpl.
  destruct (currentCapture w) as [cur|]; [|done].
  set (f := λ c, mkCapture (_getters c) (set_add r (_setters c))).
  assert (Hg : ∀ cap, from_option _getters [] (alter f cur (captures w) !! cap)
                      = from_option _getters [] (captures w !! cap)).
  { intros cap. destruct (decide (cur = cap)) as [->|];
      [rewrite lookup_alter_eq|by rewrite lookup_alter_ne].
    by destruct (captures w !! cap). }
  split; simpl; try done.
  - intros cap. rewrite is_Some_alter. apply cs_captures0.
  - intros l cap H. rewrite is_Some_alter. by eapply cs_node_capture0.
  - intros cap capture node H1 H2.
    assert (node ∈ from_option _getters [] (captures w !! cap)) as H3.
    { rewrite <- Hg, H1. done. }
    destruct (captures w !! cap) eqn:E; [|by apply not_elem_of_nil in H3].
    by eapply cs_getters0.
  - intros node l H. apply cs_edges0 in H. unfold getters_of in *. simpl.
    change (capture_of (set_captures _ w) l) with (capture_of w l).
    destruct (capture_of w l) as [cap|]; [|done]. by rewrite Hg.
Qed.

(** Linking a node that exists to what its capture recorded. *)
Lemma consistent_link_all X cap capture w :
  consistent w → capture_of w X = Some cap → captures w !! cap = Some capture →
  consistent (link_all X (_getters capture) w).
Proof.
  intros Hw Hc Hcap. pose proof Hw as [].
  destruct (link_all_fields X (_getters capture) w)
    as (E1 & E2 & E3 & E4 & E5 & E6 & E7 & E8 & E9).
  assert (Hg : ∀ l, getters_of (link_all X (_getters capture) w) l = getters_of w l).
  { intros l. unfold getters_of. by rewrite E9, E6. }
  split.
  - intros r H. rewrite E1. apply cs_refs0.
    by apply (allocated_link_all X (_getters capture) w (SRef r)).
  - intros c H. rewrite E2. apply cs_computeds0.
    by apply (allocated_link_all X (_getters capture) w (SComputed c)).
  - intros e. rewrite E3, E5. apply cs_effects0.
  - intros c. rewrite E4, E6. apply cs_captures0.
  - intros l c. rewrite E9, E6. apply cs_node_capture0.
  - intros c o node. rewrite E6, allocated_link_all. apply cs_getters0.
  - intros node l. rewrite elem_of_listeners_link_all, Hg.
    intros [H|(-> & H & _)]; [by apply cs_edges0|].
    unfold getters_of. by rewrite Hc, Hcap.
  - unfold dirty_allocated in *. rewrite E7. eapply Forall_impl; [done|].
    intros r H. by apply (allocated_link_all X (_getters capture) w (SRef r)).
Qed.

(** A node that does not exist is nobody's listener. *)
Lemma consistent_not_listener w l node :
  consistent w → capture_of w l = None → l ∉ listeners_of w node.
Proof.
  intros [] Hc H%cs_edges0. unfold getters_of in H. rewrite Hc in H.
  by apply not_elem_of_nil in H.
Qed.

(** After unlinking from what its capture recorded, a node is nobody's
    listener. *)
Lemma unlink_all_not_listener X w node :
  consistent w → X ∉ listeners_of (unlink_all X (getters_of w X) w) node.
Proof.
  intros [] H. apply elem_of_listeners_unlink_all in H as [H1 H2].
  apply H2. split; [done|]. by apply cs_edges0.
Qed.

Lemma consistent_computed_insert fn id cap capture state w :
  consistent w → computeds w !! id = None → id < computedId w →
  captures w !! cap = Some capture →
  let wl := log (EvLink (LComputed id))
              (link_all (LComputed id) (_getters capture) w) in
  consistent
    (set_computeds (<[id := mkComputedState fn state state cap id []]> (computeds wl)) wl).
Proof.
  intros Hw Hid Hlt Hcap wl. pose proof Hw as [].
  set (X := LComputed id) in *.
  destruct (link_all_fields X (_getters capture) w)
    as (E1 & E2 & E3 & E4 & E5 & E6 & E7 & E8 & E9).
  assert (HX : capture_of w X = None) by (simpl; by rewrite Hid).
  assert (Hcl : computeds wl !! id = None).
  { apply eq_None_not_Some. intros H.
    apply (allocated_link_all X (_getters capture) w (SComputed id)) in H.
    simpl in H. rewrite Hid in H. by destruct H. }
  set (w' := set_computeds _ wl).
  assert (Hco : ∀ l, l ≠ X → capture_of w' l = capture_of w l).
  { intros [c|e] Hl; simpl.
    - rewrite lookup_insert_ne by (intros ->; by apply Hl). apply (E9 (LComputed c)).
    - by rewrite E5. }
  assert (Hal : ∀ node, allocated w node → allocated w' node).
  { intros [r|c] H; simpl.
    - by apply (allocated_link_all X (_getters capture) w (SRef r)).
    - rewrite lookup_insert_is_Some. destruct (decide (id = c)); [by left|right].
      split; [done|].
      by apply (allocated_link_all X (_getters capture) w (SComputed c)). }
  split.
  - intros r H. simpl. rewrite E1. apply cs_refs0.
    by apply (allocated_link_all X (_getters capture) w (SRef r)).
  - intros c. simpl. rewrite E2, lookup_insert_is_Some.
    intros [<-|[_ H]]; [done|]. apply cs_computeds0.
    by apply (allocated_link_all X (_getters capture) w (SComputed c)).
  - intros e. simpl. rewrite E3, E5. apply cs_effects0.
  - intros c. simpl. rewrite E4, E6. apply cs_captures0.
  - intros l c. destruct (decide (l = X)) as [->|Hl].
    + simpl. rewrite lookup_insert_eq. simpl. intros [= <-]. by rewrite E6, Hcap.
    + rewrite (Hco l Hl). simpl. rewrite E6. apply cs_node_capture0.
  - intros c o node. simpl. rewrite E6. intros H1 H2. apply Hal.
    by eapply cs_getters0.
  - intros node l Hin.
    assert (Hin' : l ∈ listeners_of (link_all X (_getters capture) w) node).
    { destruct node as [r|c]; simpl in *; [done|].
      destruct (decide (id = c)) as [<-|].
      - rewrite lookup_insert_eq in Hin. by apply not_elem_of_nil in Hin.
      - by rewrite lookup_insert_ne in Hin. }
    apply elem_of_listeners_link_all in Hin' as [H|(-> & H & _)].
    + assert (l ≠ X) as Hl.
      { intros ->. by eapply consistent_not_listener. }
      apply cs_edges0 in H. unfold getters_of in *. rewrite (Hco l Hl).
      simpl. by rewrite E6.
    + unfold getters_of. simpl. rewrite lookup_insert_eq. simpl. by rewrite E6, Hcap.
  - unfold dirty_allocated in *. simpl. rewrite E7. eapply Forall_impl; [done|].
    intros r H. by apply (allocated_link_all X (_getters capture) w (SRef r)).
Qed.

Lemma consistent_effect_insert fn id cap capture clear w :
  consistent w → effects w !! id = None → id < effectId w →
  captures w !! cap = Some capture →
  let wl := log (EvLink (LEffect id))
              (link_all (LEffect id) (_getters capture) w) in
  consistent
    (set_effects (<[id := mkEffectState fn cap clear id false]> (effects wl)) wl).
Proof.
  intros Hw Hid Hlt Hcap wl. pose proof Hw as [].
  set (X := LEffect id) in *.
  destruct (link_all_fields X (_getters capture) w)
    as (E1 & E2 & E3 & E4 & E5 & E6 & E7 & E8 & E9).
  assert (HX : capture_of w X = None) by (simpl; by rewrite Hid).
  set (w' := set_effects _ wl).
  assert (Hco : ∀ l, l ≠ X → capture_of w' l = capture_of w l).
  { intros [c|e] Hl; simpl.
    - apply (E9 (LComputed c)).
    - rewrite lookup_insert_ne by (intros ->; by apply Hl). by rewrite E5. }
  assert (Hal : ∀ node, allocated w' node ↔ allocated w node).
  { intros node. apply (allocated_link_all X (_getters capture) w node). }
  split.
  - intros r H. simpl. rewrite E1. apply cs_refs0. by apply (Hal (SRef r)).
  - intros c H. simpl. rewrite E2. apply cs_computeds0. by apply (Hal (SComputed c)).
  - intros e. simpl. rewrite E3, E5, lookup_insert_is_Some.
    intros [<-|[_ H]]; [done|]. by apply cs_effects0.
  - intros c. simpl. rewrite E4, E6. apply cs_captures0.
  - intros l c. destruct (decide (l = X)) as [->|Hl].
    + simpl. rewrite lookup_insert_eq. simpl. intros [= <-]. by rewrite E6, Hcap.
    + rewrite (Hco l Hl). simpl. rewrite E6. apply cs_node_capture0.
  - intros c o node. simpl. rewrite E6. intros H1 H2. apply Hal.
    by eapply cs_getters0.
  - intros node l Hin.
    assert (Hin' : l ∈ listeners_of (link_all X (_getters capture) w) node).
    { by destruct node. }
    apply elem_of_listeners_link_all in Hin' as [H|(-> & H & _)].
    + assert (l ≠ X) as Hl.
      { intros ->. by eapply consistent_not_listener. }
      apply cs_edges0 in H. unfold getters_of in *. rewrite (Hco l Hl).
      simpl. by rewrite E6.
    + unfold getters_of. simpl. rewrite lookup_insert_eq. simpl. by rewrite E6, Hcap.
  - unfold dirty_allocated in *. simpl. rewrite E7. eapply Forall_impl; [done|].
    intros r H. by apply (Hal (SRef r)).
Qed.

(** ** Client closures keep the heap consistent *)

#[local] Instance evolves_preorder : PreOrder evolves.
Proof.
  split.
  - intros w. split; [reflexivity|done].
  - intros x y z [E1 C1] [E2 C2]. split; [by etrans|auto].
Qed.

Lemma evolves_extends {A} (m : M A) : respects evolves m → respects extends m.
Proof. intros H w. apply H. Qed.

Lemma evolves_intro {A} (m : M A) :
  respects extends m → (∀ w, consistent w → consistent (snd (m w))) →
  respects evolves m.
Proof. intros H1 H2 w. split; [apply H1|apply H2]. Qed.

Lemma consistent_log ev w : consistent w → consistent (log ev w).
Proof. by apply consistent_same. Qed.

(** Reading gives the committed value, records the read in the current
    capture and logs it; an absent object throws and changes nothing. *)
Lemma RefState_get_value_eq r w this :
  refs w !! r = Some this →
  RefState_get_value r w
  = (Ok (r_state this),
     log (EvGet (SRef r) (r_state this)) (snd (capture_get (SRef r) w))).
Proof.
  intros Hr. unfold RefState_get_value, the_ref, emit, capture_get, bind, modify.
  rewrite Hr. simpl. by destruct (currentCapture w); simpl; rewrite Hr.
Qed.

Lemma RefState_get_value_absent r w :
  refs w !! r = None → RefState_get_value r w = (Err NoSuchObject, w).
Proof. intros Hr. unfold RefState_get_value, the_ref, bind. by rewrite Hr. Qed.

Lemma ComputedState_get_value_eq c w this :
  computeds w !! c = Some this →
  ComputedState_get_value c w
  = (Ok (c_state this),
     log (EvGet (SComputed c) (c_state this)) (snd (capture_get (SComputed c) w))).
Proof.
  intros Hr.
  unfold ComputedState_get_value, the_computed, emit, capture_get, bind, modify.
  rewrite Hr. simpl. by destruct (currentCapture w); simpl; rewrite Hr.
Qed.

Lemma ComputedState_get_value_absent c w :
  computeds w !! c = None → ComputedState_get_value c w = (Err NoSuchObject, w).
Proof.
  intros Hr. unfold ComputedState_get_value, the_computed, bind. by rewrite Hr.
Qed.

Lemma consistent_RefState_get_value r w :
  consistent w → consistent (snd (RefState_get_value r w)).
Proof.
  intros Hw. destruct (refs w !! r) as [this|] eqn:Hr.
  - rewrite (RefState_get_value_eq _ _ _ Hr). cbn [snd].
    apply consistent_log, consistent_capture_get; [done|]. simpl. by rewrite Hr.
  - by rewrite (RefState_get_value_absent _ _ Hr).
Qed.

Lemma consistent_ComputedState_get_value c w :
  consistent w → consistent (snd (ComputedState_get_value c w)).
Proof.
  intros Hw. destruct (computeds w !! c) as [this|] eqn:Hr.
  - rewrite (ComputedState_get_value_eq _ _ _ Hr). cbn [snd].
    apply consistent_log, consistent_capture_get; [done|]. simpl. by rewrite Hr.
  - by rewrite (ComputedState_get_value_absent _ _ Hr).
Qed.

Lemma consistent_enqueueUpdate r w :
  consistent w → is_Some (refs w !! r) → consistent (snd (enqueueUpdate r w)).
Proof.
  intros Hw Hr. unfold enqueueUpdate, bind, modify, gets. simpl.
  assert (consistent (set_dirtyStates (set_add r (dirtyStates w)) w)) as H.
  { apply consistent_set_dirty; [|done]. apply Forall_forall.
    intros x [->|Hx]%elem_of_set_add; [done|].
    destruct Hw. unfold dirty_allocated in *. rewrite Forall_forall in cs_dirty0.
    by apply cs_dirty0. }
  destruct (currentUpdate w); simpl; [done|].
  revert H. by apply consistent_same.
Qed.

Lemma capture_set_ok r w : capture_set r w = (Ok tt, snd (capture_set r w)).
Proof. reflexivity. Qed.

Lemma capture_set_refs r w : refs (snd (capture_set r w)) = refs w.
Proof. unfold capture_set, modify. simpl. by destruct (currentCapture w). Qed.

Lemma RefState_set_value_halves r v w this :
  refs w !! r = Some this →
  RefState_set_value r v w
  = let w1 := snd (capture_set r w) in
    if negb (strict_eq v (r_state this))
    then enqueueUpdate r (set_refs (alter (r_set_pending v) r (refs w1)) w1)
    else (Ok tt, w1).
Proof.
  intros Hr. unfold RefState_set_value, the_ref. unfold bind at 1. rewrite Hr.
  rewrite (bind_ok _ _ _ _ _ (capture_set_ok r w)). cbv zeta.
  by destruct (negb (strict_eq v (r_state this))).
Qed.

Lemma RefState_set_value_absent r v w :
  refs w !! r = None → RefState_set_value r v w = (Err NoSuchObject, w).
Proof. intros Hr. unfold RefState_set_value, the_ref, bind. by rewrite Hr. Qed.

Lemma consistent_RefState_set_value r v w :
  consistent w → consistent (snd (RefState_set_value r v w)).
Proof.
  intros Hw. destruct (refs w !! r) as [this|] eqn:Hr.
  - rewrite (RefState_set_value_halves _ _ _ _ Hr). cbv zeta.
    pose proof (consistent_capture_set r w Hw) as H.
    pose proof (capture_set_refs r w) as Er.
    destruct (negb (strict_eq v (r_state this))); [|done].
    apply consistent_enqueueUpdate.
    + by apply consistent_alter_ref.
    + change (is_Some (alter (r_set_pending v) r
                         (refs (snd (capture_set r w))) !! r)).
      by rewrite is_Some_alter, Er, Hr.
  - by rewrite (RefState_set_value_absent _ _ _ Hr).
Qed.

Lemma consistent_RefState_constructor init w :
  consistent w → consistent (snd (RefState_constructor init w)).
Proof.
  intros Hw. unfold RefState_constructor, assertRecursive, bind, gets. simpl.
  pose proof (consistent_alloc_ref init w Hw).
  destruct (recursive w); simpl; done.
Qed.

Lemma consistent_computed_entry w : consistent w → consistent (computed_entry w).
Proof.
  intros Hw. unfold computed_entry.
  assert (consistent (set_computedId (S (computedId w)) w)) as H.
  { revert Hw. apply consistent_transfer; simpl; try done. lia. }
  apply consistent_alloc_capture in H. revert H. by apply consistent_same.
Qed.

Lemma consistent_effect_entry w : consistent w → consistent (effect_entry w).
Proof.
  intros Hw. unfold effect_entry.
  assert (consistent (set_effectId (S (effectId w)) w)) as H.
  { revert Hw. apply consistent_transfer; simpl; try done. lia. }
  apply consistent_alloc_capture in H. revert H. by apply consistent_same.
Qed.

Lemma consistent_computed_exit fn id cap prev state w :
  consistent w → computeds w !! id = None → id < computedId w →
  consistent (snd (computed_exit fn id cap prev state w)).
Proof.
  intros Hw Hid Hlt. unfold computed_exit. cbv zeta.
  set (w1 := set_recursive None _).
  assert (consistent w1) as H1 by (revert Hw; by apply consistent_same).
  destruct (captures w1 !! cap) as [capture|] eqn:Hcap; cbn [snd]; [|done].
  by apply consistent_computed_insert.
Qed.

Lemma consistent_effect_exit fn id cap prev clear w :
  consistent w → effects w !! id = None → id < effectId w →
  consistent (snd (effect_exit fn id cap prev clear w)).
Proof.
  intros Hw Hid Hlt. unfold effect_exit. cbv zeta.
  set (w1 := set_recursive None _).
  assert (consistent w1) as H1 by (revert Hw; by apply consistent_same).
  destruct (captures w1 !! cap) as [capture|] eqn:Hcap; cbn [snd]; [|done].
  by apply consistent_effect_insert.
Qed.

Lemma consistent_ComputedState_constructor fn call w :
  respects evolves call →
  consistent w → consistent (snd (ComputedState_constructor fn call w)).
Proof.
  intros Hcall Hw.
  destruct (recursive w) as [m|] eqn:Hrec.
  - unfold ComputedState_constructor.
    rewrite (bind_err _ _ _ _ _ (assertRecursive_throws "computed" m w Hrec 
               ltac:(intros [? _]; discriminate))). done.
  - rewrite ComputedState_constructor_halves by done.
    pose proof (consistent_computed_entry w Hw) as H1.
    destruct (Hcall (computed_entry w)) as [He Hc]. specialize (Hc H1).
    assert (Hfresh : computeds w !! computedId w = None).
    { apply eq_None_not_Some. intros H%(cs_computeds _ Hw). lia. }
    destruct (call _) as [[state|e] w']; simpl in *.
    + apply consistent_computed_exit; [done| |].
      * pose proof (ex_computeds _ _ He (computedId w) ltac:(simpl; lia)) as H.
        simpl in H. rewrite Hfresh in H. by apply fmap_None in H.
      * pose proof (ex_computedId _ _ He). simpl in *. lia.
    + revert Hc. by apply consistent_same.
Qed.

Lemma consistent_EffectState_constructor fn call w :
  respects evolves call →
  consistent w → consistent (snd (EffectState_constructor fn call w)).
Proof.
  intros Hcall Hw.
  destruct (decide (recursive w = Some MComputed)) as [Hrec|Hrec].
  - unfold EffectState_constructor.
    rewrite (bind_err _ _ _ _ _ (assertRecursive_throws "effect" _ w Hrec 
               ltac:(intros [_ ?]; discriminate))). done.
  - rewrite EffectState_constructor_halves by done.
    pose proof (consistent_effect_entry w Hw) as H1.
    destruct (Hcall (effect_entry w)) as [He Hc]. specialize (Hc H1).
    assert (Hfresh : effects w !! effectId w = None).
    { apply eq_None_not_Some. intros H%(cs_effects _ Hw). lia. }
    destruct (call _) as [[state|e] w']; simpl in *.
    + apply consistent_effect_exit; [done| |].
      * pose proof (ex_effects _ _ He (effectId w) ltac:(simpl; lia)) as H.
        simpl in H. by rewrite Hfresh in H.
      * pose proof (ex_effectId _ _ He). simpl in *. lia.
    + revert Hc. by apply consistent_same.
Qed.

Lemma consistent_bind_same {A} (m : M A) (g : A → World → World) w :
  (∀ a w', consistent w' → consistent (g a w')) →
  consistent (snd (m w)) →
  consistent (snd (bind m (λ a, modify (g a)) w)).
Proof.
  intros Hg H. unfold bind, modify. destruct (m w) as [[a|e] w']; simpl in *; auto.
Qed.

Lemma consistent_bind {A B} (m : M A) (f : A → M B) w :
  consistent (snd (m w)) →
  (∀ a w', consistent w' → consistent (snd (f a w'))) →
  consistent (snd (bind m f w)).
Proof.
  intros H Hf. unfold bind. destruct (m w) as [[a|e] w']; simpl in *; auto.
Qed.

#[local] Instance evolves_frame : Frame evolves.
Proof.
  split; [apply _|..]; intros.
  - apply evolves_intro; [apply frame_get_ref|apply consistent_RefState_get_value].
  - apply evolves_intro; [apply frame_set_ref|apply consistent_RefState_set_value].
  - apply evolves_intro;
      [apply frame_get_computed|apply consistent_ComputedState_get_value].
  - apply evolves_intro; [apply frame_ref|]. intros w Hw. unfold ref.
    apply consistent_bind; [by apply consistent_RefState_constructor|].
    intros a w' Hw'. unfold bind, modify, mret. simpl.
    revert Hw'. by apply consistent_same.
  - apply evolves_intro; [by apply frame_computed, evolves_extends|].
    intros w Hw. unfold computed.
    apply consistent_bind; [by apply consistent_ComputedState_constructor|].
    intros a w' Hw'. unfold bind, modify, mret. simpl.
    revert Hw'. by apply consistent_same.
  - apply evolves_intro; [by apply frame_effect, evolves_extends|].
    intros w Hw. unfold effect.
    apply consistent_bind; [by apply consistent_EffectState_constructor|].
    intros a w' Hw'. unfold modify. simpl.
    revert Hw'. by apply consistent_same.
  - apply evolves_intro; [by apply frame_collect, evolves_extends|].
    intros w Hw. unfold collect, bind, modify, finally, gets, mret. simpl.
    match goal with |- context [fn ?w0] =>
      pose proof (proj2 (H w0)) as Hfn; destruct (fn w0) as [[a|e] w'] end;
      simpl in *.
    + eapply consistent_same; [..|apply Hfn]; try done.
      revert Hw. by apply consistent_same.
    + eapply consistent_same; [..|apply Hfn]; try done.
      revert Hw. by apply consistent_same.
Qed.

(** Every client closure extends the heap and keeps it consistent. *)
Lemma run_evolves {k} (p : prog k) w : evolves w (snd (run p w)).
Proof. apply (run_respects evolves p w). Qed.

Lemma run_consistent {k} (p : prog k) w :
  consistent w → consistent (snd (run p w)).
Proof. apply run_evolves. Qed.

Lemma run_extends {k} (p : prog k) w : extends w (snd (run p w)).
Proof. apply run_evolves. Qed.

(** ** The recomputations in two halves *)

Lemma bind_finally {A B} (m : M A) g (f : A → M B) w :
  bind (finally m g) f w
  = match m w with
    | (Ok a, w') => f a (g w')
    | (Err e, w') => (Err e, g w')
    end.
Proof. unfold bind, finally. by destruct (m w) as [[a|e] w']. Qed.

Ltac mstep :=
  first [ rewrite bind_assoc | rewrite bind_gets | rewrite bind_modify
        | rewrite bind_mret ];
  cbv beta.
Ltac msimpl := repeat mstep.

Lemma unlink_all_currentCapture X G w :
  currentCapture (unlink_all X G w) = currentCapture w.
Proof. apply (foldl_preserved currentCapture). by intros ? []. Qed.

Lemma link_all_currentCapture X G w :
  currentCapture (link_all X G w) = currentCapture w.
Proof. apply (foldl_preserved currentCapture). by intros ? []. Qed.

Lemma unlink_eq X cap capture w :
  captures w !! cap = Some capture →
  unlink X cap w = (Ok tt, log (EvUnlink X) (unlink_all X (_getters capture) w)).
Proof. intros H. unfold unlink, the_capture, emit, bind. by rewrite H. Qed.

Lemma link_eq X cap capture w :
  captures w !! cap = Some capture →
  link X cap w = (Ok tt, log (EvLink X) (link_all X (_getters capture) w)).
Proof. intros H. unfold link, the_capture, emit, bind. by rewrite H. Qed.

Lemma link_absent X cap w :
  captures w !! cap = None → link X cap w = (Err NoSuchObject, w).
Proof. intros H. unfold link, the_capture, bind. by rewrite H. Qed.

Lemma ComputedState_update_halves c w this capture :
  computeds w !! c = Some this →
  captures w !! c_capture this = Some capture →
  ComputedState_update c w
  = match run (c_fn this) (update_entry (LComputed c) (_getters capture) w) with
    | (Ok state, w') => computed_update_exit c (currentCapture w) state w'
    | (Err e, w') => (Err e, set_currentCapture (currentCapture w) w')
    end.
Proof.
  intros Hc Hcap.
  destruct (unlink_all_fields (LComputed c) (_getters capture) w)
    as (E1 & E2 & E3 & E4 & E5 & E6 & E7 & E8 & E9).
  unfold ComputedState_update, the_computed. unfold bind at 1. rewrite Hc.
  rewrite (bind_ok _ _ _ _ _ (unlink_eq _ _ _ _ Hcap)).
  unfold new_Capture, alter_computed, emit, runCapture. msimpl.
  rewrite bind_finally.
  unfold update_entry, set_node_capture.
  replace (captureId (log (EvUnlink (LComputed c))
             (unlink_all (LComputed c) (_getters capture) w)))
    with (captureId w) by (simpl; by rewrite E4).
  replace (currentCapture (log (EvCall (LComputed c)) _))
    with (currentCapture w)
    by (simpl; by rewrite unlink_all_currentCapture).
  destruct (run (c_fn this) _) as [[state|e] w']; [|done].
  unfold computed_update_exit. cbv zeta.
  set (w1 := set_currentCapture (currentCapture w) w').
  unfold bind at 1. destruct (computeds w1 !! c) as [this1|]; [|reflexivity].
  destruct (captures w1 !! c_capture this1) as [capture1|] eqn:Hc1.
  - rewrite (bind_ok _ _ _ _ _ (link_eq _ _ _ _ Hc1)).
    set (w2 := log _ _).
    unfold bind at 1. destruct (computeds w2 !! c) as [this2|]; [|reflexivity].
    by destruct (strict_eq _ _).
  - by rewrite (bind_err _ _ _ _ _ (link_absent _ _ _ Hc1)).
Qed.

Lemma EffectState_update_absent e w :
  effects w !! e = None → EffectState_update e w = (Err NoSuchObject, w).
Proof. intros H. unfold EffectState_update, the_effect, bind. by rewrite H. Qed.

(** The guard: a deleted effect is not recomputed. *)
Lemma EffectState_update_deleted e w this :
  effects w !! e = Some this → e_deleted this = true →
  EffectState_update e w = (Ok tt, w).
Proof.
  intros H Hd. unfold EffectState_update, the_effect, bind. by rewrite H, Hd.
Qed.

Lemma EffectState_update_live e w this :
  effects w !! e = Some this → e_deleted this = false →
  EffectState_update e w = bind (call_clear e) (λ _, effect_rerun e) w.
Proof.
  intros H Hd. unfold EffectState_update, the_effect. unfold bind at 1.
  by rewrite H, Hd.
Qed.

Lemma call_clear_eq e w this :
  effects w !! e = Some this →
  call_clear e w
  = match e_clear this with
    | Some clear =>
        match run clear (log (EvClear e) w) with
        | (Ok _, w') => (Ok tt, w')
        | (Err ex, w') => (Err ex, w')
        end
    | None => (Ok tt, w)
    end.
Proof.
  intros H. unfold call_clear, the_effect. unfold bind at 1. rewrite H.
  destruct (e_clear this) as [clear|]; [|done].
  unfold emit. msimpl. unfold bind. by destruct (run clear _) as [[?|?] ?].
Qed.

Lemma effect_rerun_halves e w this capture :
  effects w !! e = Some this →
  captures w !! e_capture this = Some capture →
  effect_rerun e w
  = match run (e_fn this) (update_entry (LEffect e) (_getters capture) w) with
    | (Ok clear, w') => effect_update_exit e (currentCapture w) clear w'
    | (Err ex, w') => (Err ex, set_currentCapture (currentCapture w) w')
    end.
Proof.
  intros He Hcap.
  destruct (unlink_all_fields (LEffect e) (_getters capture) w)
    as (E1 & E2 & E3 & E4 & E5 & E6 & E7 & E8 & E9).
  unfold effect_rerun, the_effect. unfold bind at 1. rewrite He.
  rewrite (bind_ok _ _ _ _ _ (unlink_eq _ _ _ _ Hcap)).
  unfold new_Capture, alter_effect, emit, runCapture. msimpl.
  rewrite bind_finally.
  unfold update_entry, set_node_capture.
  replace (captureId (log (EvUnlink (LEffect e))
             (unlink_all (LEffect e) (_getters capture) w)))
    with (captureId w) by (simpl; by rewrite E4).
  replace (currentCapture (log (EvCall (LEffect e)) _))
    with (currentCapture w)
    by (simpl; by rewrite unlink_all_currentCapture).
  destruct (run (e_fn this) _) as [[clear|ex] w']; [|done].
  unfold effect_update_exit. cbv zeta. msimpl.
  set (w1 := set_effects _ _).
  unfold bind at 1. destruct (effects w1 !! e) as [this1|]; [|reflexivity].
  destruct (captures w1 !! e_capture this1) as [capture1|] eqn:Hc1.
  - by rewrite (link_eq _ _ _ _ Hc1).
  - by rewrite (link_absent _ _ _ Hc1).
Qed.

(** ** Recomputation keeps the heap consistent and the mirror exact *)

Lemma consistent_set_node_capture X cap w :
  consistent w → is_Some (captures w !! cap) →
  (∀ node, X ∉ listeners_of w node) →
  consistent (set_node_capture X cap w).
Proof.
  intros Hw Hcap HX. pose proof Hw as [].
  assert (Hls : ∀ node, listeners_of (set_node_capture X cap w) node
                        = listeners_of w node).
  { intros [r|c']; destruct X as [c|e]; simpl; try done.
    destruct (decide (c = c')) as [->|];
      [rewrite lookup_alter_eq|by rewrite lookup_alter_ne].
    by destruct (computeds w !! c'). }
  assert (Hco : ∀ l, l ≠ X → capture_of (set_node_capture X cap w) l = capture_of w l).
  { intros [c'|e'] Hl; destruct X as [c|e]; simpl; try done;
      rewrite lookup_alter_ne; congruence. }
  assert (HcX : ∀ cap', capture_of (set_node_capture X cap w) X = Some cap' → cap' = cap).
  { intros cap'. destruct X as [c|e]; simpl; rewrite lookup_alter_eq.
    - destruct (computeds w !! c); simpl; congruence.
    - destruct (effects w !! e); simpl; congruence. }
  assert (Hcaps : captures (set_node_capture X cap w) = captures w) by by destruct X.
  assert (Hal : ∀ node, allocated (set_node_capture X cap w) node ↔ allocated w node).
  { intros [r|c']; destruct X as [c|e]; simpl; try done. apply is_Some_alter. }
  split.
  - intros r H. replace (refId (set_node_capture X cap w)) with (refId w)
      by by destruct X.
    apply cs_refs0. by apply (Hal (SRef r)).
  - intros c H. replace (computedId (set_node_capture X cap w)) with (computedId w)
      by by destruct X.
    apply cs_computeds0. by apply (Hal (SComputed c)).
  - intros e. replace (effectId (set_node_capture X cap w)) with (effectId w)
      by by destruct X.
    intros H. apply cs_effects0. destruct X as [c'|e']; simpl in H; [done|].
    by apply is_Some_alter in H.
  - intros cap'. rewrite Hcaps.
    replace (captureId (set_node_capture X cap w)) with (captureId w)
      by by destruct X.
    apply cs_captures0.
  - intros l cap' H. rewrite Hcaps. destruct (decide (l = X)) as [->|Hl].
    + by rewrite (HcX _ H).
    + rewrite (Hco l Hl) in H. by eapply cs_node_capture0.
  - intros cap' capture node. rewrite Hcaps, Hal. apply cs_getters0.
  - intros node l. rewrite Hls. intros H.
    assert (l ≠ X) as Hl by (intros ->; by apply (HX node)).
    unfold getters_of. rewrite (Hco l Hl), Hcaps. by apply cs_edges0.
  - unfold dirty_allocated in *.
    replace (dirtyStates (set_node_capture X cap w)) with (dirtyStates w)
      by by destruct X.
    eapply Forall_impl; [done|]. intros r H. by apply (Hal (SRef r)).
Qed.

Lemma getters_of_eq w X cap capture :
  capture_of w X = Some cap → captures w !! cap = Some capture →
  getters_of w X = _getters capture.
Proof. intros H1 H2. unfold getters_of. by rewrite H1, H2. Qed.

Lemma consistent_update_entry X cap capture w :
  consistent w → capture_of w X = Some cap → captures w !! cap = Some capture →
  consistent (update_entry X (_getters capture) w).
Proof.
  intros Hw Hc Hcap. unfold update_entry.
  set (w1 := unlink_all X (_getters capture) w).
  assert (H1 : consistent w1) by by apply consistent_unlink_all.
  assert (HX : ∀ node, X ∉ listeners_of w1 node).
  { intros node. subst w1. rewrite <- (getters_of_eq w X cap capture Hc Hcap).
    by apply unlink_all_not_listener. }
  destruct (unlink_all_fields X (_getters capture) w)
    as (E1 & E2 & E3 & E4 & E5 & E6 & E7 & E8 & E9).
  fold w1 in E4.
  apply (consistent_same (log (EvCall X)
           (set_node_capture X (captureId w)
              (alloc_capture (log (EvUnlink X) w1))))); try done.
  apply consistent_log. apply consistent_set_node_capture.
  - by apply consistent_alloc_capture, consistent_log.
  - simpl. rewrite E4. rewrite lookup_insert_eq. done.
  - intros node H. apply (HX node). by destruct node.
Qed.

Lemma consistent_computed_update_exit c prev state w :
  consistent w → consistent (snd (computed_update_exit c prev state w)).
Proof.
  intros Hw. unfold computed_update_exit. cbv zeta.
  set (w1 := set_currentCapture prev w).
  assert (H1 : consistent w1) by (revert Hw; by apply consistent_same).
  clearbody w1.
  destruct (computeds w1 !! c) as [this1|] eqn:Hc1; [|done].
  destruct (captures w1 !! c_capture this1) as [capture1|] eqn:Hcap1; [|done].
  set (w2 := log _ _).
  assert (H2 : consistent w2).
  { apply consistent_log.
    eapply (consistent_link_all (LComputed c)); [done| |done].
    simpl. by rewrite Hc1. }
  destruct (computeds w2 !! c) as [this2|]; [|done].
  destruct (strict_eq state (c_state this2)); [done|]. cbn [snd].
  by apply consistent_alter_computed.
Qed.

Lemma consistent_effect_update_exit e prev clear w :
  consistent w → consistent (snd (effect_update_exit e prev clear w)).
Proof.
  intros Hw. unfold effect_update_exit. cbv zeta.
  set (w1 := set_effects _ _).
  assert (H1 : consistent w1).
  { apply consistent_alter_effect; [done|]. revert Hw. by apply consistent_same. }
  clearbody w1.
  destruct (effects w1 !! e) as [this1|] eqn:Hc1; [|done].
  destruct (captures w1 !! e_capture this1) as [capture1|] eqn:Hcap1; [|done].
  cbn [snd]. apply consistent_log.
  eapply (consistent_link_all (LEffect e)); [done| |done].
  simpl. by rewrite Hc1.
Qed.

Lemma ComputedState_update_absent c w :
  computeds w !! c = None → ComputedState_update c w = (Err NoSuchObject, w).
Proof. intros H. unfold ComputedState_update, the_computed, bind. by rewrite H. Qed.

Lemma consistent_ComputedState_update c w :
  consistent w → consistent (snd (ComputedState_update c w)).
Proof.
  intros Hw. destruct (computeds w !! c) as [this|] eqn:Hc;
    [|by rewrite ComputedState_update_absent].
  destruct (cs_node_capture _ Hw (LComputed c) (c_capture this)) as [capture Hcap].
  { simpl. by rewrite Hc. }
  rewrite (ComputedState_update_halves _ _ _ _ Hc Hcap).
  pose proof (consistent_update_entry (LComputed c) _ _ w Hw
                ltac:(by simpl; rewrite Hc) Hcap) as H1.
  apply (run_consistent (c_fn this)) in H1.
  destruct (run (c_fn this) _) as [[state|e] w']; simpl in H1.
  - by apply consistent_computed_update_exit.
  - revert H1. by apply consistent_same.
Qed.

Lemma consistent_call_clear e w :
  consistent w → consistent (snd (call_clear e w)).
Proof.
  intros Hw. destruct (effects w !! e) as [this|] eqn:He.
  - rewrite (call_clear_eq _ _ _ He). destruct (e_clear this) as [clear|]; [|done].
    pose proof (run_consistent clear (log (EvClear e) w)
                  (consistent_log _ _ Hw)) as H.
    by destruct (run clear _) as [[?|?] ?].
  - unfold call_clear, the_effect, bind. by rewrite He.
Qed.

Lemma effect_rerun_absent e w :
  effects w !! e = None → effect_rerun e w = (Err NoSuchObject, w).
Proof. intros H. unfold effect_rerun, the_effect, bind. by rewrite H. Qed.

Lemma consistent_effect_rerun e w :
  consistent w → consistent (snd (effect_rerun e w)).
Proof.
  intros Hw. destruct (effects w !! e) as [this|] eqn:He;
    [|by rewrite effect_rerun_absent].
  destruct (cs_node_capture _ Hw (LEffect e) (e_capture this)) as [capture Hcap].
  { simpl. by rewrite He. }
  rewrite (effect_rerun_halves _ _ _ _ He Hcap).
  pose proof (consistent_update_entry (LEffect e) _ _ w Hw
                ltac:(by simpl; rewrite He) Hcap) as H1.
  apply (run_consistent (e_fn this)) in H1.
  destruct (run (e_fn this) _) as [[clear|ex] w']; simpl in H1.
  - by apply consistent_effect_update_exit.
  - revert H1. by apply consistent_same.
Qed.

Lemma consistent_EffectState_update e w :
  consistent w → consistent (snd (EffectState_update e w)).
Proof.
  intros Hw. destruct (effects w !! e) as [this|] eqn:He;
    [|by rewrite EffectState_update_absent].
  destruct (e_deleted this) eqn:Hd.
  - by rewrite (EffectState_update_deleted _ _ _ He Hd).
  - rewrite (EffectState_update_live _ _ _ He Hd).
    apply consistent_bind; [by apply consistent_call_clear|].
    intros _ w'. apply consistent_effect_rerun.
Qed.

Lemma consistent_listener_update l w :
  consistent w → consistent (snd (listener_update l w)).
Proof.
  intros Hw. destruct l as [c|e]; simpl.
  - by apply consistent_ComputedState_update.
  - apply consistent_bind; [by apply consistent_EffectState_update|done].
Qed.

(** ** Removal and the flush keep the heap consistent *)

#[local] Instance keeps_consistent_preorder : PreOrder keeps_consistent.
Proof.
  split; [intros w H; exact H|]. intros x y z H1 H2 H. apply H2, H1, H.
Qed.

Lemma consistent_unlink X cap w :
  consistent w → consistent (snd (unlink X cap w)).
Proof.
  intros Hw. destruct (captures w !! cap) as [capture|] eqn:Hcap.
  - rewrite (unlink_eq _ _ _ _ Hcap). cbn [snd].
    by apply consistent_log, consistent_unlink_all.
  - unfold unlink, the_capture, bind. by rewrite Hcap.
Qed.

Lemma consistent_ComputedState_remove c w :
  consistent w → consistent (snd (ComputedState_remove c w)).
Proof.
  intros Hw. unfold ComputedState_remove.
  apply consistent_bind.
  - unfold the_computed. by destruct (computeds w !! c).
  - intros this w' Hw'. by apply consistent_unlink.
Qed.

Lemma consistent_EffectState_remove e w :
  consistent w → consistent (snd (EffectState_remove e w)).
Proof.
  intros Hw. unfold EffectState_remove.
  apply consistent_bind; [by apply consistent_call_clear|].
  intros _ w1 Hw1. apply consistent_bind.
  { unfold the_effect. by destruct (effects w1 !! e). }
  intros this w2 Hw2. apply consistent_bind; [by apply consistent_unlink|].
  intros _ w3 Hw3. unfold alter_effect, modify. cbn [snd].
  by apply consistent_alter_effect.
Qed.

Lemma consistent_RefState_update r w :
  consistent w → consistent (snd (RefState_update r w)).
Proof.
  intros Hw. destruct (refs w !! r) as [this|] eqn:Hr.
  - destruct (strict_eq (r_state this) (r_pending this)) eqn:He; [|rename He into Hne].
    + by rewrite (RefState_update_unchanged _ _ _ Hr He).
    + rewrite (RefState_update_changed _ _ _ Hr Hne). cbn [snd].
      apply (consistent_log _ (set_refs _ w)). by apply consistent_alter_ref.
  - unfold RefState_update, the_ref, bind. by rewrite Hr.
Qed.

Lemma consistent_commitDirty dirty : ∀ queue w,
  consistent w → consistent (snd (commitDirty dirty queue w)).
Proof.
  induction dirty as [|r rest IH]; intros queue w Hw; simpl; [done|].
  apply consistent_bind; [by apply consistent_RefState_update|].
  intros [] w1 Hw1; [|by apply IH].
  apply consistent_bind.
  - unfold the_ref. by destruct (refs w1 !! r).
  - intros this w2 Hw2. by apply IH.
Qed.

Lemma consistent_drainQueue fuel queue w res w' :
  drainQueue fuel queue w = Some (res, w') → consistent w → consistent w'.
Proof.
  apply (drainQueue_rel keeps_consistent).
  - intros l w0 H. by apply consistent_listener_update.
  - intros w0 l H. by apply consistent_log.
Qed.

Lemma consistent_updateRound fuel w res w' :
  updateRound fuel w = Some (res, w') → consistent w → consistent w'.
Proof.
  unfold updateRound. intros H Hw.
  pose proof (consistent_commitDirty (dirtyStates w) [] (set_dirtyStates [] w)) as Hc.
  destruct (commitDirty _ _ _) as [[queue|e] w1]; simpl in Hc.
  - eapply consistent_drainQueue; [done|]. apply Hc.
    apply consistent_set_dirty; [constructor|done].
  - injection H as _ <-. apply Hc. apply consistent_set_dirty; [constructor|done].
Qed.

Lemma consistent_updateLoop fuel : ∀ w res w',
  updateLoop fuel w = Some (res, w') → consistent w → consistent w'.
Proof.
  induction fuel as [|fuel IH]; intros w res w'; simpl.
  - destruct (dirtyStates w); [|done]. by intros [= _ <-].
  - destruct (dirtyStates w) eqn:Hd; [by intros [= _ <-]|].
    destruct (updateRound fuel w) as [[[[]|e] w1]|] eqn:Hr; [| |done].
    + intros H Hw. eapply IH; [done|]. by eapply consistent_updateRound.
    + intros [= _ <-] Hw. by eapply consistent_updateRound.
Qed.

Lemma consistent_updateStates fuel w res w' :
  updateStates fuel w = Some (res, w') → consistent w → consistent w'.
Proof.
  unfold updateStates. intros H Hw. eapply consistent_updateLoop; [done|].
  revert Hw. by apply consistent_same.
Qed.

Lemma host_step_consistent w w' : host_step w w' → consistent w → consistent w'.
Proof.
  intros [k p w0|fuel w0 res w0' H|c w0|e w0] Hw.
  - by apply run_consistent.
  - unfold fire_timer in H. destruct (timers w0) as [|n]; [by injection H as _ <-|].
    eapply consistent_updateStates; [done|]. revert Hw. by apply consistent_same.
  - by apply consistent_ComputedState_remove.
  - by apply consistent_EffectState_remove.
Qed.

(** ** The heap invariant in every reachable world *)

(** X1: Every world the host reaches from the initial one, by running
    client scripts at top level, by firing pending timers and by detaching
    nodes, is consistent: objects lie below the allocation counters, the
    capture of every node and every dirty leaf exists, what a capture
    recorded as read exists, and every listener edge is backed by the
    listener's capture. *)
Theorem reachable_consistent (w : World) : reachable w → consistent w.
Proof.
  unfold reachable. revert w. apply rtc_ind_r; [apply consistent_initial|].
  intros w1 w2 _ Hstep IH. by eapply host_step_consistent.
Qed.

Lemma reachable_consistent_witness :
  reachable Scenario.after_setup ∧ consistent Scenario.after_setup.
Proof.
  assert (H : reachable Scenario.after_setup).
  { apply rtc_once. apply (host_script Scenario.setup initial). }
  split; [exact H|]. exact (reachable_consistent Scenario.after_setup H).
Defined.

(** ** The edge mirror after an evaluation *)

Lemma listeners_of_alter_computed (f : ComputedState → ComputedState) c w node :
  (∀ o, c_listeners (f o) = c_listeners o) →
  listeners_of (set_computeds (alter f c (computeds w)) w) node = listeners_of w node.
Proof.
  intros Hf. destruct node as [r|c']; simpl; [done|].
  destruct (decide (c = c')) as [->|];
    [rewrite lookup_alter_eq|by rewrite lookup_alter_ne].
  destruct (computeds w !! c'); simpl; [apply Hf|done].
Qed.

Lemma getters_of_alter_computed (f : ComputedState → ComputedState) c w l :
  (∀ o, c_capture (f o) = c_capture o) →
  getters_of (set_computeds (alter f c (computeds w)) w) l = getters_of w l.
Proof.
  intros Hf. unfold getters_of. simpl.
  replace (capture_of (set_computeds (alter f c (computeds w)) w) l)
    with (capture_of w l); [done|].
  destruct l as [c'|e]; simpl; [|done].
  destruct (decide (c = c')) as [->|];
    [rewrite lookup_alter_eq|by rewrite lookup_alter_ne].
  destruct (computeds w !! c'); simpl; [by rewrite Hf|done].
Qed.

Lemma getters_of_alter_effect (f : EffectState → EffectState) e w l :
  (∀ o, e_capture (f o) = e_capture o) →
  getters_of (set_effects (alter f e (effects w)) w) l = getters_of w l.
Proof.
  intros Hf. unfold getters_of. simpl.
  replace (capture_of (set_effects (alter f e (effects w)) w) l)
    with (capture_of w l); [done|].
  destruct l as [c'|e']; simpl; [done|].
  destruct (decide (e = e')) as [->|];
    [rewrite lookup_alter_eq|by rewrite lookup_alter_ne].
  destruct (effects w !! e'); simpl; [by rewrite Hf|done].
Qed.

Lemma getters_of_link_all X G w l :
  getters_of (link_all X G w) l = getters_of w l.
Proof.
  destruct (link_all_fields X G w) as (_ & _ & _ & _ & _ & E6 & _ & _ & E9).
  unfold getters_of. by rewrite E9, E6.
Qed.

Lemma getters_of_unlink_all X G w l :
  getters_of (unlink_all X G w) l = getters_of w l.
Proof.
  destruct (unlink_all_fields X G w) as (_ & _ & _ & _ & _ & E6 & _ & _ & E9).
  unfold getters_of. by rewrite E9, E6.
Qed.

(** After [link X] to the reads of its own capture, every read node has
    [X] among its listeners. *)
Lemma link_all_linked X w node :
  consistent w → node ∈ getters_of w X →
  X ∈ listeners_of (link_all X (getters_of w X) w) node.
Proof.
  intros Hw Hin. apply elem_of_listeners_link_all. right.
  split_and!; [done..|].
  unfold getters_of in Hin. destruct (capture_of w X) as [cap|]; [|by apply not_elem_of_nil in Hin].
  destruct (captures w !! cap) as [capture|] eqn:Hcap; [|by apply not_elem_of_nil in Hin].
  by eapply cs_getters.
Qed.

Lemma computed_update_exit_linked c prev state w b w' :
  consistent w →
  computed_update_exit c prev state w = (Ok b, w') →
  ∀ node, node ∈ getters_of w' (LComputed c) → LComputed c ∈ listeners_of w' node.
Proof.
  intros Hw. unfold computed_update_exit. cbv zeta.
  set (w1 := set_currentCapture prev w).
  assert (H1 : consistent w1) by (revert Hw; by apply consistent_same).
  clearbody w1.
  destruct (computeds w1 !! c) as [this1|] eqn:Hc1; [|done].
  destruct (captures w1 !! c_capture this1) as [capture1|] eqn:Hcap1; [|done].
  assert (HG : getters_of w1 (LComputed c) = _getters capture1).
  { apply (getters_of_eq _ _ (c_capture this1)); [|done]. simpl. by rewrite Hc1. }
  rewrite <- HG.
  set (w2 := log _ _).
  assert (H2 : ∀ node, node ∈ getters_of w2 (LComputed c) →
                       LComputed c ∈ listeners_of w2 node).
  { intros node Hin. apply (link_all_linked _ w1); [done|].
    by rewrite <- (getters_of_link_all (LComputed c)
                     (getters_of w1 (LComputed c)) w1). }
  clearbody w2.
  destruct (computeds w2 !! c) as [this2|]; [|done].
  destruct (strict_eq state (c_state this2)); intros [= <- <-]; [done|].
  intros node. rewrite listeners_of_alter_computed, getters_of_alter_computed by done.
  apply H2.
Qed.

Lemma effect_update_exit_linked e prev clear w w' :
  consistent w →
  effect_update_exit e prev clear w = (Ok tt, w') →
  ∀ node, node ∈ getters_of w' (LEffect e) → LEffect e ∈ listeners_of w' node.
Proof.
  intros Hw. unfold effect_update_exit. cbv zeta.
  set (w1 := set_effects _ _).
  assert (H1 : consistent w1).
  { apply consistent_alter_effect; [done|]. revert Hw. by apply consistent_same. }
  clearbody w1.
  destruct (effects w1 !! e) as [this1|] eqn:Hc1; [|done].
  destruct (captures w1 !! e_capture this1) as [capture1|] eqn:Hcap1; [|done].
  assert (HG : getters_of w1 (LEffect e) = _getters capture1).
  { apply (getters_of_eq _ _ (e_capture this1)); [|done]. simpl. by rewrite Hc1. }
  rewrite <- HG. intros [= <-] node Hin.
  apply (link_all_linked _ w1); [done|].
  by rewrite <- (getters_of_link_all (LEffect e) (getters_of w1 (LEffect e)) w1).
Qed.

Lemma ComputedState_update_linked w c changed w' :
  consistent w → ComputedState_update c w = (Ok changed, w') →
  ∀ node, node ∈ getters_of w' (LComputed c) → LComputed c ∈ listeners_of w' node.
Proof.
  intros Hw Hup.
  destruct (computeds w !! c) as [this|] eqn:Hc;
    [|by rewrite ComputedState_update_absent in Hup].
  destruct (cs_node_capture _ Hw (LComputed c) (c_capture this)) as [capture Hcap].
  { simpl. by rewrite Hc. }
  rewrite (ComputedState_update_halves _ _ _ _ Hc Hcap) in Hup.
  pose proof (consistent_update_entry (LComputed c) _ _ w Hw
                ltac:(by simpl; rewrite Hc) Hcap) as H1.
  apply (run_consistent (c_fn this)) in H1.
  destruct (run (c_fn this) _) as [[state|ex] w1]; [|done]. simpl in H1.
  by eapply computed_update_exit_linked.
Qed.

Lemma effect_rerun_linked w e w' :
  consistent w → effect_rerun e w = (Ok tt, w') →
  ∀ node, node ∈ getters_of w' (LEffect e) → LEffect e ∈ listeners_of w' node.
Proof.
  intros Hw Hup.
  destruct (effects w !! e) as [this|] eqn:He;
    [|by rewrite effect_rerun_absent in Hup].
  destruct (cs_node_capture _ Hw (LEffect e) (e_capture this)) as [capture Hcap].
  { simpl. by rewrite He. }
  rewrite (effect_rerun_halves _ _ _ _ He Hcap) in Hup.
  pose proof (consistent_update_entry (LEffect e) _ _ w Hw
                ltac:(by simpl; rewrite He) Hcap) as H1.
  apply (run_consistent (e_fn this)) in H1.
  destruct (run (e_fn this) _) as [[clear|ex] w3]; [|done]. simpl in H1.
  by eapply effect_update_exit_linked.
Qed.

(** X2: Recomputing a derived signal, or a live effect, in a consistent
    world: if [_update] returns, the world is consistent again and the
    edge mirror is exact at the node, that is a signal has the node among
    its listeners exactly when the node's new capture recorded a read of
    it. *)
Theorem recompute_mirror_exact (w : World) (l : listener) (changed : bool)
    (w' : World) :
  consistent w →
  (∀ e this, l = LEffect e → effects w !! e = Some this → e_deleted this = false) →
  listener_update l w = (Ok changed, w') →
  consistent w' ∧ mirror_exact w' l.
Proof.
  intros Hw Hlive Hup.
  assert (Hw' : consistent w').
  { replace w' with (snd (listener_update l w)) by by rewrite Hup.
    by apply consistent_listener_update. }
  split; [done|]. intros node. split; [apply (cs_edges _ Hw')|].
  destruct l as [c|e].
  - exact (ComputedState_update_linked w c changed w' Hw Hup node).
  - simpl in Hup. unfold bind in Hup.
    destruct (EffectState_update e w) as [[[]|ex] w2] eqn:Hup2; [|done].
    injection Hup as _ <-.
    destruct (effects w !! e) as [this|] eqn:He;
      [|by rewrite EffectState_update_absent in Hup2].
    rewrite (EffectState_update_live _ _ _ He (Hlive _ _ eq_refl He)) in Hup2.
    unfold bind in Hup2.
    pose proof (consistent_call_clear e w Hw) as Hc.
    destruct (call_clear e w) as [[[]|ex] w1]; [|done]. simpl in Hc.
    by eapply effect_rerun_linked.
Qed.

Lemma after_setup_consistent : consistent Scenario.after_setup.
Proof. apply run_consistent, consistent_initial. Qed.

Lemma watched_leaf_consistent : consistent Scenario.watched_leaf.
Proof. apply run_consistent, consistent_initial. Qed.

Lemma recompute_mirror_exact_witness :
  consistent Scenario.after_setup ∧
  mirror_exact (snd (listener_update (LComputed 0) Scenario.after_setup))
    (LComputed 0).
Proof.
  split; [apply after_setup_consistent|].
  refine (proj2 (recompute_mirror_exact Scenario.after_setup (LComputed 0) false
                   (snd (listener_update (LComputed 0) Scenario.after_setup))
                   after_setup_consistent _ _)).
  - intros e this [=].
  - vm_compute. reflexivity.
Defined.

Lemma computed_exit_linked fn id cap prev state w r w' :
  consistent w → computeds w !! id = None →
  computed_exit fn id cap prev state w = (Ok r, w') →
  ∀ node, node ∈ getters_of w' (LComputed id) → LComputed id ∈ listeners_of w' node.
Proof.
  intros Hw Hid. unfold computed_exit. cbv zeta.
  set (w1 := set_recursive None _).
  assert (H1 : consistent w1) by (revert Hw; by apply consistent_same).
  assert (Hid1 : computeds w1 !! id = None) by done.
  clearbody w1.
  destruct (captures w1 !! cap) as [capture|] eqn:Hcap; [|done].
  intros [= <- <-] node.
  destruct (link_all_fields (LComputed id) (_getters capture) w1)
    as (_ & _ & _ & _ & _ & E6 & _ & _ & _).
  unfold getters_of. simpl. rewrite lookup_insert_eq. simpl. rewrite E6, Hcap. simpl.
  intros Hin.
  assert (Hal : allocated w1 node) by by eapply cs_getters.
  destruct node as [r|c]; simpl.
  - apply (elem_of_listeners_link_all _ _ _ w1 (SRef r)). by right.
  - destruct (decide (id = c)) as [->|Hne].
    { simpl in Hal. rewrite Hid1 in Hal. by destruct Hal. }
    rewrite lookup_insert_ne by done.
    apply (elem_of_listeners_link_all _ _ _ w1 (SComputed c)). by right.
Qed.

Lemma effect_exit_linked fn id cap prev clear w r w' :
  consistent w →
  effect_exit fn id cap prev clear w = (Ok r, w') →
  ∀ node, node ∈ getters_of w' (LEffect id) → LEffect id ∈ listeners_of w' node.
Proof.
  intros Hw. unfold effect_exit. cbv zeta.
  set (w1 := set_recursive None _).
  assert (H1 : consistent w1) by (revert Hw; by apply consistent_same).
  clearbody w1.
  destruct (captures w1 !! cap) as [capture|] eqn:Hcap; [|done].
  intros [= <- <-] node.
  destruct (link_all_fields (LEffect id) (_getters capture) w1)
    as (_ & _ & _ & _ & _ & E6 & _ & _ & _).
  unfold getters_of. simpl. rewrite lookup_insert_eq. simpl. rewrite E6, Hcap. simpl.
  intros Hin.
  assert (Hal : allocated w1 node) by by eapply cs_getters.
  change (LEffect id ∈ listeners_of (link_all (LEffect id) (_getters capture) w1) node).
  apply elem_of_listeners_link_all. by right.
Qed.

(** X3: Constructing a derived signal or an effect in a consistent world: if
    the constructor returns, the new node is stored at the address that
    was free, the world is consistent again and the edge mirror is exact
    at the new node. *)
Theorem construct_mirror_exact (w : World) :
  consistent w →
  (∀ fn id w', ComputedState_constructor fn (run fn) w = (Ok id, w') →
     id = computedId w ∧ is_Some (computeds w' !! id) ∧
     consistent w' ∧ mirror_exact w' (LComputed id)) ∧
  (∀ fn id w', EffectState_constructor fn (run fn) w = (Ok id, w') →
     id = effectId w ∧ is_Some (effects w' !! id) ∧
     consistent w' ∧ mirror_exact w' (LEffect id)).
Proof.
  intros Hw. split.
  - intros fn id w' Hc.
    assert (Hw' : consistent w').
    { replace w' with (snd (ComputedState_constructor fn (run fn) w))
        by by rewrite Hc.
      apply consistent_ComputedState_constructor; [|done].
      exact (run_respects evolves fn). }
    destruct (recursive w) as [m|] eqn:Hrec.
    { unfold ComputedState_constructor in Hc.
      rewrite (bind_err _ _ _ _ _ (assertRecursive_throws "computed" m w Hrec 
                 ltac:(intros [? _]; discriminate))) in Hc. done. }
    rewrite ComputedState_constructor_halves in Hc by done.
    pose proof (consistent_computed_entry w Hw) as H1.
    destruct (run_evolves fn (computed_entry w)) as [He Hcs]. specialize (Hcs H1).
    assert (Hfresh : computeds w !! computedId w = None).
    { apply eq_None_not_Some. intros H%(cs_computeds _ Hw). lia. }
    destruct (run fn _) as [[state|e] w1]; [|done]. simpl in *.
    assert (Hfresh1 : computeds w1 !! computedId w = None).
    { pose proof (ex_computeds _ _ He (computedId w) ltac:(simpl; lia)) as H.
      simpl in H. rewrite Hfresh in H. by apply fmap_None in H. }
    assert (id = computedId w) as ->.
    { unfold computed_exit in Hc. cbv zeta in Hc.
      destruct (captures _ !! captureId w); by injection Hc. }
    split_and!; [done| |done|].
    + unfold computed_exit in Hc. cbv zeta in Hc.
      destruct (captures _ !! captureId w); [|done]. injection Hc as <-.
      simpl. by rewrite lookup_insert_eq.
    + intros node. split; [apply (cs_edges _ Hw')|].
      by eapply computed_exit_linked.
  - intros fn id w' Hc.
    assert (Hw' : consistent w').
    { replace w' with (snd (EffectState_constructor fn (run fn) w))
        by by rewrite Hc.
      apply consistent_EffectState_constructor; [|done].
      exact (run_respects evolves fn). }
    destruct (decide (recursive w = Some MComputed)) as [Hrec|Hrec].
    { unfold EffectState_constructor in Hc.
      rewrite (bind_err _ _ _ _ _ (assertRecursive_throws "effect" _ w Hrec 
                 ltac:(intros [_ ?]; discriminate))) in Hc. done. }
    rewrite EffectState_constructor_halves in Hc by done.
    pose proof (consistent_effect_entry w Hw) as H1.
    destruct (run_evolves fn (effect_entry w)) as [He Hcs]. specialize (Hcs H1).
    destruct (run fn _) as [[clear|e] w1]; [|done]. simpl in *.
    assert (id = effectId w) as ->.
    { unfold effect_exit in Hc. cbv zeta in Hc.
      destruct (captures _ !! captureId w); by injection Hc. }
    split_and!; [done| |done|].
    + unfold effect_exit in Hc. cbv zeta in Hc.
      destruct (captures _ !! captureId w); [|done]. injection Hc as <-.
      simpl. by rewrite lookup_insert_eq.
    + intros node. split; [apply (cs_edges _ Hw')|].
      by eapply effect_exit_linked.
Qed.

Lemma construct_mirror_exact_witness :
  consistent Scenario.watched_leaf ∧
  LComputed 0
  ∈ listeners_of
      (snd (ComputedState_constructor (GetRef 0 (λ v, Ret v))
              (run (GetRef 0 (λ v, Ret v))) Scenario.watched_leaf))
      (SRef 0) ∧
  LEffect 1
  ∈ listeners_of
      (snd (EffectState_constructor (GetRef 0 (λ _, RetVoid))
              (run (GetRef 0 (λ _, RetVoid))) Scenario.watched_leaf))
      (SRef 0).
Proof.
  split; [apply watched_leaf_consistent|].
  destruct (construct_mirror_exact Scenario.watched_leaf watched_leaf_consistent)
    as [Hc He].
  split.
  - apply (proj2 (proj2 (proj2
             (Hc (GetRef 0 (λ v, Ret v)) 0
                (snd (ComputedState_constructor (GetRef 0 (λ v, Ret v))
                        (run (GetRef 0 (λ v, Ret v))) Scenario.watched_leaf))
                ltac:(vm_compute; reflexivity))))).
    vm_compute. apply list_elem_of_In. simpl. tauto.
  - apply (proj2 (proj2 (proj2
             (He (GetRef 0 (λ _, RetVoid)) 1
                (snd (EffectState_constructor (GetRef 0 (λ _, RetVoid))
                        (run (GetRef 0 (λ _, RetVoid))) Scenario.watched_leaf))
                ltac:(vm_compute; reflexivity))))).
    vm_compute. apply list_elem_of_In. simpl. tauto.
Defined.

(** ** What [ComputedState._update] reports *)

Lemma extends_listeners_delete l node w : extends w (listeners_delete l node w).
Proof.
  destruct node; simpl; [by apply extends_alter_ref|by apply extends_alter_computed].
Qed.

Lemma extends_unlink_all l getters w : extends w (unlink_all l getters w).
Proof. apply (foldl_rel extends). intros. apply extends_listeners_delete. Qed.

Lemma c_core_eq o1 o2 :
  c_core o1 = c_core o2 →
  c_fn o1 = c_fn o2 ∧ c_old o1 = c_old o2 ∧ c_state o1 = c_state o2 ∧
  c_capture o1 = c_capture o2 ∧ c_id o1 = c_id o2.
Proof. destruct o1, o2. unfold c_core, c_set_listeners. simpl. by intros [=]. Qed.

Lemma extends_computed_lookup w w' c o :
  extends w w' → c < computedId w → computeds w !! c = Some o →
  ∃ o', computeds w' !! c = Some o' ∧ c_core o' = c_core o.
Proof.
  intros He Hc Ho. pose proof (ex_computeds _ _ He c Hc) as H.
  rewrite Ho in H. simpl in H. destruct (computeds w' !! c) as [o'|]; [|done].
  exists o'. split; [done|]. simpl in H. congruence.
Qed.

(** X4: In a consistent world, when [_update] of a derived signal returns:
    the flag it returns is the outcome of the code's comparison, true
    exactly when the value now stored is not strictly equal ([===]) to the
    one stored before, so also when both are [NaN]; if the flag is true
    the previous value is the one that was stored before, if not both
    values are as they were.  The function is still the same. *)
Theorem recompute_reports_change (w : World) (c : nat) (this : ComputedState)
    (changed : bool) (w' : World) :
  consistent w → computeds w !! c = Some this →
  ComputedState_update c w = (Ok changed, w') →
  ∃ this', computeds w' !! c = Some this' ∧
    changed = negb (strict_eq (c_state this') (c_state this)) ∧
    c_old this' = (if changed then c_state this else c_old this) ∧
    c_fn this' = c_fn this.
Proof.
  intros Hw Hc Hup.
  destruct (cs_node_capture _ Hw (LComputed c) (c_capture this)) as [capture Hcap].
  { simpl. by rewrite Hc. }
  rewrite (ComputedState_update_halves _ _ _ _ Hc Hcap) in Hup.
  pose proof (cs_computeds _ Hw c ltac:(by rewrite Hc)) as Hlt.
  (* the node in the world in which the function is called *)
  destruct (extends_computed_lookup _ _ c this
              (extends_unlink_all (LComputed c) (_getters capture) w) Hlt Hc)
    as (o1 & Ho1 & Ecore1).
  set (w0 := update_entry (LComputed c) (_getters capture) w) in *.
  assert (H0 : computeds w0 !! c = Some (c_set_capture (captureId w) o1)).
  { subst w0. unfold update_entry. simpl. by rewrite lookup_alter_eq, Ho1. }
  assert (Hlt0 : c < computedId w0).
  { subst w0. unfold update_entry. simpl.
    destruct (unlink_all_fields (LComputed c) (_getters capture) w)
      as (_ & E2 & _). by rewrite E2. }
  pose proof (run_extends (c_fn this) w0) as He.
  destruct (run (c_fn this) w0) as [[state|ex] w1]; [|done]. simpl in He.
  destruct (extends_computed_lookup _ _ c _ He Hlt0 H0) as (o2 & Ho2 & Ecore2).
  unfold computed_update_exit in Hup. cbv zeta in Hup.
  change (computeds (set_currentCapture (currentCapture w) w1))
    with (computeds w1) in Hup.
  rewrite Ho2 in Hup.
  destruct (captures _ !! c_capture o2) as [capture2|]; [|done].
  set (w2 := set_currentCapture (currentCapture w) w1) in *.
  assert (Hlt2 : c < computedId w2).
  { pose proof (ex_computedId _ _ He). subst w2. simpl. lia. }
  destruct (extends_computed_lookup _ _ c o2
              (extends_link_all (LComputed c) (_getters capture2) w2) Hlt2 Ho2)
    as (o3 & Ho3 & Ecore3).
  change (computeds (log (EvLink (LComputed c))
            (link_all (LComputed c) (_getters capture2) w2)))
    with (computeds (link_all (LComputed c) (_getters capture2) w2)) in Hup.
  rewrite Ho3 in Hup.
  apply c_core_eq in Ecore1 as (F1 & O1 & S1 & _).
  apply c_core_eq in Ecore2 as (F2 & O2 & S2 & _).
  apply c_core_eq in Ecore3 as (F3 & O3 & S3 & _).
  simpl in F2, O2, S2.
  assert (Es : c_state o3 = c_state this) by congruence.
  assert (Eo : c_old o3 = c_old this) by congruence.
  assert (Ef : c_fn o3 = c_fn this) by congruence.
  destruct (strict_eq state (c_state o3)) eqn:Hd; injection Hup as <- <-.
  - exists o3. split_and!; [done| |done..].
    pose proof (strict_eq_true _ _ Hd) as ->. by rewrite <- Es, Hd.
  - exists (c_set_state state o3). simpl. rewrite lookup_alter_eq, Ho3.
    split_and!; [done| |done..].
    simpl. by rewrite <- Es, Hd.
Qed.

Lemma recompute_reports_change_witness :
  consistent Scenario.after_setup ∧
  (∃ this', computeds (snd (ComputedState_update 0 Scenario.after_setup)) !! 0
            = Some this' ∧ c_state this' = VNum 2) ∧
  consistent Scenario.nan_computed ∧
  fst (ComputedState_update 0 Scenario.nan_computed) = Ok true ∧
  ∃ this', computeds (snd (ComputedState_update 0 Scenario.nan_computed)) !! 0
           = Some this' ∧
           negb (strict_eq (c_state this') VNaN) = true ∧ c_old this' = VNaN.
Proof.
  assert (Hn : consistent Scenario.nan_computed)
    by apply run_consistent, consistent_initial.
  split; [apply after_setup_consistent|]. split; [|split; [exact Hn|]].
  - destruct (recompute_reports_change Scenario.after_setup 0
                (mkComputedState (GetRef 0 (λ v, Ret (Scenario.double v)))
                   (VNum 2) (VNum 2) 0 0 [LEffect 0])
                false (snd (ComputedState_update 0 Scenario.after_setup))
                after_setup_consistent)
      as (this' & H1 & H2 & _).
    + vm_compute. reflexivity.
    + vm_compute. reflexivity.
    + exists this'. split; [exact H1|].
      symmetry in H2. apply negb_false_iff in H2. exact (strict_eq_true _ _ H2).
  - split; [vm_compute; reflexivity|].
    destruct (recompute_reports_change Scenario.nan_computed 0
                (mkComputedState (Ret VNaN) VNaN VNaN 0 0 [])
                true (snd (ComputedState_update 0 Scenario.nan_computed)) Hn)
      as (this' & H1 & H2 & H3 & _).
    + vm_compute. reflexivity.
    + vm_compute. reflexivity.
    + exists this'. split; [exact H1|]. split; [symmetry; exact H2|exact H3].
Defined.

(** ** Detaching a node *)

Lemma call_clear_extends e w : extends w (snd (call_clear e w)).
Proof.
  destruct (effects w !! e) as [this|] eqn:He.
  - rewrite (call_clear_eq _ _ _ He). destruct (e_clear this) as [clear|]; [|done].
    pose proof (run_extends clear (log (EvClear e) w)) as H.
    destruct (run clear _) as [[?|?] ?]; simpl in *;
      (etrans; [|exact H]); by apply extends_same.
  - unfold call_clear, the_effect, bind. by rewrite He.
Qed.

Lemma call_clear_keeps_effect e w this :
  consistent w → effects w !! e = Some this →
  effects (snd (call_clear e w)) !! e = Some this.
Proof.
  intros Hw He. rewrite (ex_effects _ _ (call_clear_extends e w)); [done|].
  apply (cs_effects _ Hw). by rewrite He.
Qed.

(** What the cleanup step logs: its own entry, if there is a cleanup,
    and then what the cleanup constructs. *)
Lemma call_clear_trace e w this :
  effects w !! e = Some this →
  ∃ tc, trace (snd (call_clear e w))
        = trace w ++ (match e_clear this with
                      | Some _ => [EvClear e]
                      | None => []
                      end) ++ tc ∧
        Forall construction_event tc.
Proof.
  intros He. rewrite (call_clear_eq _ _ _ He).
  destruct (e_clear this) as [clear|].
  - destruct (run_trace clear (log (EvClear e) w)) as (tc & Ht & Hf).
    exists tc. split; [|done].
    destruct (run clear _) as [[?|?] ?]; simpl in *; by rewrite Ht, <- app_assoc.
  - exists []. simpl. by rewrite app_nil_r.
Qed.

(** X5: [EffectState._remove] in a consistent world.  If it returns: the
    world is consistent, the effect is marked deleted, it is no signal's
    listener, and a later [_update] of it changes nothing at all; the log
    shows the cleanup, if the effect had one, entered once, before the
    unlinking, and the function not called.  If it throws, it is the
    cleanup that threw, and nothing was done after it: the effect is
    neither unlinked nor marked. *)
Theorem effect_remove_inert (w : World) (e : nat) (this : EffectState) :
  consistent w → effects w !! e = Some this →
  match EffectState_remove e w with
  | (Ok _, w') =>
      consistent w' ∧
      effects w' !! e = Some (e_set_deleted true this) ∧
      (∀ node, LEffect e ∉ listeners_of w' node) ∧
      EffectState_update e w' = (Ok tt, w') ∧
      ∃ tc, trace w'
            = trace w ++ (match e_clear this with
                          | Some _ => [EvClear e]
                          | None => []
                          end) ++ tc ++ [EvUnlink (LEffect e)] ∧
            Forall construction_event tc
  | (Err ex, w') => call_clear e w = (Err ex, w')
  end.
Proof.
  intros Hw He.
  pose proof (consistent_EffectState_remove e w Hw) as Hw'.
  pose proof (consistent_call_clear e w Hw) as Hw1.
  pose proof (call_clear_keeps_effect e w this Hw He) as He1.
  destruct (call_clear_trace e w this He) as (tc & Htc & Hf).
  unfold EffectState_remove in *. unfold bind at 1. unfold bind at 1 in Hw'.
  destruct (call_clear e w) as [[[]|ex] w1]; [|done]. simpl in Hw1, He1, Htc.
  unfold the_effect in *. unfold bind at 1. unfold bind at 1 in Hw'.
  rewrite He1 in *.
  destruct (cs_node_capture _ Hw1 (LEffect e) (e_capture this)) as [capture Hcap].
  { simpl. by rewrite He1. }
  rewrite (bind_ok _ _ _ _ _ (unlink_eq _ _ _ _ Hcap)) in *.
  unfold alter_effect, modify in *. cbn [snd] in Hw'.
  destruct (unlink_all_fields (LEffect e) (_getters capture) w1)
    as (_ & _ & _ & _ & E5 & _ & _ & E8 & _).
  assert (He' : effects
            (set_effects
               (alter (e_set_deleted true) e
                  (effects (log (EvUnlink (LEffect e))
                              (unlink_all (LEffect e) (_getters capture) w1))))
               (log (EvUnlink (LEffect e))
                  (unlink_all (LEffect e) (_getters capture) w1))) !! e
          = Some (e_set_deleted true this)).
  { simpl. by rewrite lookup_alter_eq, E5, He1. }
  split_and!; [done|done| | |].
  - intros node Hin.
    apply (unlink_all_not_listener (LEffect e) w1 node Hw1).
    rewrite (getters_of_eq w1 (LEffect e) (e_capture this) capture);
      [|by simpl; rewrite He1|done].
    by destruct node.
  - by eapply EffectState_update_deleted.
  - exists tc. split; [|done]. simpl. rewrite E8, Htc. by rewrite <- !app_assoc.
Qed.

Lemma effect_remove_inert_witness :
  consistent Scenario.after_setup ∧
  EffectState_update 0 (snd (EffectState_remove 0 Scenario.after_setup))
  = (Ok tt, snd (EffectState_remove 0 Scenario.after_setup)).
Proof.
  split; [apply after_setup_consistent|].
  pose proof (effect_remove_inert Scenario.after_setup 0
                (mkEffectState (GetComputed 0 (λ _, RetVoid)) 1 None 0 false)
                after_setup_consistent) as H.
  destruct (EffectState_remove 0 Scenario.after_setup) as [[[]|ex] w'] eqn:E.
  - apply H. vm_compute. reflexivity.
  - vm_compute in E. discriminate E.
Defined.

Lemma update_entry_trace X G w :
  trace (update_entry X G w) = trace w ++ [EvUnlink X; EvCall X].
Proof.
  destruct (unlink_all_fields X G w) as (_ & _ & _ & _ & _ & _ & _ & E8 & _).
  unfold update_entry. destruct X; simpl; rewrite E8; by rewrite <- app_assoc.
Qed.

Lemma computed_update_exit_trace c prev state w :
  trace_grows w (snd (computed_update_exit c prev state w)).
Proof.
  unfold computed_update_exit. cbv zeta.
  set (w1 := set_currentCapture prev w).
  assert (H1 : trace w1 = trace w) by done. clearbody w1.
  destruct (computeds w1 !! c) as [this1|]; [|by apply trace_ext_same].
  destruct (captures w1 !! c_capture this1) as [capture1|];
    [|by apply trace_ext_same].
  destruct (link_all_fields (LComputed c) (_getters capture1) w1)
    as (_ & _ & _ & _ & _ & _ & _ & E8 & _).
  assert (trace_grows w (log (EvLink (LComputed c))
            (link_all (LComputed c) (_getters capture1) w1))) as H.
  { exists [EvLink (LComputed c)]. simpl. rewrite E8, H1. split; [done|].
    by constructor. }
  destruct (computeds _ !! c) as [this2|]; [|done].
  by destruct (strict_eq state (c_state this2)).
Qed.

(** A derived signal that exists is recomputed by [_update] whatever
    happened to it before: the function is called. *)
Lemma ComputedState_update_calls w c this :
  consistent w → computeds w !! c = Some this →
  EvCall (LComputed c) ∈ trace (snd (ComputedState_update c w)).
Proof.
  intros Hw Hc.
  destruct (cs_node_capture _ Hw (LComputed c) (c_capture this)) as [capture Hcap].
  { simpl. by rewrite Hc. }
  rewrite (ComputedState_update_halves _ _ _ _ Hc Hcap).
  set (w0 := update_entry (LComputed c) (_getters capture) w).
  assert (H0 : EvCall (LComputed c) ∈ trace w0).
  { subst w0. rewrite update_entry_trace. set_solver. }
  pose proof (run_respects trace_grows (c_fn this) w0) as H1.
  destruct (run (c_fn this) w0) as [[state|ex] w1]; simpl in H1.
  - eapply trace_grows_elem; [apply computed_update_exit_trace|].
    by eapply trace_grows_elem.
  - simpl. by eapply trace_grows_elem.
Qed.

(** X6: [ComputedState._remove] in a consistent world returns; afterwards
    the world is consistent, the derived signal is no signal's listener,
    its value and its capture are as before, and the log has gained the
    unlinking only.  No flag is set: a later [_update] calls the function
    again, and if it returns the signal is linked to what it read. *)
Theorem computed_remove_detaches (w : World) (c : nat) (this : ComputedState) :
  consistent w → computeds w !! c = Some this →
  ∃ w', ComputedState_remove c w = (Ok tt, w') ∧
    consistent w' ∧
    (∀ node, LComputed c ∉ listeners_of w' node) ∧
    c_core <$> computeds w' !! c = Some (c_core this) ∧
    trace w' = trace w ++ [EvUnlink (LComputed c)] ∧
    EvCall (LComputed c) ∈ trace (snd (ComputedState_update c w')) ∧
    ∀ changed w'', ComputedState_update c w' = (Ok changed, w'') →
      mirror_exact w'' (LComputed c).
Proof.
  intros Hw Hc.
  destruct (cs_node_capture _ Hw (LComputed c) (c_capture this)) as [capture Hcap].
  { simpl. by rewrite Hc. }
  pose proof (consistent_ComputedState_remove c w Hw) as Hw'.
  unfold ComputedState_remove, the_computed in *. unfold bind in *.
  rewrite Hc in *. rewrite (unlink_eq _ _ _ _ Hcap) in *. cbn [snd] in Hw'.
  eexists. split; [reflexivity|].
  destruct (unlink_all_fields (LComputed c) (_getters capture) w)
    as (_ & _ & _ & _ & _ & _ & _ & E8 & _).
  destruct (extends_computed_lookup _ _ c this
              (extends_unlink_all (LComputed c) (_getters capture) w)
              (cs_computeds _ Hw c ltac:(by rewrite Hc)) Hc) as (o1 & Ho1 & Ecore1).
  split_and!; [done| | | | |].
  - intros node Hin.
    apply (unlink_all_not_listener (LComputed c) w node Hw).
    rewrite (getters_of_eq w (LComputed c) (c_capture this) capture);
      [|by simpl; rewrite Hc|done].
    by destruct node.
  - simpl. rewrite Ho1. simpl. by rewrite Ecore1.
  - simpl. by rewrite E8.
  - eapply ComputedState_update_calls; [done|]. simpl. exact Ho1.
  - intros changed w'' Hup node. split.
    + apply cs_edges.
      replace w'' with (snd (ComputedState_update c
        (log (EvUnlink (LComputed c))
           (unlink_all (LComputed c) (_getters capture) w)))) by by rewrite Hup.
      by apply consistent_ComputedState_update.
    + by eapply ComputedState_update_linked.
Qed.

Lemma computed_remove_detaches_witness :
  consistent Scenario.after_setup ∧
  ∃ w', ComputedState_remove 0 Scenario.after_setup = (Ok tt, w') ∧
        ∀ node, LComputed 0 ∉ listeners_of w' node.
Proof.
  split; [apply after_setup_consistent|].
  destruct (computed_remove_detaches Scenario.after_setup 0
              (mkComputedState (GetRef 0 (λ v, Ret (Scenario.double v)))
                 (VNum 2) (VNum 2) 0 0 [LEffect 0])
              after_setup_consistent)
    as (w' & H1 & _ & H2 & _).
  - vm_compute. reflexivity.
  - exists w'. split; [exact H1|exact H2].
Defined.

(** ** What recomputing an effect logs *)

Lemma effect_update_exit_ok e prev clear w this :
  consistent w → effects w !! e = Some this →
  ∃ w', effect_update_exit e prev clear w = (Ok tt, w') ∧
        trace w' = trace w ++ [EvLink (LEffect e)].
Proof.
  intros Hw He. unfold effect_update_exit. cbv zeta.
  set (w1 := set_effects _ _).
  assert (H1 : consistent w1).
  { apply consistent_alter_effect; [done|]. revert Hw. by apply consistent_same. }
  assert (He1 : effects w1 !! e = Some (e_set_clear clear this)).
  { subst w1. simpl. by rewrite lookup_alter_eq, He. }
  assert (Ht : trace w1 = trace w) by done.
  clearbody w1. rewrite He1.
  destruct (cs_node_capture _ H1 (LEffect e) (e_capture this)) as [capture Hcap].
  { simpl. by rewrite He1. }
  simpl. rewrite Hcap. eexists. split; [reflexivity|].
  destruct (link_all_fields (LEffect e) (_getters capture) w1)
    as (_ & _ & _ & _ & _ & _ & _ & E8 & _).
  simpl. by rewrite E8, Ht.
Qed.

(** X7: Recomputing an effect that is not deleted, in a consistent world.
    The log grows by: the entry of the cleanup, if the effect has one;
    what the cleanup constructs; and, unless the cleanup threw, the
    unlinking, the call of the function, what the function reads and
    constructs, and, unless the function threw, the linking.  The cleanup
    is thus entered once and before the unlinking and the call; [_update]
    throws only what the cleanup or the function throws. *)
Theorem effect_recompute_order (w : World) (e : nat) (this : EffectState) :
  consistent w → effects w !! e = Some this → e_deleted this = false →
  ∃ tc rest,
    trace (snd (EffectState_update e w))
    = trace w ++ (match e_clear this with
                  | Some _ => [EvClear e]
                  | None => []
                  end) ++ tc ++ rest ∧
    Forall construction_event tc ∧
    match call_clear e w with
    | (Err ex, _) => rest = [] ∧ fst (EffectState_update e w) = Err ex
    | (Ok _, w1) =>
        ∃ tb tl, rest = EvUnlink (LEffect e) :: EvCall (LEffect e) :: tb ++ tl ∧
          Forall construction_event tb ∧
          match run (e_fn this)
                  (update_entry (LEffect e) (getters_of w1 (LEffect e)) w1) with
          | (Ok _, _) => tl = [EvLink (LEffect e)] ∧
                         fst (EffectState_update e w) = Ok tt
          | (Err ex, _) => tl = [] ∧ fst (EffectState_update e w) = Err ex
          end
    end.
Proof.
  intros Hw He Hd.
  pose proof (EffectState_update_live _ _ _ He Hd) as Hlive.
  pose proof (consistent_call_clear e w Hw) as Hw1.
  pose proof (call_clear_keeps_effect e w this Hw He) as He1.
  destruct (call_clear_trace e w this He) as (tc & Htc & Hf).
  destruct (call_clear e w) as [[[]|ex] w1] eqn:Hcc; simpl in Hw1, He1, Htc.
  2:{ rewrite (bind_err _ _ _ _ _ Hcc) in Hlive. rewrite Hlive.
      exists tc, []. simpl. rewrite app_nil_r. done. }
  rewrite (bind_ok _ _ _ _ _ Hcc) in Hlive. rewrite Hlive. clear Hlive.
  destruct (cs_node_capture _ Hw1 (LEffect e) (e_capture this)) as [capture Hcap].
  { simpl. by rewrite He1. }
  rewrite (effect_rerun_halves _ _ _ _ He1 Hcap).
  rewrite (getters_of_eq w1 (LEffect e) (e_capture this) capture);
    [|by simpl; rewrite He1|done].
  set (w0 := update_entry (LEffect e) (_getters capture) w1).
  pose proof (consistent_update_entry (LEffect e) _ _ w1 Hw1
                ltac:(by simpl; rewrite He1) Hcap) as Hw0.
  fold w0 in Hw0.
  assert (He0 : effects w0 !! e = Some (e_set_capture (captureId w1) this)).
  { subst w0. unfold update_entry. simpl.
    destruct (unlink_all_fields (LEffect e) (_getters capture) w1)
      as (_ & _ & _ & _ & E5 & _). by rewrite lookup_alter_eq, E5, He1. }
  assert (Htr0 : trace w0 = trace w1 ++ [EvUnlink (LEffect e); EvCall (LEffect e)])
    by apply update_entry_trace.
  clearbody w0.
  destruct (run_trace (e_fn this) w0) as (tb & Htb & Hfb).
  pose proof (run_consistent (e_fn this) w0 Hw0) as Hw2.
  pose proof (run_extends (e_fn this) w0) as Hext.
  destruct (run (e_fn this) w0) as [[clear|ex] w2]; simpl in Htb, Hw2, Hext.
  - assert (He2 : effects w2 !! e = Some (e_set_capture (captureId w1) this)).
    { rewrite (ex_effects _ _ Hext); [done|].
      apply (cs_effects _ Hw0). by rewrite He0. }
    destruct (effect_update_exit_ok e (currentCapture w1) clear w2 _ Hw2 He2)
      as (w' & Hex & Ht').
    rewrite Hex. cbn [fst snd].
    exists tc, (EvUnlink (LEffect e) :: EvCall (LEffect e) :: tb ++ [EvLink (LEffect e)]).
    split_and!; [|done|].
    + rewrite Ht', Htb, Htr0, Htc. rewrite <- !app_assoc. done.
    + by exists tb, [EvLink (LEffect e)].
  - cbn [fst snd].
    exists tc, (EvUnlink (LEffect e) :: EvCall (LEffect e) :: tb ++ []).
    split_and!; [|done|].
    + simpl. rewrite Htb, Htr0, Htc.
      rewrite app_nil_r. rewrite <- !app_assoc. done.
    + by exists tb, [].
Qed.

Lemma effect_recompute_order_witness :
  consistent Scenario.after_setup ∧
  ∃ tc rest,
    trace (snd (EffectState_update 0 Scenario.after_setup))
    = trace Scenario.after_setup ++ [] ++ tc ++ rest ∧
    Forall construction_event tc.
Proof.
  split; [apply after_setup_consistent|].
  destruct (effect_recompute_order Scenario.after_setup 0
              (mkEffectState (GetComputed 0 (λ _, RetVoid)) 1 None 0 false)
              after_setup_consistent)
    as (tc & rest & H1 & H2 & _).
  - vm_compute. reflexivity.
  - reflexivity.
  - exists tc, rest. split; [exact H1|exact H2].
Defined.

(** ** A round of the flush: commits first *)

Lemma commitDirty_trace dirty : ∀ queue w,
  ∃ t, trace (snd (commitDirty dirty queue w)) = trace w ++ t ∧ Forall is_commit t.
Proof.
  induction dirty as [|r rest IH]; intros queue w; simpl.
  - exists []. by rewrite app_nil_r.
  - destruct (refs w !! r) as [this|] eqn:Hr.
    + destruct (strict_eq (r_state this) (r_pending this)) eqn:He; [|rename He into Hne].
      * unfold bind at 1. rewrite (RefState_update_unchanged _ _ _ Hr He). apply IH.
      * unfold bind at 1. rewrite (RefState_update_changed _ _ _ Hr Hne).
        set (w1 := set_trace _ _).
        assert (Ht1 : trace w1 = trace w ++ [EvCommit r (r_state this) (r_pending this)])
          by done.
        clearbody w1. unfold bind, the_ref.
        destruct (refs w1 !! r) as [this1|].
        -- destruct (IH (queue ++ r_listeners this1) w1) as (t & Ht & Hf).
           exists (EvCommit r (r_state this) (r_pending this) :: t).
           rewrite Ht, Ht1, <- app_assoc. split; [done|]. by constructor.
        -- exists [EvCommit r (r_state this) (r_pending this)]. simpl.
           split; [done|]. by constructor.
    + unfold RefState_update, the_ref, bind. rewrite Hr. simpl.
      exists []. by rewrite app_nil_r.
Qed.

Lemma listener_update_trace (P : event → Prop) l :
  (∀ ev, construction_event ev → P ev) →
  (∀ l', P (EvUnlink l')) → (∀ e, P (EvClear e)) →
  respects (trace_ext P) (listener_update l).
Proof.
  intros HP HU HC. pose proof (trace_ext_frame P HP).
  destruct l as [c|e]; simpl.
  - unfold ComputedState_update, new_Capture, alter_computed, emit.
    respects_with ltac:(run_frame (trace_ext P)); try trace_atom;
      apply trace_ext_emit; first [apply HU | by apply HP].
  - unfold EffectState_update, call_clear, new_Capture, alter_effect, emit.
    respects_with ltac:(run_frame (trace_ext P)); try trace_atom;
      apply trace_ext_emit; first [apply HU | apply HC | by apply HP].
Qed.

Lemma drainQueue_no_commit fuel queue w res w' :
  drainQueue fuel queue w = Some (res, w') →
  trace_ext (λ ev, ¬ is_commit ev) w w'.
Proof.
  apply drainQueue_rel; [apply _| |].
  - intros l. apply listener_update_trace; try (intros; simpl; tauto).
    intros []; simpl; tauto.
  - intros w0 l. apply trace_ext_emit. simpl. tauto.
Qed.

(** X8: One round in a consistent world, if it comes to an end: what it
    logs is a stretch of commits followed by a stretch without any commit,
    so every commit of the round precedes every recomputation; and at the
    end each leaf that was in the dirty set holds the value that was
    pending for it, each other leaf the value it held. *)
Theorem round_commits_first (w : World) (fuel : nat) (res : Result unit)
    (w' : World) :
  consistent w → updateRound fuel w = Some (res, w') →
  ∃ tc td, trace w' = trace w ++ tc ++ td ∧
    Forall is_commit tc ∧ Forall (λ ev, ¬ is_commit ev) td ∧
    ∀ r this, refs w !! r = Some this →
      state_of w' r
      = Some (if decide (r ∈ dirtyStates w) then r_pending this else r_state this).
Proof.
  intros Hw Hround. unfold updateRound in Hround.
  destruct (commitDirty_trace (dirtyStates w) [] (set_dirtyStates [] w))
    as (tc & Htc & Hfc).
  assert (Hall : Forall (λ r', is_Some (refs (set_dirtyStates [] w) !! r'))
                   (dirtyStates w)) by apply (cs_dirty _ Hw).
  destruct (commitDirty (dirtyStates w) [] (set_dirtyStates [] w))
    as [[queue|ex] w1] eqn:Hc; simpl in Htc.
  - pose proof (drainQueue_no_commit _ _ _ _ _ Hround) as (td & Htd & Hfd).
    exists tc, td. split_and!; [by rewrite Htd, Htc, app_assoc|done..|].
    intros r this Hr.
    destruct (commitDirty_ref r (dirtyStates w) [] (set_dirtyStates [] w) this
                Hall Hr)
      as (q' & w1' & t & Hc' & _ & _ & Hid & _ & (this' & G1 & _ & _ & G4) & _).
    rewrite Hc in Hc'. injection Hc' as <- <-.
    set (b := if decide (r ∈ dirtyStates w) then r_pending this else r_state this).
    assert (Hb : state_of w1 r = Some b).
    { unfold state_of, b. rewrite G1. simpl. by rewrite G4. }
    apply (drainQueue_holds_value r b) in Hround.
    apply Hround. split; [|done]. rewrite Hid. simpl.
    apply (cs_refs _ Hw). by rewrite Hr.
  - destruct (dirtyStates w) as [|r0 rest] eqn:Hd; [done|].
    exfalso.
    apply Forall_cons in Hall as [[this0 H0] _].
    destruct (commitDirty_ref r0 (r0 :: rest) [] (set_dirtyStates [] w) this0)
      as (q' & w1' & t & Hc' & _); [|done|congruence].
    rewrite <- Hd. apply (cs_dirty _ Hw).
Qed.

Lemma round_commits_first_witness :
  consistent Scenario.after_setup ∧
  ∃ res w', updateRound 5 Scenario.after_setup = Some (res, w') ∧
            state_of w' 0 = Some (VNum 5).
Proof.
  split; [apply after_setup_consistent|].
  destruct (updateRound 5 Scenario.after_setup) as [[res w']|] eqn:E;
    [|vm_compute in E; discriminate E].
  destruct (round_commits_first _ _ _ _ after_setup_consistent E)
    as (tc & td & _ & _ & _ & H).
  exists res, w'. split; [reflexivity|].
  exact (H 0 (mkRefState (VNum 1) (VNum 1) (VNum 5) 0 [LComputed 0]) eq_refl).
Defined.

(** ** The scheduler's bookkeeping *)

#[local] Instance keeps_scheduled_preorder : PreOrder keeps_scheduled.
Proof.
  split; [intros w H; exact H|]. intros x y z H1 H2 H. apply H2, H1, H.
Qed.

(** A step that leaves the scheduler's variables alone and keeps the
    committed and pending value of every leaf. *)
Lemma scheduled_transfer w w' :
  timers w' = timers w → currentUpdate w' = currentUpdate w →
  dirtyStates w' = dirtyStates w →
  (∀ r this', refs w' !! r = Some this' →
     ∃ this, refs w !! r = Some this ∧
             r_pending this' = r_pending this ∧ r_state this' = r_state this) →
  keeps_scheduled w w'.
Proof.
  intros E1 E2 E3 Hr []. split; rewrite ?E1, ?E2, ?E3; try done.
  intros r this' H' Hn. destruct (Hr r this' H') as (this & H & -> & ->).
  by eapply sc_clean0.
Qed.

Lemma scheduled_same w w' :
  timers w' = timers w → currentUpdate w' = currentUpdate w →
  dirtyStates w' = dirtyStates w → refs w' = refs w →
  keeps_scheduled w w'.
Proof.
  intros E1 E2 E3 E4. apply scheduled_transfer; try done.
  intros r this' H. exists this'. by rewrite <- E4.
Qed.

Lemma scheduled_alter_ref (f : RefState → RefState) r w :
  (∀ o, r_pending (f o) = r_pending o ∧ r_state (f o) = r_state o) →
  keeps_scheduled w (set_refs (alter f r (refs w)) w).
Proof.
  intros Hf. apply scheduled_transfer; try done. simpl.
  intros r' this'. destruct (decide (r = r')) as [->|].
  - rewrite lookup_alter_eq. destruct (refs w !! r') as [o|]; [|done].
    simpl. intros [= <-]. exists o. split; [done|]. apply Hf.
  - rewrite lookup_alter_ne by done. intros H. by exists this'.
Qed.

Lemma scheduled_listeners_add l node w : keeps_scheduled w (listeners_add l node w).
Proof.
  destruct node; simpl; [by apply scheduled_alter_ref|by apply scheduled_same].
Qed.

Lemma scheduled_listeners_delete l node w :
  keeps_scheduled w (listeners_delete l node w).
Proof.
  destruct node; simpl; [by apply scheduled_alter_ref|by apply scheduled_same].
Qed.

Lemma scheduled_RefState_constructor init :
  respects keeps_scheduled (RefState_constructor init).
Proof.
  intros w. unfold RefState_constructor, assertRecursive, bind, gets. simpl.
  assert (keeps_scheduled w
    (set_refs (<[refId w:=mkRefState init init init (refId w) []]> (refs w))
       (set_refId (S (refId w)) w))).
  { intros []. split; simpl; try done.
    intros r this. destruct (decide (refId w = r)) as [<-|].
    - rewrite lookup_insert_eq. by intros [= <-].
    - rewrite lookup_insert_ne by done. apply sc_clean0. }
  destruct (recursive w); simpl; [reflexivity|done].
Qed.

Lemma scheduled_enqueueUpdate r w :
  (∀ r' this, r' ≠ r → refs w !! r' = Some this → r' ∉ dirtyStates w →
     r_pending this = r_state this) →
  timers w = (if currentUpdate w then 1 else 0) →
  (dirtyStates w ≠ [] → currentUpdate w = true) →
  scheduled (snd (enqueueUpdate r w)).
Proof.
  intros Hclean Ht Hd. unfold enqueueUpdate, bind, modify, gets. simpl.
  destruct (currentUpdate w) eqn:Hcu; simpl.
  - split; simpl; [by rewrite Hcu|by rewrite Hcu|].
    intros r' this H Hn. rewrite elem_of_set_add in Hn.
    apply (Hclean r' this); [|done|]; naive_solver.
  - split; simpl; [lia|done|].
    intros r' this H Hn. rewrite elem_of_set_add in Hn.
    apply (Hclean r' this); [|done|]; naive_solver.
Qed.

Lemma scheduled_RefState_set_value r v :
  respects keeps_scheduled (RefState_set_value r v).
Proof.
  intros w Hw. destruct (refs w !! r) as [this|] eqn:Hr;
    [|by rewrite RefState_set_value_absent].
  rewrite (RefState_set_value_halves _ _ _ _ Hr). cbv zeta.
  set (w1 := snd (capture_set r w)).
  assert (H1 : scheduled w1).
  { revert Hw. apply scheduled_same; subst w1; unfold capture_set, modify; simpl;
      by destruct (currentCapture w). }
  clearbody w1. destruct (negb (strict_eq v (r_state this))); [|done].
  destruct H1. apply scheduled_enqueueUpdate; simpl; try done.
  intros r' this' Hne. rewrite lookup_alter_ne by done. apply sc_clean0.
Qed.

Ltac sched_atom :=
  first
    [ apply scheduled_listeners_add
    | apply scheduled_listeners_delete
    | by apply scheduled_alter_ref
    | apply scheduled_same; simpl; repeat case_match; done ].

#[local] Instance keeps_scheduled_frame : Frame keeps_scheduled.
Proof.
  split; [apply _|..]; intros.
  - unfold RefState_get_value, capture_get, emit. respects_auto; sched_atom.
  - apply scheduled_RefState_set_value.
  - unfold ComputedState_get_value, capture_get, emit. respects_auto; sched_atom.
  - unfold ref. respects_with ltac:(apply scheduled_RefState_constructor); sched_atom.
  - unfold computed, ComputedState_constructor, new_Capture, emit.
    respects_auto; sched_atom.
  - unfold effect, EffectState_constructor, new_Capture, emit.
    respects_auto; sched_atom.
  - unfold collect. respects_auto; sched_atom.
Qed.

Lemma scheduled_listener_update l : respects keeps_scheduled (listener_update l).
Proof.
  destruct l as [c|e]; simpl.
  - unfold ComputedState_update, new_Capture, alter_computed, emit.
    respects_with ltac:(run_frame keeps_scheduled); sched_atom.
  - unfold EffectState_update, call_clear, new_Capture, alter_effect, emit.
    respects_with ltac:(run_frame keeps_scheduled); sched_atom.
Qed.

Lemma scheduled_ComputedState_remove c :
  respects keeps_scheduled (ComputedState_remove c).
Proof. unfold ComputedState_remove. respects_auto; sched_atom. Qed.

Lemma scheduled_EffectState_remove e :
  respects keeps_scheduled (EffectState_remove e).
Proof.
  unfold EffectState_remove, call_clear, alter_effect, emit.
  respects_with ltac:(run_frame keeps_scheduled); sched_atom.
Qed.

Lemma scheduled_drainQueue fuel queue w res w' :
  drainQueue fuel queue w = Some (res, w') → scheduled w → scheduled w'.
Proof.
  apply (drainQueue_rel keeps_scheduled).
  - apply scheduled_listener_update.
  - intros w0 l. by apply scheduled_same.
Qed.

Lemma RefState_update_fields r w :
  timers (snd (RefState_update r w)) = timers w ∧
  currentUpdate (snd (RefState_update r w)) = currentUpdate w ∧
  dirtyStates (snd (RefState_update r w)) = dirtyStates w ∧
  ∀ r', refs w !! r' = None → refs (snd (RefState_update r w)) !! r' = None.
Proof.
  destruct (refs w !! r) as [this|] eqn:Hr.
  - destruct (strict_eq (r_state this) (r_pending this)) eqn:He; [|rename He into Hne].
    + by rewrite (RefState_update_unchanged _ _ _ Hr He).
    + rewrite (RefState_update_changed _ _ _ Hr Hne). simpl.
      split_and!; try done. intros r' H.
      destruct (decide (r = r')) as [->|]; [congruence|].
      by rewrite lookup_alter_ne.
  - unfold RefState_update, the_ref, bind. by rewrite Hr.
Qed.

Lemma commitDirty_fields dirty : ∀ queue w,
  timers (snd (commitDirty dirty queue w)) = timers w ∧
  currentUpdate (snd (commitDirty dirty queue w)) = currentUpdate w ∧
  dirtyStates (snd (commitDirty dirty queue w)) = dirtyStates w ∧
  ∀ r', refs w !! r' = None → refs (snd (commitDirty dirty queue w)) !! r' = None.
Proof.
  induction dirty as [|r rest IH]; intros queue w; simpl; [done|].
  destruct (RefState_update_fields r w) as (E1 & E2 & E3 & E4).
  unfold bind at 1 3 5 7.
  destruct (RefState_update r w) as [[changed|ex] w1]; simpl in *; [|done].
  assert (∀ queue',
    timers (snd (commitDirty rest queue' w1)) = timers w ∧
    currentUpdate (snd (commitDirty rest queue' w1)) = currentUpdate w ∧
    dirtyStates (snd (commitDirty rest queue' w1)) = dirtyStates w ∧
    ∀ r', refs w !! r' = None → refs (snd (commitDirty rest queue' w1)) !! r' = None)
    as Hrest.
  { intros queue'. destruct (IH queue' w1) as (F1 & F2 & F3 & F4).
    rewrite F1, F2, F3. split_and!; try done. intros r' H. by apply F4, E4. }
  destruct changed; [|apply Hrest].
  unfold bind, the_ref. destruct (refs w1 !! r); [apply Hrest|done].
Qed.

Lemma commitDirty_total dirty queue w :
  Forall (λ r, is_Some (refs w !! r)) dirty →
  ∃ queue' w', commitDirty dirty queue w = (Ok queue', w').
Proof.
  intros Hall. destruct dirty as [|r0 rest]; [by eexists _, _|].
  pose proof Hall as [[this0 H0] _]%Forall_cons.
  destruct (commitDirty_ref r0 (r0 :: rest) queue w this0 Hall H0)
    as (q' & w' & _ & Hc & _). by exists q', w'.
Qed.

(** After the commit loop on the snapshot, no leaf has a pending value
    that differs from the committed one. *)
Lemma commitDirty_settles w queue w1 :
  consistent w →
  (∀ r this, refs w !! r = Some this → r ∉ dirtyStates w →
     r_pending this = r_state this) →
  commitDirty (dirtyStates w) [] (set_dirtyStates [] w) = (Ok queue, w1) →
  ∀ r this1, refs w1 !! r = Some this1 → r_pending this1 = r_state this1.
Proof.
  intros Hw Hclean Hc r this1 H1.
  destruct (commitDirty_fields (dirtyStates w) [] (set_dirtyStates [] w))
    as (_ & _ & _ & Hdom).
  rewrite Hc in Hdom. simpl in Hdom.
  destruct (refs w !! r) as [this|] eqn:Hr;
    [|rewrite (Hdom r Hr) in H1; done].
  assert (Hall : Forall (λ r', is_Some (refs (set_dirtyStates [] w) !! r'))
                   (dirtyStates w)) by apply (cs_dirty _ Hw).
  destruct (commitDirty_ref r (dirtyStates w) [] (set_dirtyStates [] w) this
              Hall Hr)
    as (q' & w1' & t & Hc' & _ & _ & _ & _ & (this' & G1 & G2 & _ & G4) & _).
  rewrite Hc in Hc'. injection Hc' as <- <-.
  rewrite H1 in G1. injection G1 as <-. rewrite G2, G4.
  case_decide as Hd; [done|]. by apply (Hclean r).
Qed.

Lemma scheduled_updateRound fuel w res w' :
  consistent w →
  timers w = (if currentUpdate w then 1 else 0) →
  (∀ r this, refs w !! r = Some this → r ∉ dirtyStates w →
     r_pending this = r_state this) →
  updateRound fuel w = Some (res, w') → scheduled w'.
Proof.
  intros Hw Ht Hclean Hround. unfold updateRound in Hround.
  assert (Hall : Forall (λ r', is_Some (refs (set_dirtyStates [] w) !! r'))
                   (dirtyStates w)) by apply (cs_dirty _ Hw).
  destruct (commitDirty_total (dirtyStates w) [] (set_dirtyStates [] w) Hall)
    as (queue & w1 & Hc).
  pose proof (commitDirty_settles w queue w1 Hw Hclean Hc) as Hs.
  destruct (commitDirty_fields (dirtyStates w) [] (set_dirtyStates [] w))
    as (E1 & E2 & E3 & _).
  rewrite Hc in *. simpl in *.
  eapply scheduled_drainQueue; [done|].
  split; rewrite ?E1, ?E2, ?E3; try done. intros r this H _. by apply (Hs r).
Qed.

Lemma scheduled_updateLoop fuel : ∀ w res w',
  consistent w →
  timers w = (if currentUpdate w then 1 else 0) →
  (∀ r this, refs w !! r = Some this → r ∉ dirtyStates w →
     r_pending this = r_state this) →
  updateLoop fuel w = Some (res, w') →
  scheduled w' ∧ (res = Ok tt → dirtyStates w' = []).
Proof.
  induction fuel as [|fuel IH]; intros w res w' Hw Ht Hclean; simpl.
  - destruct (dirtyStates w) eqn:Hd; [|done]. intros [= <- <-].
    split; [|done]. rewrite <- Hd in Hclean. split; [done| |done].
    by rewrite Hd.
  - destruct (dirtyStates w) eqn:Hd.
    { intros [= <- <-]. split; [|done]. rewrite <- Hd in Hclean.
      split; [done| |done]. by rewrite Hd. }
    rewrite <- Hd in Hclean.
    destruct (updateRound fuel w) as [[[[]|ex] w1]|] eqn:Hr; [| |done].
    + pose proof (scheduled_updateRound _ _ _ _ Hw Ht Hclean Hr) as [].
      pose proof (consistent_updateRound _ _ _ _ Hr Hw) as Hw1.
      intros Hl. by eapply IH.
    + intros [= <- <-]. split; [|done]. by eapply scheduled_updateRound.
Qed.

Lemma scheduled_fire_timer fuel w res w' :
  consistent w → scheduled w → fire_timer fuel w = Some (res, w') →
  scheduled w' ∧ (res = Ok tt → dirtyStates w' = []).
Proof.
  intros Hw Hs. pose proof Hs as []. unfold fire_timer, updateStates.
  destruct (timers w) as [|n] eqn:Hn.
  - intros [= <- <-]. split; [done|]. intros _.
    destruct (currentUpdate w); [done|].
    destruct (dirtyStates w); [done|]. by discriminate sc_dirty0.
  - destruct (currentUpdate w); [|done]. injection sc_timer0 as ->.
    apply scheduled_updateLoop; [|done|done].
    revert Hw. by apply consistent_same.
Qed.

(** ** The scheduler's bookkeeping in every reachable world *)

Lemma scheduled_initial : scheduled initial.
Proof. by split. Qed.

Lemma reachable_invariants w : reachable w → consistent w ∧ scheduled w.
Proof.
  revert w. apply rtc_ind_r.
  { split; [apply consistent_initial|apply scheduled_initial]. }
  intros w1 w2 _ Hstep [Hc Hs]. split; [by eapply host_step_consistent|].
  destruct Hstep as [k p w0|fuel w0 res w0' H|c w0|e w0].
  - by apply (run_respects keeps_scheduled p w0).
  - by eapply scheduled_fire_timer.
  - by apply scheduled_ComputedState_remove.
  - by apply scheduled_EffectState_remove.
Qed.

(** X9: In every world the host can reach: a flush timer is pending exactly
    when [currentUpdate] is set, and never more than one; whenever a leaf
    is dirty a flush is scheduled; and a leaf that is not dirty has its
    pending value equal to its committed one. *)
Theorem reachable_scheduled (w : World) : reachable w → scheduled w.
Proof. intros Hr. by apply reachable_invariants. Qed.

Lemma reachable_scheduled_witness :
  reachable Scenario.after_setup ∧ timers Scenario.after_setup = 1.
Proof.
  assert (H : reachable Scenario.after_setup).
  { apply rtc_once. apply (host_script Scenario.setup initial). }
  split; [exact H|].
  exact (sc_timer _ (reachable_scheduled Scenario.after_setup H)).
Defined.

(** X10: When a timer fires in a reachable world and the flush returns
    normally, no leaf is left dirty, every leaf's pending value equals its
    committed one, and the timer count again matches [currentUpdate]. *)
Theorem timer_flush_settles (w : World) (fuel : nat) (w' : World) :
  reachable w → fire_timer fuel w = Some (Ok tt, w') →
  dirtyStates w' = [] ∧
  (∀ r this, refs w' !! r = Some this → r_pending this = r_state this) ∧
  timers w' = (if currentUpdate w' then 1 else 0).
Proof.
  intros Hr Hf.
  destruct (reachable_invariants w Hr) as [Hc Hs].
  destruct (scheduled_fire_timer fuel w (Ok tt) w' Hc Hs Hf) as [[] Hd].
  specialize (Hd eq_refl). split_and!; [done| |done].
  intros r this H. apply (sc_clean0 r this H). rewrite Hd. apply not_elem_of_nil.
Qed.

Lemma timer_flush_settles_witness :
  reachable Scenario.after_setup ∧
  ∃ w', fire_timer 5 Scenario.after_setup = Some (Ok tt, w') ∧
        dirtyStates w' = [] ∧ state_of w' 0 = Some (VNum 5).
Proof.
  assert (H : reachable Scenario.after_setup).
  { apply rtc_once. apply (host_script Scenario.setup initial). }
  split; [exact H|].
  destruct (fire_timer 5 Scenario.after_setup) as [[[[]|ex] w']|] eqn:E;
    [|vm_compute in E; discriminate E..].
  exists w'. split; [reflexivity|].
  split; [exact (proj1 (timer_flush_settles _ _ _ H E))|].
  vm_compute in E. injection E as <-. reflexivity.
Defined.

(** ** What [collect] returns *)

Lemma bind_ok_inv {A B} (m : M A) (f : A → M B) w b w' :
  bind m f w = (Ok b, w') → ∃ a w1, m w = (Ok a, w1) ∧ f a w1 = (Ok b, w').
Proof.
  unfold bind. destruct (m w) as [[a|e] w1]; [|done]. intros H. by exists a, w1.
Qed.

#[local] Instance same_registry_preorder : PreOrder same_registry.
Proof.
  split; [done|]. intros x y z H1 H2. unfold same_registry in *. congruence.
Qed.

Ltac registry_atom :=
  unfold same_registry, registry; simpl; repeat case_match; done.

Lemma same_registry_get_ref r : respects same_registry (RefState_get_value r).
Proof.
  unfold RefState_get_value, capture_get, emit. respects_auto; registry_atom.
Qed.

Lemma same_registry_set_ref r v : respects same_registry (RefState_set_value r v).
Proof.
  unfold RefState_set_value, capture_set, alter_ref, enqueueUpdate.
  respects_auto; registry_atom.
Qed.

Lemma same_registry_get_computed c :
  respects same_registry (ComputedState_get_value c).
Proof.
  unfold ComputedState_get_value, capture_get, emit. respects_auto; registry_atom.
Qed.

Lemma registry_link_all l gs w : registry (link_all l gs w) = registry w.
Proof.
  apply (foldl_rel same_registry). intros w' []; registry_atom.
Qed.

Lemma registered_same br bc be pc pe w w' :
  registry w' = registry w →
  registered br bc be pc pe w → registered br bc be pc pe w'.
Proof.
  unfold registry. intros [= E1 E2 E3 E4 E5 E6] [].
  split; rewrite ?E1, ?E2, ?E3, ?E4, ?E5, ?E6; done.
Qed.

Lemma RefState_constructor_ok init w r w' :
  RefState_constructor init w = (Ok r, w') →
  r = refId w ∧
  registry w' = (currentRefs w, currentComputes w, currentEffects w,
                 S (refId w), computedId w, effectId w).
Proof.
  unfold RefState_constructor.
  destruct (assertRecursive_cases "ref" w) as [H|[e H]].
  - rewrite (bind_ok _ _ _ _ _ H). unfold bind, gets, modify, mret. simpl.
    by intros [= <- <-].
  - by rewrite (bind_err _ _ _ _ _ H).
Qed.

Lemma ComputedState_constructor_ok fn call w id w' :
  ComputedState_constructor fn call w = (Ok id, w') →
  ∃ state w1, call (computed_entry w) = (Ok state, w1) ∧
    id = computedId w ∧ registry w' = registry w1.
Proof.
  unfold ComputedState_constructor.
  destruct (assertRecursive_cases "computed" w) as [H|[e H]];
    [|by rewrite (bind_err _ _ _ _ _ H)].
  rewrite (bind_ok _ _ _ _ _ H).
  unfold computed_entry, new_Capture, runCapture, link, emit,
    the_capture, bind, gets, modify, finally, mret. simpl.
  destruct (call _) as [[state|e] w1]; simpl; [|done].
  destruct (captures w1 !! captureId w) as [cap|]; simpl; [|done].
  intros [= <- <-]. exists state, w1. split_and!; [done..|].
  unfold registry. simpl.
  pose proof (registry_link_all (LComputed (computedId w)) (_getters cap)
                (set_recursive None (set_currentCapture (currentCapture w) w1)))
    as E.
  unfold registry in E. simpl in E. by injection E as -> -> -> -> -> ->.
Qed.

Lemma EffectState_constructor_ok fn call w id w' :
  EffectState_constructor fn call w = (Ok id, w') →
  ∃ clear w1, call (effect_entry w) = (Ok clear, w1) ∧
    id = effectId w ∧ registry w' = registry w1.
Proof.
  unfold EffectState_constructor.
  destruct (assertRecursive_cases "effect" w) as [H|[e H]];
    [|by rewrite (bind_err _ _ _ _ _ H)].
  rewrite (bind_ok _ _ _ _ _ H).
  unfold effect_entry, new_Capture, runCapture, link, emit,
    the_capture, bind, gets, modify, finally, mret. simpl.
  destruct (call _) as [[clear|e] w1]; simpl; [|done].
  destruct (captures w1 !! captureId w) as [cap|]; simpl; [|done].
  intros [= <- <-]. exists clear, w1. split_and!; [done..|].
  unfold registry. simpl.
  pose proof (registry_link_all (LEffect (effectId w)) (_getters cap)
                (set_recursive None (set_currentCapture (currentCapture w) w1)))
    as E.
  unfold registry in E. simpl in E. by injection E as -> -> -> -> -> ->.
Qed.

Lemma seq_snoc_from (b n : nat) : b ≤ n → seq b (S n - b) = seq b (n - b) ++ [n].
Proof.
  intros H. replace (S n - b) with (n - b + 1) by lia.
  rewrite seq_app. simpl. do 3 f_equal. lia.
Qed.

Lemma run_registered br bc be {k} (p : prog k) :
  collect_free p → ∀ pc pe w v w',
  registered br bc be pc pe w → run p w = (Ok v, w') →
  registered br bc be pc pe w'.
Proof.
  induction p as [v0| |clear _|k e|k r cont IH|k r v0 cont IH|k c cont IH
                  |k init cont IH|k fn IHfn cont IH|k fn IHfn cont IH
                  |k fn _ cont _]; simpl; intros Hfree pc pe w v w' Hreg Hrun.
  - by injection Hrun as <- <-.
  - by injection Hrun as <- <-.
  - by injection Hrun as <- <-.
  - done.
  - apply bind_ok_inv in Hrun as (a & w1 & Hget & Hrun).
    eapply IH; [apply Hfree| |exact Hrun].
    eapply registered_same; [|exact Hreg].
    pose proof (same_registry_get_ref r w) as E. by rewrite Hget in E.
  - apply bind_ok_inv in Hrun as (a & w1 & Hset & Hrun).
    eapply IH; [apply Hfree| |exact Hrun].
    eapply registered_same; [|exact Hreg].
    pose proof (same_registry_set_ref r v0 w) as E. by rewrite Hset in E.
  - apply bind_ok_inv in Hrun as (a & w1 & Hget & Hrun).
    eapply IH; [apply Hfree| |exact Hrun].
    eapply registered_same; [|exact Hreg].
    pose proof (same_registry_get_computed c w) as E. by rewrite Hget in E.
  - apply bind_ok_inv in Hrun as (a & w1 & Href & Hrun).
    eapply IH; [apply Hfree| |exact Hrun].
    unfold ref in Href. apply bind_ok_inv in Href as (a' & w0 & Hcon & Href).
    apply RefState_constructor_ok in Hcon as [-> Hcon].
    unfold bind, modify, mret in Href. simpl in Href. injection Href as <- <-.
    unfold registry in Hcon. injection Hcon as E1 E2 E3 E4 E5 E6.
    destruct Hreg. split; simpl; rewrite ?E1, ?E2, ?E3, ?E4, ?E5, ?E6; try done.
    + lia.
    + rewrite rg_refs0. simpl. by rewrite seq_snoc_from.
  - destruct Hfree as [Hfn Hcont].
    apply bind_ok_inv in Hrun as (a & w1 & Hcom & Hrun).
    eapply IH; [apply Hcont| |exact Hrun].
    unfold computed in Hcom. apply bind_ok_inv in Hcom as (a' & w0 & Hcon & Hcom).
    apply ComputedState_constructor_ok in Hcon as (state & w2 & Hcall & -> & Hcon).
    unfold bind, modify, mret in Hcom. simpl in Hcom. injection Hcom as <- <-.
    assert (registered br bc be (computedId w :: pc) pe (computed_entry w)) as Hentry.
    { destruct Hreg as [? ? ? ? (lc & Hlc & Hp) ?]. split; simpl; try done; [lia|].
      exists lc. split; [done|]. rewrite seq_snoc_from by done.
      rewrite <- Hp. by rewrite <- Permutation_middle, <- Permutation_cons_append. }
    pose proof (IHfn Hfn _ _ _ _ _ Hentry Hcall) as Hexit.
    unfold registry in Hcon. injection Hcon as E1 E2 E3 E4 E5 E6.
    destruct Hexit as [? ? ? ? (lc & Hlc & Hp) ?].
    split; simpl; rewrite ?E1, ?E2, ?E3, ?E4, ?E5, ?E6; try done.
    rewrite Hlc. simpl. exists (lc ++ [computedId w]). split; [done|].
    rewrite <- Hp. by rewrite <- app_assoc.
  - destruct Hfree as [Hfn Hcont].
    apply bind_ok_inv in Hrun as (a & w1 & Heff & Hrun).
    eapply IH; [apply Hcont| |exact Hrun].
    unfold effect in Heff. apply bind_ok_inv in Heff as (a' & w0 & Hcon & Heff).
    apply EffectState_constructor_ok in Hcon as (state & w2 & Hcall & -> & Hcon).
    unfold modify in Heff. simpl in Heff. injection Heff as <- <-.
    assert (registered br bc be pc (effectId w :: pe) (effect_entry w)) as Hentry.
    { destruct Hreg as [? ? ? ? ? (le & Hle & Hp)]. split; simpl; try done; [lia|].
      exists le. split; [done|]. rewrite seq_snoc_from by done.
      rewrite <- Hp. by rewrite <- Permutation_middle, <- Permutation_cons_append. }
    pose proof (IHfn Hfn _ _ _ _ _ Hentry Hcall) as Hexit.
    unfold registry in Hcon. injection Hcon as E1 E2 E3 E4 E5 E6.
    destruct Hexit as [? ? ? ? ? (le & Hle & Hp)].
    split; simpl; rewrite ?E1, ?E2, ?E3, ?E4, ?E5, ?E6; try done.
    rewrite Hle. simpl. exists (le ++ [effectId w]). split; [done|].
    rewrite <- Hp. by rewrite <- app_assoc.
  - done.
Qed.

(** X11: When the callback calls [collect] nowhere and returns, [collect]
    hands back every node constructed during the call and nothing else:
    the leaves in construction order, the derived signals and the effects
    each as a permutation of the identifiers allocated during the call (a
    node is pushed when its constructor returns, so a nested node precedes
    the one that created it); and the three registration arrays are null
    afterwards. *)
Theorem collect_returns_constructed (fn : prog KVal) (w : World)
    (t : Collected value) (w' : World) :
  collect_free fn →
  collect (run fn) w = (Ok t, w') →
  col_refs t = Some (seq (refId w) (refId w' - refId w)) ∧
  (∃ lc, col_computes t = Some lc ∧
         lc ≡ₚ seq (computedId w) (computedId w' - computedId w)) ∧
  (∃ le, col_effects t = Some le ∧
         le ≡ₚ seq (effectId w) (effectId w' - effectId w)) ∧
  currentRefs w' = None ∧ currentComputes w' = None ∧ currentEffects w' = None.
Proof.
  intros Hfree. unfold collect, bind at 1 2 3, modify, finally. simpl.
  set (w0 := set_currentEffects _ _).
  assert (registered (refId w) (computedId w) (effectId w) [] [] w0) as Hreg.
  { split; simpl; try done.
    - by rewrite Nat.sub_diag.
    - exists []. by rewrite Nat.sub_diag.
    - exists []. by rewrite Nat.sub_diag. }
  unfold bind, gets, mret.
  destruct (run fn w0) as [[v|e] w1] eqn:Hrun; simpl; [|done].
  intros [= <- <-]. simpl.
  destruct (run_registered _ _ _ fn Hfree _ _ _ _ _ Hreg Hrun)
    as [? ? ? Hr (lc & Hlc & Hpc) (le & Hle & Hpe)].
  rewrite app_nil_r in Hpc, Hpe.
  split_and!; try done; [by exists lc|by exists le].
Qed.

Lemma collect_returns_constructed_witness :
  collect_free Scenario.flat_collect ∧
  ∃ t w', collect (run Scenario.flat_collect) Scenario.after_setup = (Ok t, w') ∧
          col_refs t = Some [1].
Proof.
  assert (Hfree : collect_free Scenario.flat_collect) by (simpl; done).
  split; [exact Hfree|].
  destruct (collect (run Scenario.flat_collect) Scenario.after_setup)
    as [[t|e] w'] eqn:E; [|vm_compute in E; discriminate E].
  exists t, w'. split; [reflexivity|].
  pose proof (proj1 (collect_returns_constructed _ _ _ _ Hfree E)) as H.
  replace (refId w') with 2 in H by (vm_compute in E; by injection E as <- <-).
  exact H.
Defined.

(** ** Reads between a write and the flush *)

(** X12: While a client closure runs, whatever it writes, constructs or reads,
    a leaf keeps its committed value, every read of the leaf gives that
    value, and no commit is logged: a write is not visible to a read
    before the flush. *)
Theorem reads_see_committed {k} (p : prog k) (w : World) (r : nat) (b : value) :
  r < refId w → state_of w r = Some b →
  state_of (snd (run p w)) r = Some b ∧
  ∃ t, trace (snd (run p w)) = trace w ++ t ∧ Forall (reads_give r b) t.
Proof.
  intros Hr Hb.
  destruct (run_holds_value r b p w (conj Hr Hb)) as (_ & H1 & H2). by split.
Qed.

Lemma reads_see_committed_witness :
  0 < refId Scenario.one_leaf ∧
  state_of (snd (run (SetRef 0 (VNum 7) (GetRef 0 (λ v, Ret v))) Scenario.one_leaf)) 0
  = Some (VNum 1).
Proof.
  assert (H : 0 < refId Scenario.one_leaf) by (vm_compute; lia).
  split; [exact H|].
  exact (proj1 (reads_see_committed
                  (SetRef 0 (VNum 7) (GetRef 0 (λ v, Ret v)))
                  Scenario.one_leaf 0 (VNum 1) H eq_refl)).
Defined.

(** ** The flush under a relation *)

Lemma commitDirty_rel R `{!PreOrder R} :
  (∀ r, respects R (RefState_update r)) →
  ∀ dirty queue, respects R (commitDirty dirty queue).
Proof.
  intros Hu. induction dirty as [|r rest IH]; intros queue; simpl.
  - by apply respects_mret.
  - apply respects_bind; [apply _|apply Hu|]. intros [].
    + apply respects_bind; [apply _|by apply respects_the_ref|].
      intros this. apply IH.
    + apply IH.
Qed.

Lemma updateLoop_rel R `{!PreOrder R} :
  (∀ l, respects R (listener_update l)) →
  (∀ w l, R w (log (EvUpdate l) w)) →
  (∀ r, respects R (RefState_update r)) →
  (∀ w, R w (set_dirtyStates [] w)) →
  ∀ fuel w res w', updateLoop fuel w = Some (res, w') → R w w'.
Proof.
  intros Hl He Hr Hd.
  assert (∀ fuel w res w', updateRound fuel w = Some (res, w') → R w w') as Hround.
  { intros fuel w res w'. unfold updateRound.
    pose proof (commitDirty_rel R Hr (dirtyStates w) [] (set_dirtyStates [] w)) as Hc.
    destruct (commitDirty _ _ _) as [[queue|e] w1]; simpl in Hc.
    - intros H%(drainQueue_rel R Hl He). etrans; [apply Hd|]. by etrans.
    - intros [= _ <-]. by etrans; [apply Hd|]. }
  induction fuel as [|fuel IH]; intros w res w'; simpl.
  - destruct (dirtyStates w); [|done]. by intros [= _ <-].
  - destruct (dirtyStates w); [by intros [= _ <-]|].
    destruct (updateRound fuel w) as [[[[]|e] w1]|] eqn:E; [| |done].
    + intros H%IH. etrans; [|exact H]. by eapply Hround.
    + intros [= _ <-]. by eapply Hround.
Qed.

Lemma fire_timer_rel R `{!PreOrder R} :
  (∀ l, respects R (listener_update l)) →
  (∀ w l, R w (log (EvUpdate l) w)) →
  (∀ r, respects R (RefState_update r)) →
  (∀ w, R w (set_dirtyStates [] w)) →
  (∀ w n, R w (set_currentUpdate false (set_timers n w))) →
  ∀ fuel w res w', fire_timer fuel w = Some (res, w') → R w w'.
Proof.
  intros Hl He Hr Hd Ht fuel w res w'. unfold fire_timer, updateStates.
  destruct (timers w) as [|n]; [by intros [= _ <-]|].
  intros H%(updateLoop_rel R Hl He Hr Hd). etrans; [apply Ht|exact H].
Qed.

(** ** Host steps under a frame *)

Section HostFrame.
Context (R : relation World) `{!Frame R}.
Hypothesis R_add : ∀ l w node, R w (listeners_add l node w).
Hypothesis R_delete : ∀ l w node, R w (listeners_delete l node w).
Hypothesis R_log : ∀ ev w, R w (log ev w).
Hypothesis R_alloc : ∀ w, R w (alloc_capture w).
Hypothesis R_refs : ∀ f r w, R w (set_refs (alter f r (refs w)) w).
Hypothesis R_computeds : ∀ f c w, R w (set_computeds (alter f c (computeds w)) w).
Hypothesis R_effects : ∀ f e w, R w (set_effects (alter f e (effects w)) w).
Hypothesis R_runCapture :
  ∀ A (m : M A) cap, respects R m → respects R (runCapture m cap).
Hypothesis R_dirty : ∀ w, R w (set_dirtyStates [] w).
Hypothesis R_timer : ∀ w n, R w (set_currentUpdate false (set_timers n w)).

Lemma frame_RefState_update r : respects R (RefState_update r).
Proof. unfold RefState_update, alter_ref, emit. respects_auto; done. Qed.

Lemma frame_call_clear e : respects R (call_clear e).
Proof.
  unfold call_clear, emit. respects_with ltac:(apply (run_respects R)); done.
Qed.

Lemma frame_unlink l cap : respects R (unlink l cap).
Proof. apply respects_unlink; [apply _|apply R_delete|apply R_log]. Qed.

Lemma frame_link l cap : respects R (link l cap).
Proof. apply respects_link; [apply _|apply R_add|apply R_log]. Qed.

Lemma frame_ComputedState_update c : respects R (ComputedState_update c).
Proof.
  unfold ComputedState_update, new_Capture, emit, alter_computed.
  respects_with ltac:(first [apply frame_unlink | apply frame_link
                            |apply R_runCapture; apply (run_respects R)]);
    done.
Qed.

Lemma frame_EffectState_update e : respects R (EffectState_update e).
Proof.
  unfold EffectState_update, new_Capture, emit, alter_effect.
  respects_with ltac:(first [apply frame_unlink | apply frame_link
                            |apply frame_call_clear
                            |apply R_runCapture; apply (run_respects R)]);
    done.
Qed.

Lemma frame_listener_update l : respects R (listener_update l).
Proof.
  destruct l as [c|e]; simpl; [apply frame_ComputedState_update|].
  apply respects_bind; [apply _|apply frame_EffectState_update|].
  intros ?. apply respects_mret. apply _.
Qed.

Lemma frame_ComputedState_remove c : respects R (ComputedState_remove c).
Proof.
  unfold ComputedState_remove. respects_with ltac:(apply frame_unlink).
Qed.

Lemma frame_EffectState_remove e : respects R (EffectState_remove e).
Proof.
  unfold EffectState_remove, alter_effect.
  respects_with ltac:(first [apply frame_unlink|apply frame_call_clear]); done.
Qed.

Lemma frame_host_step w w' : host_step w w' → R w w'.
Proof.
  intros [k p w0|fuel w0 res w0' H|c w0|e w0].
  - apply (run_respects R).
  - revert H. apply fire_timer_rel; try done; [apply _| |].
    + apply frame_listener_update.
    + apply frame_RefState_update.
  - apply frame_ComputedState_remove.
  - apply frame_EffectState_remove.
Qed.

Lemma frame_reachable w : reachable w → R initial w.
Proof.
  revert w. apply rtc_ind_r; [done|].
  intros w1 w2 _ Hstep IH. etrans; [exact IH|by apply frame_host_step].
Qed.

End HostFrame.

(** ** The current capture and the registration arrays *)

Lemma stays_null_same {A} (f : World → option A) w w' :
  f w' = f w → stays_null f w w'.
Proof. unfold stays_null. congruence. Qed.

#[local] Instance keeps_unregistered_preorder : PreOrder keeps_unregistered.
Proof.
  split.
  - intros x. unfold keeps_unregistered, stays_null. tauto.
  - intros x y z (A1 & A2 & A3) (B1 & B2 & B3).
    unfold keeps_unregistered, stays_null in *. tauto.
Qed.

Lemma keeps_unregistered_same w w' :
  currentRefs w' = currentRefs w → currentComputes w' = currentComputes w →
  currentEffects w' = currentEffects w → keeps_unregistered w w'.
Proof. intros. split_and!; by apply stays_null_same. Qed.

Lemma keeps_unregistered_push f w g x :
  (∀ w, f (g w) = push_opt x (f w)) → stays_null f w (g w).
Proof. intros H E. by rewrite H, E. Qed.

Ltac unreg_atom :=
  first
    [ apply keeps_unregistered_same; simpl; repeat case_match; done
    | split_and!;
      first [ by apply stays_null_same; simpl; repeat case_match
            | by intros E; simpl; rewrite E ] ].

#[local] Instance keeps_unregistered_frame : Frame keeps_unregistered.
Proof.
  split; [apply _|..]; intros.
  - unfold RefState_get_value, capture_get, emit. respects_auto; unreg_atom.
  - unfold RefState_set_value, capture_set, alter_ref, enqueueUpdate.
    respects_auto; unreg_atom.
  - unfold ComputedState_get_value, capture_get, emit. respects_auto; unreg_atom.
  - unfold ref, RefState_constructor. respects_auto; unreg_atom.
  - unfold computed, ComputedState_constructor, new_Capture, emit.
    respects_auto; try destruct_source; unreg_atom.
  - unfold effect, EffectState_constructor, new_Capture, emit.
    respects_auto; try destruct_source; unreg_atom.
  - intros w. unfold collect, bind, modify, finally, gets, mret. simpl.
    destruct (fn _) as [[a|e] w1]; simpl; by split_and!.
Qed.

Lemma same_capture_host_step w w' : host_step w w' → same_capture w w'.
Proof.
  apply (frame_host_step same_capture); intros; try done.
  - by destruct node.
  - by destruct node.
  - by apply runCapture_restores.
Qed.

Lemma keeps_unregistered_host_step w w' :
  host_step w w' → keeps_unregistered w w'.
Proof.
  apply (frame_host_step keeps_unregistered); intros;
    try destruct_source; try unreg_atom.
  apply respects_runCapture; [apply _| |done]. intros; unreg_atom.
Qed.

(** X13: Whatever world they start from, and whether they return or throw, a
    client script, a timer's flush, a removal and the recompute of a
    listener leave the current capture the one they found. *)
Theorem capture_restored (w w' : World) :
  host_step w w' ∨ (∃ l, w' = snd (listener_update l w)) →
  currentCapture w' = currentCapture w.
Proof.
  intros [H|[l ->]]; [by apply same_capture_host_step|].
  apply (frame_listener_update same_capture); intros; try done.
  - by destruct node.
  - by destruct node.
  - by apply runCapture_restores.
Qed.

Lemma capture_restored_witness :
  currentCapture (snd (listener_update (LEffect 0) Scenario.after_setup))
  = currentCapture Scenario.after_setup.
Proof.
  apply capture_restored. right. by exists (LEffect 0).
Defined.

(** X14: In every world the host can reach no capture is current and the
    three registration arrays are null: reads at top level are not
    recorded and nodes constructed at top level are not registered. *)
Theorem reachable_idle (w : World) : reachable w → idle w.
Proof.
  intros Hr. unfold reachable in Hr. revert w Hr.
  apply rtc_ind_r; [done|].
  intros w1 w2 _ Hstep (H1 & H2 & H3 & H4).
  pose proof (same_capture_host_step _ _ Hstep) as Hc.
  destruct (keeps_unregistered_host_step _ _ Hstep) as (K1 & K2 & K3).
  unfold same_capture in Hc. split_and!; [congruence|by apply K1|by apply K2|by apply K3].
Qed.

Lemma reachable_idle_witness :
  reachable Scenario.after_setup ∧ currentCapture Scenario.after_setup = None.
Proof.
  assert (H : reachable Scenario.after_setup).
  { apply rtc_once. apply (host_script Scenario.setup initial). }
  split; [exact H|]. exact (proj1 (reachable_idle Scenario.after_setup H)).
Defined.

(** ** Draining a queue of effects *)

Lemma array_pop_snoc {A} (q : list A) (x : A) : array_pop (q ++ [x]) = Some (x, q).
Proof. unfold array_pop. by rewrite reverse_snoc, reverse_involutive. Qed.

Lemma updates_of_none t :
  Forall (λ ev, ∀ l, ev ≠ EvUpdate l) t → updates_of t = [].
Proof.
  induction 1 as [|ev t H _ IH]; [done|].
  destruct ev; try exact IH. by destruct (H l).
Qed.

Lemma updates_of_step l t1 t :
  updates_of t1 = [] → updates_of (EvUpdate l :: t1 ++ t) = l :: updates_of t.
Proof.
  intros H. unfold updates_of in *. cbn [omap list_omap]. f_equal.
  change (omap ?f (t1 ++ t)) with (omap f (t1 ++ t)).
  by rewrite omap_app, H.
Qed.

Lemma listener_update_no_update l w :
  ∃ t, trace (snd (listener_update l w)) = trace w ++ t ∧ updates_of t = [].
Proof.
  destruct (listener_update_trace (λ ev, ∀ l, ev ≠ EvUpdate l) l) with (w := w)
    as (t & Ht & Hf); [by intros []|done|done|].
  exists t. split; [done|]. by apply updates_of_none.
Qed.

(** X15: A queue that holds effects only is drained in as many steps as it
    has entries, last entry first: an effect's recompute queues nothing.
    If an effect throws, the drain stops there and the entries before it
    stay unvisited. *)
Theorem drain_effects_in_reverse (queue : list listener) (w : World) (fuel : nat) :
  Forall is_effect queue → length queue ≤ fuel →
  ∃ res w' t, drainQueue fuel queue w = Some (res, w') ∧
    trace w' = trace w ++ t ∧
    match res with
    | Ok _ => updates_of t = reverse queue
    | Err _ => updates_of t `prefix_of` reverse queue
    end.
Proof.
  revert w fuel. induction queue as [|l queue IH] using rev_ind;
    intros w fuel Hall Hlen.
  - exists (Ok tt), w, []. rewrite app_nil_r. by destruct fuel.
  - apply Forall_app in Hall as [Hall [Hl _]%Forall_cons].
    rewrite length_app in Hlen. simpl in Hlen.
    destruct fuel as [|fuel]; [lia|]. simpl. rewrite array_pop_snoc.
    destruct l as [c|e]; [done|].
    destruct (listener_update_no_update (LEffect e) (log (EvUpdate (LEffect e)) w))
      as (t1 & Ht1 & Hu1).
    unfold emit, modify, listener_update, bind in Ht1 |- *. simpl in Ht1 |- *.
    destruct (EffectState_update e (log (EvUpdate (LEffect e)) w))
      as [[[]|ex] w1]; simpl in Ht1 |- *.
    + destruct (IH w1 fuel Hall ltac:(lia)) as (res & w' & t & Hd & Ht & Hres).
      exists res, w', (EvUpdate (LEffect e) :: t1 ++ t).
      split; [done|]. split.
      { rewrite Ht, Ht1. by rewrite <- !app_assoc. }
      rewrite reverse_snoc, (updates_of_step _ _ _ Hu1).
      destruct res; [by rewrite Hres|by apply prefix_cons].
    + exists (Err ex), w1, (EvUpdate (LEffect e) :: t1).
      split; [done|]. split; [by rewrite Ht1, <- app_assoc|].
      rewrite reverse_snoc.
      rewrite <- (app_nil_r t1), (updates_of_step _ _ _ Hu1).
      apply prefix_cons, prefix_nil.
Qed.

Lemma drain_effects_in_reverse_witness :
  (∃ w' t,
     drainQueue 2 [LEffect 0; LEffect 2] Scenario.three_effects
     = Some (Ok tt, w') ∧
     trace w' = trace Scenario.three_effects ++ t ∧
     updates_of t = [LEffect 2; LEffect 0]) ∧
  (∃ ex w' t,
     drainQueue 3 [LEffect 0; LEffect 1; LEffect 2] Scenario.three_effects
     = Some (Err ex, w') ∧
     trace w' = trace Scenario.three_effects ++ t ∧
     updates_of t `prefix_of` [LEffect 2; LEffect 1; LEffect 0] ∧
     LEffect 0 ∉ updates_of t).
Proof.
  split.
  - destruct (drain_effects_in_reverse [LEffect 0; LEffect 2]
                Scenario.three_effects 2)
      as (res & w' & t & Hd & Ht & Hres); [repeat constructor|simpl; lia|].
    destruct res as [[]|ex]; [|vm_compute in Hd; discriminate Hd].
    by exists w', t.
  - destruct (drain_effects_in_reverse [LEffect 0; LEffect 1; LEffect 2]
                Scenario.three_effects 3)
      as (res & w' & t & Hd & Ht & Hres); [repeat constructor|simpl; lia|].
    destruct res as [[]|ex]; [vm_compute in Hd; discriminate Hd|].
    exists ex, w', t. split_and!; [done..|].
    vm_compute in Hd. injection Hd as _ <-. vm_compute in Ht.
    apply (app_inv_head
             [EvCall (LEffect 0); EvLink (LEffect 0); EvCall (LEffect 1);
              EvLink (LEffect 1); EvCall (LEffect 2); EvLink (LEffect 2)]) in Ht.
    subst t. vm_compute. intros H%list_elem_of_In. simpl in H.
    destruct H as [H|[H|[]]]; discriminate H.
Defined.

(** ** A capture lists only what was read *)

#[local] Instance tracked_preorder : PreOrder tracked.
Proof.
  split.
  - intros w. exists []. rewrite app_nil_r. split; [done|].
    intros cap c' node H1 H2. right. by exists c'.
  - intros x y z (t1 & E1 & H1) (t2 & E2 & H2). exists (t1 ++ t2).
    split; [by rewrite E2, E1, app_assoc|].
    intros cap c' node Hc Hn.
    destruct (H2 cap c' node Hc Hn) as [[v Hv]|(c & Hc1 & Hn1)].
    { left. exists v. apply elem_of_app. by right. }
    destruct (H1 cap c node Hc1 Hn1) as [[v Hv]|?]; [|by right].
    left. exists v. apply elem_of_app. by left.
Qed.

Lemma tracked_quiet w w' t :
  trace w' = trace w ++ t →
  (∀ cap c' node, captures w' !! cap = Some c' → node ∈ _getters c' →
     ∃ c, captures w !! cap = Some c ∧ node ∈ _getters c) →
  tracked w w'.
Proof. intros Ht H. exists t. split; [done|]. intros. right. by eapply H. Qed.

Lemma tracked_same w w' :
  trace w' = trace w → captures w' = captures w → tracked w w'.
Proof.
  intros Ht Hc. apply (tracked_quiet _ _ []); [by rewrite app_nil_r|].
  intros cap c' node H1 H2. exists c'. by rewrite <- Hc.
Qed.

Lemma tracked_emit ev w : tracked w (log ev w).
Proof.
  apply (tracked_quiet _ _ [ev]); [reflexivity|].
  intros cap c' node H1 H2. by exists c'.
Qed.

Lemma tracked_alloc w : tracked w (alloc_capture w).
Proof.
  apply (tracked_quiet _ _ []); [by rewrite app_nil_r|].
  intros cap c' node. unfold alloc_capture. simpl.
  destruct (decide (cap = captureId w)) as [->|Hne].
  - rewrite lookup_insert_eq. intros [= <-]. simpl. by intros ?%elem_of_nil.
  - rewrite lookup_insert_ne by done. intros H1 H2. by exists c'.
Qed.

Lemma tracked_capture_set r w : tracked w (snd (capture_set r w)).
Proof.
  unfold capture_set, modify. simpl.
  destruct (currentCapture w) as [cur|]; [|reflexivity].
  apply (tracked_quiet _ _ []); [by rewrite app_nil_r|].
  intros cap c' node. simpl. destruct (decide (cur = cap)) as [->|Hne].
  - rewrite lookup_alter_eq. destruct (captures w !! cap) as [c|]; [|done].
    simpl. intros [= <-]. simpl. intros H. by exists c.
  - rewrite lookup_alter_ne by done. intros H1 H2. by exists c'.
Qed.

Lemma respects_tracked_capture_set r : respects tracked (capture_set r).
Proof. intros w. apply tracked_capture_set. Qed.

Lemma tracked_read node v w :
  tracked w (log (EvGet node v) (snd (capture_get node w))).
Proof.
  unfold capture_get, modify. simpl.
  destruct (currentCapture w) as [cur|]; simpl; [|apply tracked_emit].
  exists [EvGet node v]. split; [reflexivity|].
  intros cap c' node'. simpl.
  destruct (decide (cur = cap)) as [->|Hne].
  - rewrite lookup_alter_eq. destruct (captures w !! cap) as [c|]; [|done].
    simpl. intros [= <-]. simpl. rewrite elem_of_set_add. intros [->|H].
    + left. exists v. by apply list_elem_of_singleton.
    + right. by exists c.
  - rewrite lookup_alter_ne by done. intros H1 H2. right. by exists c'.
Qed.

Ltac tracked_atom :=
  first
    [ apply tracked_emit
    | apply tracked_alloc
    | apply tracked_same; try destruct_source; simpl; repeat case_match; done ].

#[local] Instance tracked_frame : Frame tracked.
Proof.
  split; [apply _|..]; intros.
  - intros w. destruct (refs w !! r) as [this|] eqn:Hr.
    + rewrite (RefState_get_value_eq _ _ _ Hr). apply tracked_read.
    + by rewrite (RefState_get_value_absent _ _ Hr).
  - unfold RefState_set_value, alter_ref, enqueueUpdate.
    respects_with ltac:(apply respects_tracked_capture_set); tracked_atom.
  - intros w. destruct (computeds w !! c) as [this|] eqn:Hc.
    + rewrite (ComputedState_get_value_eq _ _ _ Hc). apply tracked_read.
    + by rewrite (ComputedState_get_value_absent _ _ Hc).
  - unfold ref, RefState_constructor. respects_auto; tracked_atom.
  - unfold computed, ComputedState_constructor, new_Capture, emit.
    respects_auto; tracked_atom.
  - unfold effect, EffectState_constructor, new_Capture, emit.
    respects_auto; tracked_atom.
  - unfold collect. respects_auto; tracked_atom.
Qed.

Lemma tracked_listener_update l : respects tracked (listener_update l).
Proof.
  apply (frame_listener_update tracked); intros; try tracked_atom.
  apply respects_runCapture; [apply _| |done]. intros. tracked_atom.
Qed.

Lemma capture_of_alter_computed (f : ComputedState → ComputedState) c w l :
  (∀ o, c_capture (f o) = c_capture o) →
  capture_of (set_computeds (alter f c (computeds w)) w) l = capture_of w l.
Proof.
  intros Hf. destruct l as [c'|e]; simpl; [|done].
  destruct (decide (c = c')) as [->|Hne]; [|by rewrite lookup_alter_ne].
  rewrite lookup_alter_eq. destruct (computeds w !! c'); simpl; [|done].
  by rewrite Hf.
Qed.

Lemma capture_of_alter_effect (f : EffectState → EffectState) e w l :
  (∀ o, e_capture (f o) = e_capture o) →
  capture_of (set_effects (alter f e (effects w)) w) l = capture_of w l.
Proof.
  intros Hf. destruct l as [c|e']; simpl; [done|].
  destruct (decide (e = e')) as [->|Hne]; [|by rewrite lookup_alter_ne].
  rewrite lookup_alter_eq. destruct (effects w !! e'); simpl; [|done].
  by rewrite Hf.
Qed.

Lemma computed_update_exit_capture c prev state w b w' :
  computed_update_exit c prev state w = (Ok b, w') →
  ∀ l, capture_of w' l = capture_of w l.
Proof.
  unfold computed_update_exit. cbv zeta.
  set (w1 := set_currentCapture prev w).
  assert (H1 : ∀ l, capture_of w1 l = capture_of w l) by done. clearbody w1.
  destruct (computeds w1 !! c) as [this1|]; [|done].
  destruct (captures w1 !! c_capture this1) as [capture1|]; [|done].
  destruct (link_all_fields (LComputed c) (_getters capture1) w1)
    as (_ & _ & _ & _ & _ & _ & _ & _ & E9).
  set (w2 := log _ _).
  assert (H2 : ∀ l, capture_of w2 l = capture_of w l).
  { intros l. rewrite <- H1, <- E9. done. }
  clearbody w2.
  destruct (computeds w2 !! c) as [this2|]; [|done].
  destruct (strict_eq state (c_state this2)); intros [= <- <-] l; [done|].
  by rewrite capture_of_alter_computed.
Qed.

Lemma effect_update_exit_capture e prev clear w w' :
  effect_update_exit e prev clear w = (Ok tt, w') →
  ∀ l, capture_of w' l = capture_of w l.
Proof.
  unfold effect_update_exit. cbv zeta.
  set (w1 := set_effects _ _).
  assert (H1 : ∀ l, capture_of w1 l = capture_of w l).
  { intros l. subst w1. by rewrite capture_of_alter_effect. }
  clearbody w1.
  destruct (effects w1 !! e) as [this1|]; [|done].
  destruct (captures w1 !! e_capture this1) as [capture1|]; [|done].
  destruct (link_all_fields (LEffect e) (_getters capture1) w1)
    as (_ & _ & _ & _ & _ & _ & _ & _ & E9).
  intros [= <-] l. rewrite <- H1, <- E9. done.
Qed.

Lemma update_entry_capture X G w :
  is_Some (capture_of w X) →
  capture_of (update_entry X G w) X = Some (captureId w).
Proof.
  destruct (unlink_all_fields X G w) as (_ & _ & _ & E4 & _ & _ & _ & _ & E9).
  intros [cap H]. rewrite <- (E9 X) in H. unfold update_entry.
  destruct X as [c|e]; simpl in *; rewrite lookup_alter_eq;
    by destruct (_ !! _).
Qed.

Lemma extends_capture_of w w' l :
  extends w w' → consistent w → is_Some (capture_of w l) →
  capture_of w' l = capture_of w l.
Proof.
  intros He Hw [cap H]. destruct l as [c|e]; simpl in *.
  - assert (c < computedId w) as Hc.
    { apply (cs_computeds _ Hw). by destruct (computeds w !! c). }
    pose proof (f_equal (fmap c_capture) (ex_computeds _ _ He c Hc)) as E.
    by destruct (computeds w' !! c), (computeds w !! c).
  - assert (e < effectId w) as Hc.
    { apply (cs_effects _ Hw). by destruct (effects w !! e). }
    by rewrite (ex_effects _ _ He e Hc).
Qed.

Lemma ComputedState_update_fresh_capture w c b w' :
  consistent w → ComputedState_update c w = (Ok b, w') →
  capture_of w' (LComputed c) = Some (captureId w).
Proof.
  intros Hw Hup.
  destruct (computeds w !! c) as [this|] eqn:Hc;
    [|by rewrite ComputedState_update_absent in Hup].
  assert (Hof : capture_of w (LComputed c) = Some (c_capture this))
    by (simpl; by rewrite Hc).
  destruct (cs_node_capture _ Hw (LComputed c) (c_capture this) Hof)
    as [capture Hcap].
  rewrite (ComputedState_update_halves _ _ _ _ Hc Hcap) in Hup.
  pose proof (consistent_update_entry (LComputed c) _ _ w Hw Hof Hcap) as H1.
  pose proof (update_entry_capture (LComputed c) (_getters capture) w
                ltac:(by rewrite Hof)) as H2.
  pose proof (run_extends (c_fn this)
                (update_entry (LComputed c) (_getters capture) w)) as H3.
  destruct (run (c_fn this) _) as [[state|ex] w1]; [|done]. simpl in H3.
  rewrite (computed_update_exit_capture _ _ _ _ _ _ Hup).
  rewrite (extends_capture_of _ _ _ H3 H1); [done|by rewrite H2].
Qed.

Lemma effect_rerun_fresh_capture w e w' :
  consistent w → effect_rerun e w = (Ok tt, w') →
  capture_of w' (LEffect e) = Some (captureId w).
Proof.
  intros Hw Hup.
  destruct (effects w !! e) as [this|] eqn:He;
    [|by rewrite effect_rerun_absent in Hup].
  assert (Hof : capture_of w (LEffect e) = Some (e_capture this))
    by (simpl; by rewrite He).
  destruct (cs_node_capture _ Hw (LEffect e) (e_capture this) Hof)
    as [capture Hcap].
  rewrite (effect_rerun_halves _ _ _ _ He Hcap) in Hup.
  pose proof (consistent_update_entry (LEffect e) _ _ w Hw Hof Hcap) as H1.
  pose proof (update_entry_capture (LEffect e) (_getters capture) w
                ltac:(by rewrite Hof)) as H2.
  pose proof (run_extends (e_fn this)
                (update_entry (LEffect e) (_getters capture) w)) as H3.
  destruct (run (e_fn this) _) as [[clear|ex] w1]; [|done]. simpl in H3.
  rewrite (effect_update_exit_capture _ _ _ _ _ Hup).
  rewrite (extends_capture_of _ _ _ H3 H1); [done|by rewrite H2].
Qed.

Lemma listener_update_fresh_capture w l b w' :
  consistent w →
  (∀ e this, l = LEffect e → effects w !! e = Some this → e_deleted this = false) →
  listener_update l w = (Ok b, w') →
  ∃ cap', capture_of w' l = Some cap' ∧ captureId w ≤ cap'.
Proof.
  intros Hw Hlive Hup. destruct l as [c|e].
  - exists (captureId w). split; [|done].
    by eapply ComputedState_update_fresh_capture.
  - simpl in Hup. unfold bind in Hup.
    destruct (EffectState_update e w) as [[[]|ex] w2] eqn:Hup2; [|done].
    injection Hup as _ <-.
    destruct (effects w !! e) as [this|] eqn:He;
      [|by rewrite EffectState_update_absent in Hup2].
    rewrite (EffectState_update_live _ _ _ He (Hlive _ _ eq_refl He)) in Hup2.
    unfold bind in Hup2.
    pose proof (consistent_call_clear e w Hw) as Hc.
    pose proof (call_clear_extends e w) as Hx.
    destruct (call_clear e w) as [[[]|ex] w1]; [|done]. simpl in Hc, Hx.
    exists (captureId w1). split; [by eapply effect_rerun_fresh_capture|].
    apply (ex_captureId _ _ Hx).
Qed.

(** X16: After a derived signal or a live effect was recomputed in a
    consistent world, every signal that lists it as a listener was read
    while it was recomputed: the node is subscribed to nothing but what
    that evaluation read. *)
Theorem subscribed_only_to_reads (w : World) (l : listener) (changed : bool)
    (w' : World) :
  consistent w →
  (∀ e this, l = LEffect e → effects w !! e = Some this → e_deleted this = false) →
  listener_update l w = (Ok changed, w') →
  ∃ t, trace w' = trace w ++ t ∧
       ∀ node, l ∈ listeners_of w' node → was_read node t.
Proof.
  intros Hw Hlive Hup.
  assert (Hw' : consistent w').
  { replace w' with (snd (listener_update l w)) by by rewrite Hup.
    by apply consistent_listener_update. }
  destruct (tracked_listener_update l w) as (t & Ht & Hcap).
  rewrite Hup in Ht, Hcap. simpl in Ht, Hcap.
  exists t. split; [done|]. intros node Hin.
  apply (cs_edges _ Hw') in Hin.
  destruct (listener_update_fresh_capture w l changed w' Hw Hlive Hup)
    as (cap' & Hof & Hfresh).
  unfold getters_of in Hin. rewrite Hof in Hin.
  destruct (captures w' !! cap') as [c'|] eqn:Hc'; [|by apply elem_of_nil in Hin].
  simpl in Hin.
  destruct (Hcap cap' c' node Hc' Hin) as [Hr|(c0 & Hc0 & _)]; [done|].
  assert (cap' < captureId w); [|lia].
  apply (cs_captures _ Hw). by rewrite Hc0.
Qed.

Lemma subscribed_only_to_reads_witness :
  consistent Scenario.after_setup ∧
  ∃ t, trace (snd (listener_update (LComputed 0) Scenario.after_setup))
       = trace Scenario.after_setup ++ t ∧
       was_read (SRef 0) t.
Proof.
  split; [apply after_setup_consistent|].
  destruct (subscribed_only_to_reads Scenario.after_setup (LComputed 0) false
              (snd (listener_update (LComputed 0) Scenario.after_setup))
              after_setup_consistent)
    as (t & Ht & H).
  - intros e this [=].
  - vm_compute. reflexivity.
  - exists t. split; [exact Ht|]. apply H.
    vm_compute. apply list_elem_of_In. simpl. tauto.
Defined.

(** ** Which listeners a round recomputes *)

#[local] Instance keeps_callable_preorder : PreOrder keeps_callable.
Proof.
  split; [by intros w l|]. intros x y z H1 H2 l H. by apply H2, H1.
Qed.

Lemma keeps_callable_same w w' :
  computeds w' = computeds w → effects w' = effects w → keeps_callable w w'.
Proof. intros E1 E2 [c|e]; simpl; by rewrite ?E1, ?E2. Qed.

Lemma keeps_callable_alter_computed f c w :
  keeps_callable w (set_computeds (alter f c (computeds w)) w).
Proof.
  intros [c'|e]; simpl; [|done]. intros H.
  destruct (decide (c = c')) as [->|]; [by apply is_Some_alter|].
  by rewrite lookup_alter_ne.
Qed.

Lemma keeps_callable_alter_effect f e w :
  (∀ o, e_deleted (f o) = e_deleted o) →
  keeps_callable w (set_effects (alter f e (effects w)) w).
Proof.
  intros Hf [c|e']; simpl; [done|]. intros (this & H & Hd).
  destruct (decide (e = e')) as [->|].
  - exists (f this). rewrite lookup_alter_eq, H. split; [done|]. by rewrite Hf.
  - exists this. by rewrite lookup_alter_ne.
Qed.

Lemma keeps_callable_insert_computed o w :
  keeps_callable w (set_computeds (<[computedId w := o]> (computeds w)) w).
Proof.
  intros [c'|e]; simpl; [|done]. intros H.
  destruct (decide (computedId w = c')) as [<-|].
  - by rewrite lookup_insert_eq.
  - by rewrite lookup_insert_ne.
Qed.

Lemma keeps_callable_listeners_add l node w :
  keeps_callable w (listeners_add l node w).
Proof.
  destruct node; simpl; [by apply keeps_callable_same|].
  apply keeps_callable_alter_computed.
Qed.

Lemma keeps_callable_listeners_delete l node w :
  keeps_callable w (listeners_delete l node w).
Proof.
  destruct node; simpl; [by apply keeps_callable_same|].
  apply keeps_callable_alter_computed.
Qed.

Ltac callable_atom :=
  first
    [ apply keeps_callable_listeners_add
    | apply keeps_callable_listeners_delete
    | apply keeps_callable_alter_computed
    | by apply keeps_callable_alter_effect
    | apply keeps_callable_same; try destruct_source; simpl; repeat case_match; done ].

Lemma keeps_callable_ComputedState_constructor fn call :
  respects keeps_callable call →
  respects keeps_callable (ComputedState_constructor fn call).
Proof.
  intros Hcall. unfold ComputedState_constructor, new_Capture, emit.
  respects_auto; try callable_atom.
  intros [c'|e']; simpl; [|done]. intros H.
  destruct (decide (a0 = c')) as [<-|]; [by rewrite lookup_insert_eq|].
  by rewrite lookup_insert_ne.
Qed.

Lemma keeps_callable_EffectState_constructor fn call :
  respects keeps_callable call →
  respects keeps_callable (EffectState_constructor fn call).
Proof.
  intros Hcall. unfold EffectState_constructor, new_Capture, emit.
  respects_auto; try callable_atom.
  intros [c'|e']; simpl; [done|]. intros (this & H & Hd).
  destruct (decide (a0 = e')) as [<-|].
  - eexists. rewrite lookup_insert_eq. by split.
  - exists this. by rewrite lookup_insert_ne.
Qed.

#[local] Instance keeps_callable_frame : Frame keeps_callable.
Proof.
  split; [apply _|..]; intros.
  - unfold RefState_get_value, capture_get, emit. respects_auto; callable_atom.
  - unfold RefState_set_value, capture_set, alter_ref, enqueueUpdate.
    respects_auto; callable_atom.
  - unfold ComputedState_get_value, capture_get, emit. respects_auto; callable_atom.
  - unfold ref, RefState_constructor. respects_auto; callable_atom.
  - unfold computed.
    respects_with ltac:(by apply keeps_callable_ComputedState_constructor);
      callable_atom.
  - unfold effect.
    respects_with ltac:(by apply keeps_callable_EffectState_constructor);
      callable_atom.
  - unfold collect. respects_auto; callable_atom.
Qed.










Lemma NoDup_set_add {A} `{EqDecision A} (x : A) s : NoDup s → NoDup (set_add x s).
Proof.
  intros H. unfold set_add. case_decide; [done|].
  apply NoDup_app. split_and!; [done| |apply NoDup_singleton].
  intros y Hy ->%list_elem_of_singleton. done.
Qed.





(** ** C3: two writes before a flush *)







(** ** C10: a write of the committed value after another write *)




(** ** The dirty set is a set *)

#[local] Instance keeps_nodup_preorder : PreOrder keeps_nodup.
Proof.
  split; [intros w H; exact H|]. intros x y z H1 H2 H. by apply H2, H1.
Qed.

Lemma keeps_nodup_same w w' : dirtyStates w' = dirtyStates w → keeps_nodup w w'.
Proof. intros E H. by rewrite E. Qed.

Ltac nodup_atom :=
  first
    [ apply keeps_nodup_same; try destruct_source; simpl; repeat case_match; done
    | intros ?; simpl; by apply NoDup_set_add ].

#[local] Instance keeps_nodup_frame : Frame keeps_nodup.
Proof.
  split; [apply _|..]; intros.
  - unfold RefState_get_value, capture_get, emit. respects_auto; nodup_atom.
  - unfold RefState_set_value, capture_set, alter_ref, enqueueUpdate.
    respects_auto; nodup_atom.
  - unfold ComputedState_get_value, capture_get, emit. respects_auto; nodup_atom.
  - unfold ref, RefState_constructor. respects_auto; nodup_atom.
  - unfold computed, ComputedState_constructor, new_Capture, emit.
    respects_auto; nodup_atom.
  - unfold effect, EffectState_constructor, new_Capture, emit.
    respects_auto; nodup_atom.
  - unfold collect. respects_auto; nodup_atom.
Qed.

(** In every world the host can reach the dirty set lists no leaf
    twice. *)
Lemma reachable_dirty_NoDup w : reachable w → NoDup (dirtyStates w).
Proof.
  intros Hr. apply (frame_reachable keeps_nodup) in Hr; try (intros; nodup_atom).
  - apply Hr. constructor.
  - intros A m cap Hm. apply respects_runCapture; [apply _| |done].
    intros; nodup_atom.
  - intros w0 _. constructor.
Qed.
